(** * loop_ivdep: the transpose-and-fold kernel and its comparison harness

    A shallow embedding of [loop_ivdep.cpp].  The kernel is embedded twice:
    once with the sequential meaning that the C++ loops have, and once with
    the reordering that the [[intel::ivdep(safe_len)]] attribute licenses.
    The kernel is first written over an arbitrary element type and row
    length, then instantiated at IEEE binary32 and [kRowLength = 128]. *)

From Stdlib Require Import ZArith Lia String.
From Stdlib Require Import Floats.SpecFloat.
From stdpp Require Import base list.

(** ** Loops *)

(** [for (size_t i = 0; i < n; i++) s = body i s;]  The counters of the
    program stay below [128 * 128 * 128 = 2^21], far from the wrap-around
    of [size_t], so they are natural numbers here. *)
Definition for_loop {S : Type} (n : nat) (body : nat → S → S) (s : S) : S :=
  foldl (λ acc i, body i acc) s (seq 0 n).

(** ** The kernel over an arbitrary element type *)

(** [float m[N][N]]: a list of rows. *)
Abbreviation matrix F := (list (list F)).

Section Kernel.
Context {F : Type}.
Variable fadd : F → F → F.
Variable fzero : F.
(** [N] stands for [kRowLength]. *)
Variable N : nat.

(** [a[i]] on a flat array.  The program never indexes out of range; the
    default only makes the function total. *)
Definition read1 (a : list F) (i : nat) : F := default fzero (a !! i).

(** [m[r][c]]. *)
Definition read2 (m : matrix F) (r c : nat) : F :=
  default fzero (m !! r ≫= λ row, row !! c).

(** [m[r][c] = x].  Out of range the update leaves [m] as it is; the
    program never does that (in C++ it would be undefined behaviour). *)
Definition write2 (m : matrix F) (r c : nat) (x : F) : matrix F :=
  alter (λ row, <[c := x]> row) r m.

(** The shape of [float m[N][N]]. *)
Definition shaped (m : matrix F) : Prop :=
  length m = N ∧ ∀ r row, m !! r = Some row → length row = N.

(** A local array that is declared but not initialised: its contents are
    whatever [g] says. *)
Definition uninit2 (g : nat → nat → F) : matrix F :=
  (λ r, g r <$> seq 0 N) <$> seq 0 N.

(** Lines 48-51: the initialisation loop. *)
Definition init_body (input : list F) (i : nat) (st : matrix F * matrix F)
  : matrix F * matrix F :=
  (write2 st.1 (i / N) (i mod N) (read1 input i),
   write2 st.2 (i / N) (i mod N) fzero).

Definition init_buffers (input : list F) (st : matrix F * matrix F)
  : matrix F * matrix F :=
  for_loop (N * N) (init_body input) st.

(** Line 61: [temp_buffer[j % N][i] += in_buffer[i][j % N]]. *)
Definition fold_body (in_buffer : matrix F) (j i : nat) (temp : matrix F)
  : matrix F :=
  write2 temp (j mod N) i
    (fadd (read2 temp (j mod N) i) (read2 in_buffer i (j mod N))).

(** Lines 60-62: the unrolled inner loop. *)
Definition inner_loop (in_buffer : matrix F) (j : nat) (temp : matrix F)
  : matrix F :=
  for_loop N (fold_body in_buffer j) temp.

(** Lines 58-63: the outer loop, [kMatrixSize * kRowLength] iterations. *)
Definition accumulate (in_buffer temp : matrix F) : matrix F :=
  for_loop (N * N * N) (inner_loop in_buffer) temp.

(** Lines 66-68: the copy to the output accessor. *)
Definition write_body (temp : matrix F) (i : nat) (out : list F) : list F :=
  <[i := read2 temp (i / N) (i mod N)]> out.

Definition write_output (temp : matrix F) (out : list F) : list F :=
  for_loop (N * N) (write_body temp) out.

(** What the two local arrays hold when the kernel starts. *)
Record locals := {
  in_garbage : nat → nat → F;
  temp_garbage : nat → nat → F
}.

(** The kernel body, lines 44-68, executed in program order.  [out] is the
    output buffer as the kernel finds it. *)
Definition KernelCompute (lc : locals) (input out : list F) : list F :=
  let st := init_buffers input
              (uninit2 (in_garbage lc), uninit2 (temp_garbage lc)) in
  write_output (accumulate st.1 st.2) out.

(** *** What [[intel::ivdep(safe_len)]] permits

    The attribute tells the compiler that outer iterations fewer than
    [safe_len] apart carry no dependence through memory, so the pipeline
    may issue the loads of iteration [j] before the stores of up to
    [safe_len - 1] preceding iterations have landed.  [lag j] is how far
    behind the hardware would like the loads of iteration [j] to run; the
    attribute caps it at [safe_len - 1], and no more than [j] iterations
    precede iteration [j]. *)
Definition load_distance (safe_len : nat) (lag : nat → nat) (j : nat) : nat :=
  Nat.min (Nat.min (lag j) (safe_len - 1)) j.

(** Line 61 with its load of [temp_buffer] served from [view]. *)
Definition stale_body (in_buffer view : matrix F) (j i : nat) (temp : matrix F)
  : matrix F :=
  write2 temp (j mod N) i
    (fadd (read2 view (j mod N) i) (read2 in_buffer i (j mod N))).

Definition stale_inner_loop (in_buffer view : matrix F) (j : nat)
    (temp : matrix F) : matrix F :=
  for_loop N (stale_body in_buffer view j) temp.

(** [hist] lists the states of [temp_buffer] after each outer iteration so
    far, the latest first. *)
Definition pipelined_step (in_buffer : matrix F) (safe_len : nat)
    (lag : nat → nat) (j : nat) (hist : list (matrix F)) : list (matrix F) :=
  match hist with
  | [] => []
  | cur :: _ =>
      let view := default cur (hist !! load_distance safe_len lag j) in
      stale_inner_loop in_buffer view j cur :: hist
  end.

Definition pipelined_accumulate (in_buffer : matrix F) (safe_len : nat)
    (lag : nat → nat) (temp : matrix F) : matrix F :=
  default temp
    (head (for_loop (N * N * N) (pipelined_step in_buffer safe_len lag) [temp])).

(** The kernel as the device may run it under [ivdep(safe_len)]. *)
Definition KernelCompute_ivdep (safe_len : nat) (lag : nat → nat)
    (lc : locals) (input out : list F) : list F :=
  let st := init_buffers input
              (uninit2 (in_garbage lc), uninit2 (temp_garbage lc)) in
  write_output (pipelined_accumulate st.1 safe_len lag st.2) out.

(** *** The kernel as section 4.1 of the specification words it

    Step 1: the working buffer holds the row-major input, the accumulator
    is all zero.  Step 2: the two nested loops.  Step 3: the accumulator
    is copied, row after row, into the output. *)
Definition working_of (input : list F) : matrix F :=
  (λ r, (λ c, read1 input (r * N + c)) <$> seq 0 N) <$> seq 0 N.

Definition zero_accumulator : matrix F := replicate N (replicate N fzero).

Definition spec_step (working : matrix F) (j i : nat) (accumulator : matrix F)
  : matrix F :=
  write2 accumulator (j mod N) i
    (fadd (read2 accumulator (j mod N) i) (read2 working i (j mod N))).

Definition spec_kernel (input : list F) : list F :=
  let working := working_of input in
  concat
    (foldl (λ acc j, foldl (λ acc' i, spec_step working j i acc') acc (seq 0 N))
       zero_accumulator (seq 0 (N * N * N))).

(** "The sum over p in [0,N) of Input[p][r]", added up from [p = 0]. *)
Definition column_sum (input : list F) (r : nat) : F :=
  foldl (λ acc p, fadd acc (read1 input (p * N + r))) fzero (seq 0 N).

Definition spec_transpose_sum (input : list F) : list F :=
  (λ i, column_sum input (i / N)) <$> seq 0 (N * N).

End Kernel.

(** How many [j < k] have [j mod N = r]. *)
Definition visits (N k r : nat) : nat :=
  k / N + (if decide (r < k mod N) then 1 else 0).

(** ** IEEE binary32, the [float] of the program

    [spec_float] with 24 bits of precision and [emax = 128]; all NaNs are
    one value, so payloads are not tracked. *)

Abbreviation float := spec_float.

Definition float_prec : Z := 24.
Definition float_emax : Z := 128.

(** [x + y], rounding to nearest even. *)
Definition float_add : float → float → float := SFadd float_prec float_emax.

(** [x / y]. *)
Definition float_div : float → float → float := SFdiv float_prec float_emax.

(** [static_cast<float>(z)]. *)
Definition float_of_int (z : Z) : float :=
  binary_normalize float_prec float_emax z 0 false.

(** The literal [0] stored into a [float]. *)
Definition float_zero : float := S754_zero false.

Definition float_one : float := float_of_int 1.

(** [x != y] and [x <= y]: comparisons with a NaN operand are unordered. *)
Definition float_ne (x y : float) : bool := negb (SFeqb x y).
Definition float_le (x y : float) : bool := SFleb x y.
Definition float_lt (x y : float) : bool := SFltb x y.

(** A number that is not negative: [+0], a positive finite number or
    [+infinity]. *)
Definition nonneg_number (x : float) : bool :=
  match x with
  | S754_zero false | S754_finite false _ _ | S754_infinity false => true
  | _ => false
  end.

(** ** A model of rounding

    [binary_round_aux] of the standard library, for a mantissa that is not
    negative, written with divisions by powers of two instead of the
    digit-by-digit shifts. *)

Section FloatModel.
Local Open Scope Z_scope.

(** The exponent of the format at magnitude [k], for binary32. *)
Definition fexp32 (k : Z) : Z := Z.max (k - 24) (-149).

(** Whether a location records lost digits. *)
Definition inexact (l : location) : bool :=
  match l with loc_Exact => false | loc_Inexact _ => true end.

(** The location after [n] more digits of [m] are shifted out. *)
Definition shifted_loc (m n : Z) (l : location) : location :=
  if n <=? 0 then l
  else loc_of_shr_record
         {| shr_m := m / 2 ^ n;
            shr_r := Z.testbit m (n - 1);
            shr_s := inexact l || negb (m mod 2 ^ (n - 1) =? 0) |}.

(** The second half of [binary_round_aux]: the rounded mantissa is brought
    back into the format and classified. *)
Definition renormalize (m2 e1 : Z) : float :=
  let n2 := Z.max 0 (fexp32 (Zdigits2 m2 + e1) - e1) in
  let m3 := m2 / 2 ^ n2 in
  let e3 := e1 + n2 in
  match m3 with
  | Zpos p => if e3 <=? 104 then S754_finite false p e3 else S754_infinity false
  | _ => S754_zero false
  end.

(** [binary_round_aux] on a mantissa that is not negative, step by step. *)
Definition round_model (m e : Z) (l : location) : float :=
  let n1 := Z.max 0 (fexp32 (Zdigits2 m + e) - e) in
  renormalize (round_nearest_even (m / 2 ^ n1) (shifted_loc m n1 l)) (e + n1).

(** The value of a finite number, scaled to an integer. *)
Definition scaled (m : positive) (e : Z) : Z := Zpos m * 2 ^ (e + 149).

(** Rounding an integer to 24 significant digits, to nearest even. *)
Definition rnd24 (z : Z) : Z :=
  let n := Zdigits2 z - 24 in
  if n <=? 0 then z
  else round_nearest_even (z / 2 ^ n) (shifted_loc z n loc_Exact) * 2 ^ n.

End FloatModel.

(** ** The program *)

Definition kRowLength : nat := 128.
Definition kMinSafelen : nat := 1.
Definition kMaxSafelen : nat := kRowLength.
Definition kMatrixSize : nat := kRowLength * kRowLength.

(** How a call that may end in [std::terminate()] ends. *)
Inductive completion (A : Type) : Type :=
  | Completed (a : A)
  | Terminated.
Arguments Completed {A} a.
Arguments Terminated {A}.

(** What the SYCL runtime and the device contribute to one call of
    [TransposeAndFold]: whether a [sycl::exception] is thrown inside the
    [try] block, how far the pipeline lets loads run behind, and what the
    kernel's local arrays hold before they are initialised. *)
Record device_run := {
  sycl_exception : bool;
  lag : nat → nat;
  kernel_locals : locals (F := float)
}.

(** Lines 26-99.  The [catch] block prints its diagnostics and calls
    [std::terminate()].  Otherwise the buffer destructor copies the kernel's
    output back into [m_output]; the timing lines that are printed do not
    depend on the matrices and are left out. *)
Definition TransposeAndFold (safe_len : nat) (run : device_run)
    (m_input m_output : list float) : completion (list float) :=
  if sycl_exception run then Terminated
  else Completed
         (KernelCompute_ivdep float_add float_zero kRowLength safe_len
            (lag run) (kernel_locals run) m_input m_output).

(** What [m_output] holds after a call that raised nothing. *)
Definition kernel_output (safe_len : nat) (run : device_run)
    (m_input m_output : list float) : list float :=
  KernelCompute_ivdep float_add float_zero kRowLength safe_len
    (lag run) (kernel_locals run) m_input m_output.

(** A [std::array] that is declared but not initialised. *)
Definition uninit1 (n : nat) (g : nat → float) : list float := g <$> seq 0 n.

(** Everything [main] takes from outside: the C library's [RAND_MAX] and
    the values its successive calls of [rand()] return, the contents of the
    three arrays before they are written, and the two device runs. *)
Record environment := {
  RAND_MAX : Z;
  rand : nat → Z;
  A_garbage : nat → float;
  B_garbage : nat → float;
  C_garbage : nat → float;
  run_min : device_run;
  run_max : device_run
}.

(** What the C standard says of [rand()]: a value between 0 and
    [RAND_MAX]; [RAND_MAX] is an [int] and at least 32767. *)
Definition INT_MAX : Z := 2147483647.

Definition rand_conforms (env : environment) : Prop :=
  (32767 ≤ RAND_MAX env ≤ INT_MAX)%Z ∧
  ∀ i, (0 ≤ rand env i ≤ RAND_MAX env)%Z.

(** Line 106. *)
Definition random_element (rand_max r : Z) : float :=
  float_div (float_of_int r) (float_of_int rand_max).

(** Lines 105-107. *)
Definition fill_input (env : environment) : list float :=
  for_loop kMatrixSize
    (λ i A, <[i := random_element (RAND_MAX env) (rand env i)]> A)
    (uninit1 kMatrixSize (A_garbage env)).

(** Lines 123-128: the loop returns from [main] at the first [i] with
    [B[i] != C[i]].  The state is [Some i] once that has happened. *)
Definition verify_body (B C : list float) (i : nat) (st : option nat)
  : option nat :=
  match st with
  | Some k => Some k
  | None =>
      if float_ne (read1 float_zero B i) (read1 float_zero C i)
      then Some i else None
  end.

(** [B[i] == C[i]] and [B[i] != C[i]]. *)
Definition same_at (B C : list float) (i : nat) : Prop :=
  SFeqb (read1 float_zero B i) (read1 float_zero C i) = true.

Definition differ_at (B C : list float) (i : nat) : Prop :=
  float_ne (read1 float_zero B i) (read1 float_zero C i) = true.

Definition verify (B C : list float) : option nat :=
  for_loop kMatrixSize (verify_body B C) None.

(** How the process ends: [return status] from [main] after printing the
    verdict line, or abnormal termination. *)
Inductive outcome : Type :=
  | Exit (status : Z) (verdict : string)
  | Abort.

Definition PASSED : string := "PASSED: The results are correct".
Definition FAILED : string := "FAILED: The results are incorrect".

Definition verdict_of (mismatch : option nat) : outcome :=
  match mismatch with
  | Some _ => Exit 1 FAILED
  | None => Exit 0 PASSED
  end.

(** The arrays [B] and [C] of [main] after the two calls, when neither
    raised anything. *)
Definition B_of (env : environment) : list float :=
  kernel_output kMinSafelen (run_min env) (fill_input env)
    (uninit1 kMatrixSize (B_garbage env)).

Definition C_of (env : environment) : list float :=
  kernel_output kMaxSafelen (run_max env) (fill_input env)
    (uninit1 kMatrixSize (C_garbage env)).

(** Lines 101-131. *)
Definition main (env : environment) : outcome :=
  let A := fill_input env in
  match TransposeAndFold kMinSafelen (run_min env) A
          (uninit1 kMatrixSize (B_garbage env)) with
  | Terminated => Abort
  | Completed B =>
      match TransposeAndFold kMaxSafelen (run_max env) A
              (uninit1 kMatrixSize (C_garbage env)) with
      | Terminated => Abort
      | Completed C => verdict_of (verify B C)
      end
  end.

(** ** Sample inputs *)

(** A run that raises nothing and keeps the loads in program order, locals
    holding zeros. *)
Definition in_order_run : device_run :=
  {| sycl_exception := false;
     lag := λ _, 0;
     kernel_locals := {| in_garbage := λ _ _, float_zero;
                         temp_garbage := λ _ _, float_zero |} |}.

(** A run that raises nothing and lets the loads run as far behind as the
    attribute allows, locals holding NaNs. *)
Definition eager_run : device_run :=
  {| sycl_exception := false;
     lag := λ j, j;
     kernel_locals := {| in_garbage := λ _ _, S754_nan;
                         temp_garbage := λ _ _, S754_nan |} |}.

(** A run in which the runtime finds no device. *)
Definition failing_run : device_run :=
  {| sycl_exception := true;
     lag := λ _, 0;
     kernel_locals := {| in_garbage := λ _ _, float_zero;
                         temp_garbage := λ _ _, float_zero |} |}.

Definition zero_matrix : list float := replicate kMatrixSize float_zero.
Definition nan_matrix : list float := replicate kMatrixSize S754_nan.

(** The matrix with [1.0] in its first cell and [0.0] elsewhere. *)
Definition unit_matrix : list float := <[0 := float_one]> zero_matrix.

(** An environment for [main]: glibc's [RAND_MAX], a [rand()] that keeps
    returning [r], and the given two runs. *)
Definition sample_env (r : Z) (first second : device_run) : environment :=
  {| RAND_MAX := 2147483647;
     rand := λ _, r;
     A_garbage := λ _, S754_nan;
     B_garbage := λ _, S754_nan;
     C_garbage := λ _, float_zero;
     run_min := first;
     run_max := second |}.

(** The 2 x 2 matrix [[1,2],[3,4]] of the specification's example. *)
Definition example_2x2 : list float :=
  [float_of_int 1; float_of_int 2; float_of_int 3; float_of_int 4].

(** A run in which every load is served [kRowLength] iterations late. *)
Definition lagging_run : device_run :=
  {| sycl_exception := false;
     lag := λ _, kRowLength;
     kernel_locals := {| in_garbage := λ _ _, float_zero;
                         temp_garbage := λ _ _, float_zero |} |}.

(** An environment that agrees with [sample_env r] on [RAND_MAX], on the
    first [kMatrixSize] values of [rand()] and on raising nothing, and differs in
    everything else. *)
Definition other_env (r : Z) : environment :=
  {| RAND_MAX := 2147483647;
     rand := λ i, if i <? kMatrixSize then r else 0%Z;
     A_garbage := λ _, float_one;
     B_garbage := λ _, float_zero;
     C_garbage := λ _, S754_nan;
     run_min := eager_run;
     run_max := lagging_run |}.

(** ** Rounding in a format with [prec] digits and largest exponent [emax] *)

Section FormatModel.
Local Open Scope Z_scope.
Variables prec emax : Z.

(** The second half of [binary_round_aux]. *)
Definition renormalize_fmt (m2 e1 : Z) : spec_float :=
  let n2 := Z.max 0 (fexp prec emax (Zdigits2 m2 + e1) - e1) in
  let m3 := m2 / 2 ^ n2 in
  let e3 := e1 + n2 in
  match m3 with
  | Zpos p =>
      if e3 <=? emax - prec then S754_finite false p e3
      else S754_infinity false
  | _ => S754_zero false
  end.

(** [binary_round_aux] on a mantissa that is not negative. *)
Definition round_model_fmt (m e : Z) (l : location) : spec_float :=
  let n1 := Z.max 0 (fexp prec emax (Zdigits2 m + e) - e) in
  renormalize_fmt
    (round_nearest_even (m / 2 ^ n1) (shifted_loc m n1 l)) (e + n1).

(** Rounding an integer to [prec] significant digits, to nearest even. *)
Definition rnd (z : Z) : Z :=
  let n := Zdigits2 z - prec in
  if n <=? 0 then z
  else round_nearest_even (z / 2 ^ n) (shifted_loc z n loc_Exact) * 2 ^ n.

(** The value of a number that is not negative, in units of the smallest
    positive number of the format. *)
Definition value (x : spec_float) : Z :=
  match x with
  | S754_finite false m e => Zpos m * 2 ^ (e - emin prec emax)
  | _ => 0
  end.

(** [+0] or a positive normal number. *)
Definition regular (x : spec_float) : bool :=
  match x with
  | S754_zero false => true
  | S754_finite false m e =>
      (Zdigits2 (Zpos m) =? prec) && (emin prec emax <=? e)
      && (e <=? emax - prec)
  | _ => false
  end.

End FormatModel.

(** ** The time measurement of [TransposeAndFold]

    Lines 72-76 and 93-98.  The host code computes in [double]: IEEE 754
    binary64. *)

Abbreviation double := spec_float.

Definition double_prec : Z := 53.
Definition double_emax : Z := 1024.

(** [static_cast<double>(z)] for an integer [z]. *)
Definition double_of_int (z : Z) : double :=
  binary_normalize double_prec double_emax z 0 false.

Definition double_sub : double → double → double :=
  SFsub double_prec double_emax.
Definition double_mul : double → double → double :=
  SFmul double_prec double_emax.
Definition double_div : double → double → double :=
  SFdiv double_prec double_emax.

(** The conversion of a [float] operand to [double]: every [float] is a
    [double], with a longer mantissa. *)
Definition double_of_float (x : float) : double :=
  match x with
  | S754_finite s m e =>
      binary_normalize double_prec double_emax (cond_Zopp s (Zpos m)) e s
  | _ => x
  end.

(** The literals [1e-6] and [1e-3f]: the [double] nearest to one millionth
    and the [float] nearest to one thousandth. *)
Definition literal_1em6 : double :=
  double_div (double_of_int 1) (double_of_int 1000000).
Definition literal_1em3f : float :=
  float_div (float_of_int 1) (float_of_int 1000).

Definition sizeof_float : Z := 4.

(** What [get_profiling_info] returns for the two events: unsigned 64-bit
    counts of nanoseconds. *)
Record profiling_info := {
  command_start : Z;
  command_end : Z
}.

(** Lines 72-76. *)
Definition kernel_time (p : profiling_info) : double :=
  let start := double_of_int (command_start p) in
  let end_ := double_of_int (command_end p) in
  double_mul (double_sub end_ start) literal_1em6.

(** Lines 96-97: the number that is printed as the throughput. *)
Definition throughput (kernel_time : double) : double :=
  double_div
    (double_mul
       (double_mul (double_of_int (Z.of_nat kMatrixSize))
          (double_of_int sizeof_float))
       (double_of_float literal_1em3f))
    (double_mul kernel_time (double_of_float literal_1em3f)).

(** ** Loop rules *)

Lemma for_loop_0 {S : Type} (body : nat → S → S) (s : S) :
  for_loop 0 body s = s.
Proof. reflexivity. Qed.

Lemma for_loop_S {S : Type} (n : nat) (body : nat → S → S) (s : S) :
  for_loop (Datatypes.S n) body s = body n (for_loop n body s).
Proof. unfold for_loop. by rewrite seq_S, foldl_app. Qed.

(** The invariant rule: what holds before the loop and is kept by every
    iteration holds after it. *)
Lemma for_loop_inv {S : Type} (P : nat → S → Prop) n (body : nat → S → S) s :
  P 0 s →
  (∀ i s', i < n → P i s' → P (Datatypes.S i) (body i s')) →
  P n (for_loop n body s).
Proof.
  intros H0 Hstep. induction n as [|n IH]; [done|].
  rewrite for_loop_S. apply Hstep; [lia|]. apply IH. intros; apply Hstep; [lia|done].
Qed.

Lemma for_loop_ext {S : Type} n (body1 body2 : nat → S → S) s :
  (∀ i s', i < n → body1 i s' = body2 i s') →
  for_loop n body1 s = for_loop n body2 s.
Proof.
  intros H. induction n as [|n IH]; [done|].
  rewrite !for_loop_S, IH by (intros; apply H; lia). apply H; lia.
Qed.

(** ** Index arithmetic *)

Lemma flat_index_div N r c : c < N → (r * N + c) / N = r.
Proof. intros. rewrite Nat.div_add_l by lia. rewrite Nat.div_small; lia. Qed.

Lemma flat_index_mod N r c : c < N → (r * N + c) mod N = c.
Proof.
  intros. rewrite Nat.add_comm, Nat.Div0.mod_add. by apply Nat.mod_small.
Qed.

Lemma flat_index_split N i : 0 < N → i = i / N * N + i mod N ∧ i mod N < N.
Proof.
  intros. split; [|apply Nat.mod_upper_bound; lia].
  rewrite (Nat.div_mod_eq i N) at 1. lia.
Qed.

Lemma flat_index_row N i : 0 < N → i < N * N → i / N < N.
Proof. intros. apply Nat.Div0.div_lt_upper_bound. lia. Qed.

(** Outer iterations fewer than [N] apart work on different rows. *)
Lemma rows_apart N j k : j < k → k - j < N → j mod N ≠ k mod N.
Proof.
  intros Hjk Hd Heq.
  assert (HN : N ≠ 0) by lia.
  pose proof (Nat.div_mod_eq j N) as Hj. pose proof (Nat.div_mod_eq k N) as Hk.
  rewrite Heq in Hj.
  assert (Hq : j / N ≤ k / N) by (apply Nat.Div0.div_le_mono; lia).
  assert (N * (k / N - j / N) < N) as Hlt by nia.
  assert (k / N - j / N = 0) by nia. nia.
Qed.

Lemma visits_0 N r : visits N 0 r = 0.
Proof.
  unfold visits. rewrite Nat.Div0.div_0_l, Nat.Div0.mod_0_l.
  case_decide; lia.
Qed.

Lemma visits_S N k r :
  r < N →
  visits N (S k) r = visits N k r + (if decide (r = k mod N) then 1 else 0).
Proof.
  intros Hr. unfold visits.
  assert (HN : N ≠ 0) by lia.
  pose proof (Nat.div_mod_eq k N) as Hk.
  pose proof (Nat.mod_upper_bound k N HN) as Hkm.
  destruct (decide (S (k mod N) = N)) as [Hwrap|Hnowrap].
  - assert (S k = (S (k / N)) * N + 0) as HS by lia.
    assert (S k / N = S (k / N)) as ->
      by (rewrite HS; apply flat_index_div; lia).
    assert (S k mod N = 0) as ->
      by (rewrite HS; apply flat_index_mod; lia).
    repeat case_decide; lia.
  - assert (S k = (k / N) * N + S (k mod N)) as HS by lia.
    assert (S k / N = k / N) as ->
      by (rewrite HS at 1; apply flat_index_div; lia).
    assert (S k mod N = S (k mod N)) as ->
      by (rewrite HS at 1; apply flat_index_mod; lia).
    repeat case_decide; lia.
Qed.

Lemma visits_full N M r : r < N → visits N (M * N) r = M.
Proof.
  intros. unfold visits.
  rewrite Nat.div_mul, Nat.Div0.mod_mul by lia. case_decide; lia.
Qed.

Lemma visits_count N k r :
  r < N → visits N k r = length (filter (λ j, j mod N = r) (seq 0 k)).
Proof.
  intros Hr. induction k as [|k IH]; [by rewrite visits_0|].
  rewrite visits_S, seq_S, filter_app, length_app, <- IH by done.
  simpl. rewrite filter_cons, filter_nil.
  repeat case_decide; simpl; lia.
Qed.

(** ** Facts about the buffers *)

Section BufferFacts.
Context {F : Type}.
Variable fadd : F → F → F.
Variable fzero : F.
Variable N : nat.

Implicit Types m : matrix F.

Lemma read2_row m m' r c :
  m !! r = m' !! r → read2 fzero m r c = read2 fzero m' r c.
Proof. unfold read2. by intros ->. Qed.

Lemma write2_row_ne m r c x r' :
  r ≠ r' → write2 m r c x !! r' = m !! r'.
Proof. intros. unfold write2. by rewrite list_lookup_alter_ne. Qed.

Lemma read2_write2_ne m r c x r' c' :
  r ≠ r' ∨ c ≠ c' → read2 fzero (write2 m r c x) r' c' = read2 fzero m r' c'.
Proof.
  intros Hne. unfold read2, write2.
  destruct (decide (r = r')) as [->|Hr].
  - rewrite list_lookup_alter_eq. destruct (m !! r') as [row|]; [simpl|done].
    rewrite list_lookup_insert_ne; [done|]. destruct Hne; congruence.
  - by rewrite list_lookup_alter_ne.
Qed.

Lemma read2_write2_eq m r c x :
  shaped N m → r < N → c < N → read2 fzero (write2 m r c x) r c = x.
Proof.
  intros [Hlen Hrows] Hr Hc. unfold read2, write2.
  rewrite list_lookup_alter_eq.
  destruct (lookup_lt_is_Some_2 m r) as [row Hrow]; [lia|].
  rewrite Hrow. simpl.
  rewrite list_lookup_insert_eq; [done|]. rewrite (Hrows _ _ Hrow). done.
Qed.

Lemma shaped_write2 m r c x : shaped N m → shaped N (write2 m r c x).
Proof.
  intros [Hlen Hrows]. unfold write2. split; [by rewrite length_alter|].
  intros r' row. destruct (decide (r = r')) as [->|Hr].
  - rewrite list_lookup_alter_eq.
    destruct (m !! r') as [row'|] eqn:E; [simpl|done].
    intros [= <-]. rewrite length_insert. eauto.
  - rewrite list_lookup_alter_ne by done. eauto.
Qed.

Lemma shaped_tabulate (g : nat → nat → F) :
  shaped N ((λ r, g r <$> seq 0 N) <$> seq 0 N).
Proof.
  split; [by rewrite length_fmap, length_seq|].
  intros r row. rewrite list_lookup_fmap.
  destruct (seq 0 N !! r); [simpl|done].
  intros [= <-]. by rewrite length_fmap, length_seq.
Qed.

Lemma read2_tabulate (g : nat → nat → F) r c :
  r < N → c < N → read2 fzero ((λ r, g r <$> seq 0 N) <$> seq 0 N) r c = g r c.
Proof.
  intros. unfold read2.
  rewrite list_lookup_fmap, lookup_seq_lt by done. simpl.
  rewrite list_lookup_fmap, lookup_seq_lt by done. done.
Qed.

(** Two buffers of the right shape with the same cells are the same. *)
Lemma matrix_ext m m' :
  shaped N m → shaped N m' →
  (∀ r c, r < N → c < N → read2 fzero m r c = read2 fzero m' r c) → m = m'.
Proof.
  intros [Hlen Hrows] [Hlen' Hrows'] Hcells.
  apply (list_eq_same_length _ _ N); [done..|].
  intros r row row' Hr Hrow Hrow'.
  apply (list_eq_same_length _ _ N); [eauto..|].
  intros c x x' Hc Hx Hx'.
  specialize (Hcells r c Hr Hc). unfold read2 in Hcells.
  rewrite Hrow, Hrow' in Hcells. simpl in Hcells.
  rewrite Hx, Hx' in Hcells. done.
Qed.

(** A buffer of the right shape is the table of its cells. *)
Lemma matrix_tabulate m :
  shaped N m → m = (λ r, read2 fzero m r <$> seq 0 N) <$> seq 0 N.
Proof.
  intros Hm. apply matrix_ext; [done|apply shaped_tabulate|].
  intros. by rewrite read2_tabulate.
Qed.

End BufferFacts.

(** ** Facts about the kernel *)

Section KernelFacts.
Context {F : Type}.
Variable fadd : F → F → F.
Variable fzero : F.
Variable N : nat.
Hypothesis N_pos : 0 < N.

Implicit Types m inb tmp view : matrix F.
Implicit Types input out : list F.

(** *** The initialisation loop *)

Lemma init_buffers_spec input m0 t0 :
  shaped N m0 → shaped N t0 →
  let st := init_buffers fzero N input (m0, t0) in
  shaped N st.1 ∧ shaped N st.2 ∧
  ∀ r c, r < N → c < N →
    read2 fzero st.1 r c = read1 fzero input (r * N + c) ∧
    read2 fzero st.2 r c = fzero.
Proof.
  intros Hm Ht. unfold init_buffers.
  set (P := λ (k : nat) (st : matrix F * matrix F),
    shaped N st.1 ∧ shaped N st.2 ∧
    ∀ r c, r < N → c < N →
      (r * N + c < k →
        read2 fzero st.1 r c = read1 fzero input (r * N + c) ∧
        read2 fzero st.2 r c = fzero)).
  assert (P (N * N) (for_loop (N * N) (init_body fzero N input) (m0, t0)))
    as (H1 & H2 & H3).
  { apply for_loop_inv; subst P; simpl.
    - split_and!; [done..|]. intros; lia.
    - intros i [m t] Hi (H1 & H2 & H3). simpl in *.
      split_and!; [by apply shaped_write2..|].
      intros r c Hr Hc Hlt.
      destruct (decide (r * N + c = i)) as [<-|Hne].
      + rewrite flat_index_div, flat_index_mod by done.
        by rewrite !(read2_write2_eq _ N).
      + destruct (flat_index_split N i N_pos) as [Hi1 Hi2].
        rewrite !read2_write2_ne.
        * apply H3; [done..|lia].
        * destruct (decide (i / N = r)); [right|by left]. subst r; lia.
        * destruct (decide (i / N = r)); [right|by left]. subst r; lia. }
  simpl. split_and!; [done..|]. intros r c Hr Hc. apply H3; [done..|nia].
Qed.

(** *** One outer iteration *)

(** The inner loop leaves every row but [j mod N] alone. *)
Lemma inner_loop_row_ne inb j tmp r :
  r ≠ j mod N → inner_loop fadd fzero N inb j tmp !! r = tmp !! r.
Proof.
  intros Hr. unfold inner_loop.
  apply (for_loop_inv (λ _ t, t !! r = tmp !! r)); [done|].
  intros i t _ <-. unfold fold_body. by apply write2_row_ne.
Qed.

Lemma inner_loop_shaped inb j tmp :
  shaped N tmp → shaped N (inner_loop fadd fzero N inb j tmp).
Proof.
  intros Ht. unfold inner_loop.
  apply (for_loop_inv (λ _ t, shaped N t)); [done|].
  intros i t _ Hs. by apply shaped_write2.
Qed.

(** After [k] inner iterations the cells [k..] of row [j mod N] are still
    those of the starting state. *)
Lemma inner_prefix_untouched (f : nat → matrix F → F) k tmp r c :
  k ≤ c →
  read2 fzero (for_loop k (λ i t, write2 t r i (f i t)) tmp) r c
  = read2 fzero tmp r c.
Proof.
  induction k as [|k IH]; intros Hc; [done|].
  rewrite for_loop_S, read2_write2_ne by (right; lia).
  apply IH; lia.
Qed.

(** Loads served from a state whose row [j mod N] is up to date give the
    iteration the operands it has in program order. *)
Lemma stale_inner_loop_fresh inb view j tmp :
  view !! (j mod N) = tmp !! (j mod N) →
  stale_inner_loop fadd fzero N inb view j tmp
  = inner_loop fadd fzero N inb j tmp.
Proof.
  intros Hrow. unfold stale_inner_loop, inner_loop.
  generalize N at 1 3. intros k.
  induction k as [|k IH]; [done|].
  rewrite !for_loop_S, IH.
  set (t := for_loop k (fold_body fadd fzero N inb j) tmp).
  assert (read2 fzero view (j mod N) k = read2 fzero t (j mod N) k) as Hload.
  { rewrite (read2_row _ view tmp) by done.
    symmetry. apply (inner_prefix_untouched
      (λ i t, fadd (read2 fzero t (j mod N) i) (read2 fzero inb i (j mod N)))).
    done. }
  unfold stale_body, fold_body. by rewrite Hload.
Qed.

(** What one outer iteration does to each cell. *)
Lemma inner_loop_cell inb j tmp r c :
  shaped N tmp → r < N → c < N →
  read2 fzero (inner_loop fadd fzero N inb j tmp) r c
  = if decide (r = j mod N)
    then fadd (read2 fzero tmp r c) (read2 fzero inb c r)
    else read2 fzero tmp r c.
Proof.
  intros Ht Hr Hc. case_decide as Hrj.
  - subst r. unfold inner_loop.
    set (body := fold_body fadd fzero N inb j).
    assert (∀ k, k ≤ N →
      shaped N (for_loop k body tmp) ∧
      read2 fzero (for_loop k body tmp) (j mod N) c
      = if decide (c < k)
        then fadd (read2 fzero tmp (j mod N) c) (read2 fzero inb c (j mod N))
        else read2 fzero tmp (j mod N) c) as Hinv.
    { induction k as [|k IH]; intros Hk.
      - split; [done|]. by rewrite decide_False by lia.
      - destruct IH as [IHs IHc]; [lia|].
        rewrite for_loop_S. split; [by apply shaped_write2|].
        subst body. unfold fold_body at 1.
        destruct (decide (c = k)) as [->|Hck].
        + rewrite (read2_write2_eq _ N) by done.
          rewrite decide_True by lia. f_equal.
          apply (inner_prefix_untouched
            (λ i t, fadd (read2 fzero t (j mod N) i) (read2 fzero inb i (j mod N)))).
          done.
        + rewrite read2_write2_ne by (right; lia).
          rewrite IHc. repeat case_decide; (done || lia). }
    destruct (Hinv N) as [_ ->]; [done|]. by rewrite decide_True.
  - apply read2_row. by apply inner_loop_row_ne.
Qed.

(** *** The outer loop in program order *)

Lemma accumulate_steps_shaped inb k tmp :
  shaped N tmp → shaped N (for_loop k (inner_loop fadd fzero N inb) tmp).
Proof.
  intros Ht. apply (for_loop_inv (λ _ t, shaped N t)); [done|].
  intros. by apply inner_loop_shaped.
Qed.

(** After [k] outer iterations, cell [(r, c)] has received one addition of
    [in_buffer[c][r]] for each [j < k] with [j mod N = r]. *)
Lemma accumulate_steps_cell inb k tmp r c :
  shaped N tmp → r < N → c < N →
  read2 fzero (for_loop k (inner_loop fadd fzero N inb) tmp) r c
  = Nat.iter (visits N k r) (λ a, fadd a (read2 fzero inb c r))
      (read2 fzero tmp r c).
Proof.
  intros Ht Hr Hc. induction k as [|k IH]; [by rewrite visits_0|].
  rewrite for_loop_S, inner_loop_cell, IH, visits_S
    by auto using accumulate_steps_shaped.
  case_decide.
  - by rewrite Nat.add_1_r.
  - by rewrite Nat.add_0_r.
Qed.

Lemma accumulate_cell inb tmp r c :
  shaped N tmp → r < N → c < N →
  read2 fzero (accumulate fadd fzero N inb tmp) r c
  = Nat.iter (N * N) (λ a, fadd a (read2 fzero inb c r)) (read2 fzero tmp r c).
Proof.
  intros. unfold accumulate.
  by rewrite accumulate_steps_cell, visits_full.
Qed.

(** *** The outer loop under [ivdep] *)

(** The row that iteration [k] works on has not changed during the [d]
    iterations before it, as long as [d < N]. *)
Lemma row_stable inb tmp k d :
  d ≤ k → d < N →
  for_loop (k - d) (inner_loop fadd fzero N inb) tmp !! (k mod N)
  = for_loop k (inner_loop fadd fzero N inb) tmp !! (k mod N).
Proof.
  induction d as [|d IH]; intros Hk Hd; [by rewrite Nat.sub_0_r|].
  rewrite <- IH by lia.
  replace (k - d) with (S (k - S d)) by lia.
  rewrite for_loop_S. symmetry. apply inner_loop_row_ne.
  intros Heq. apply (rows_apart N (k - S d) k); [lia..|done].
Qed.

Lemma load_distance_le safe_len lag j : load_distance safe_len lag j ≤ j.
Proof. unfold load_distance. lia. Qed.

Lemma load_distance_safe safe_len lag j :
  safe_len ≤ N → load_distance safe_len lag j < N.
Proof. unfold load_distance. lia. Qed.

(** As long as no load runs [N] or more iterations behind, the pipelined
    loop goes through the very states of the loop in program order. *)
Lemma pipelined_history inb safe_len lag tmp k :
  (∀ j, load_distance safe_len lag j < N) →
  for_loop k (pipelined_step fadd fzero N inb safe_len lag) [tmp]
  = (λ d, for_loop (k - d) (inner_loop fadd fzero N inb) tmp) <$> seq 0 (S k).
Proof.
  intros Hsl. induction k as [|k IH]; [done|].
  rewrite for_loop_S, IH.
  pose proof (load_distance_le safe_len lag k) as Hdk.
  pose proof (Hsl k) as HdN.
  set (d := load_distance safe_len lag k) in *.
  set (hist := (λ d0, for_loop (k - d0) (inner_loop fadd fzero N inb) tmp)
               <$> seq 0 (S k)).
  assert (hist !! d
          = Some (for_loop (k - d) (inner_loop fadd fzero N inb) tmp)) as Hview.
  { subst hist. by rewrite list_lookup_fmap, lookup_seq_lt by lia. }
  assert (hist = for_loop k (inner_loop fadd fzero N inb) tmp
                 :: ((λ d0, for_loop (k - d0) (inner_loop fadd fzero N inb) tmp)
                     <$> seq 1 k)) as Hcons.
  { subst hist. simpl. by rewrite Nat.sub_0_r. }
  unfold pipelined_step. fold d. rewrite Hcons at 1. rewrite Hview.
  simpl default.
  change (seq 0 (S (S k))) with (0 :: seq 1 (S k)).
  rewrite <- fmap_S_seq, fmap_cons, <- list_fmap_compose.
  f_equal.
  rewrite Nat.sub_0_r, for_loop_S.
  apply stale_inner_loop_fresh. by apply row_stable.
Qed.

Lemma pipelined_accumulate_in_order inb safe_len lag tmp :
  (∀ j, load_distance safe_len lag j < N) →
  pipelined_accumulate fadd fzero N inb safe_len lag tmp
  = accumulate fadd fzero N inb tmp.
Proof.
  intros. unfold pipelined_accumulate, accumulate.
  rewrite pipelined_history by done. simpl. by rewrite Nat.sub_0_r.
Qed.

Lemma pipelined_accumulate_sequential inb safe_len lag tmp :
  safe_len ≤ N →
  pipelined_accumulate fadd fzero N inb safe_len lag tmp
  = accumulate fadd fzero N inb tmp.
Proof.
  intros. apply pipelined_accumulate_in_order.
  intros. by apply load_distance_safe.
Qed.

(** *** The copy to the output *)

Lemma write_output_spec tmp out :
  length out = N * N →
  write_output fzero N tmp out
  = (λ i, read2 fzero tmp (i / N) (i mod N)) <$> seq 0 (N * N).
Proof.
  intros Hlen. unfold write_output.
  set (cell := λ i, read2 fzero tmp (i / N) (i mod N)).
  assert (length (for_loop (N * N) (write_body fzero N tmp) out) = N * N ∧
          ∀ i, i < N * N →
            for_loop (N * N) (write_body fzero N tmp) out !! i = Some (cell i))
    as [Hl Hcells].
  { apply (for_loop_inv (λ k o, length o = N * N ∧
                                 ∀ i, i < k → o !! i = Some (cell i))).
    - split; [done|]. intros; lia.
    - intros k o Hk [Hlo Ho]. unfold write_body.
      split; [by rewrite length_insert|].
      intros i Hi. destruct (decide (i = k)) as [->|Hne].
      + by rewrite list_lookup_insert_eq by lia.
      + rewrite list_lookup_insert_ne by done. apply Ho. lia. }
  apply (list_eq_same_length _ _ (N * N));
    [by rewrite length_fmap, length_seq|done|].
  intros i x y Hi Hx Hy.
  rewrite Hcells in Hx by done.
  rewrite list_lookup_fmap, lookup_seq_lt in Hy by done.
  simpl in Hy. congruence.
Qed.

Lemma concat_tabulate (g : nat → nat → F) M :
  concat ((λ r, g r <$> seq 0 N) <$> seq 0 M)
  = (λ i, g (i / N) (i mod N)) <$> seq 0 (M * N).
Proof.
  induction M as [|M IH]; [done|].
  rewrite seq_S, fmap_app, concat_app, IH. simpl.
  rewrite app_nil_r.
  replace (N + M * N) with (M * N + N) by lia.
  rewrite seq_app, fmap_app. f_equal. simpl.
  replace (seq (M * N) N) with (Nat.add (M * N) <$> seq 0 N)
    by (rewrite fmap_add_seq; f_equal; lia).
  rewrite <- list_fmap_compose.
  apply list_fmap_ext. intros i c [-> Hc]%lookup_seq. simpl.
  by rewrite flat_index_div, flat_index_mod.
Qed.

Lemma write_output_concat tmp out :
  shaped N tmp → length out = N * N →
  write_output fzero N tmp out = concat tmp.
Proof.
  intros Ht Hlen. rewrite write_output_spec by done.
  etrans; [symmetry; apply (concat_tabulate (read2 fzero tmp) N)|].
  f_equal. symmetry. by apply matrix_tabulate.
Qed.

(** *** The whole kernel *)

Lemma init_buffers_closed input (g h : nat → nat → F) :
  init_buffers fzero N input (uninit2 N g, uninit2 N h)
  = (working_of fzero N input, zero_accumulator fzero N).
Proof.
  destruct (init_buffers_spec input (uninit2 N g) (uninit2 N h))
    as (H1 & H2 & H3); [apply shaped_tabulate..|].
  destruct (init_buffers _ _ _ _) as [inb tmp]. simpl in *.
  f_equal.
  - apply (matrix_ext fzero N); [done|apply shaped_tabulate|].
    intros r c Hr Hc. unfold working_of.
    rewrite (read2_tabulate fzero N (λ r c, read1 fzero input (r * N + c)))
      by done.
    by apply H3.
  - unfold zero_accumulator.
    rewrite <- (fmap_replicate (λ _ : nat, replicate N fzero) N 0).
    apply (matrix_ext fzero N); [done| |].
    + split; [by rewrite length_fmap, length_replicate|].
      intros r row. rewrite list_lookup_fmap.
      destruct (replicate N 0 !! r); [|done].
      intros [= <-]. by rewrite length_replicate.
    + intros r c Hr Hc. destruct (H3 r c Hr Hc) as [_ ->].
      unfold read2. rewrite list_lookup_fmap, lookup_replicate_2 by done.
      simpl. by rewrite lookup_replicate_2.
Qed.

Lemma shaped_zero_accumulator : shaped N (zero_accumulator fzero N).
Proof.
  unfold zero_accumulator. split; [by rewrite length_replicate|].
  intros r row [-> _]%lookup_replicate. by rewrite length_replicate.
Qed.

Lemma read2_zero_accumulator r c :
  r < N → c < N → read2 fzero (zero_accumulator fzero N) r c = fzero.
Proof.
  intros. unfold read2, zero_accumulator.
  rewrite lookup_replicate_2 by done. simpl. by rewrite lookup_replicate_2.
Qed.

Lemma read2_working_of input r c :
  r < N → c < N →
  read2 fzero (working_of fzero N input) r c = read1 fzero input (r * N + c).
Proof.
  intros. unfold working_of.
  by rewrite (read2_tabulate fzero N (λ r c, read1 fzero input (r * N + c))).
Qed.

(** The kernel in program order computes what the three steps of the
    specification describe. *)
Lemma KernelCompute_spec_kernel lc input out :
  length out = N * N →
  KernelCompute fadd fzero N lc input out = spec_kernel fadd fzero N input.
Proof.
  intros Hlen. unfold KernelCompute. rewrite init_buffers_closed. simpl.
  rewrite write_output_concat; [done| |done].
  apply accumulate_steps_shaped, shaped_zero_accumulator.
Qed.

(** Under [ivdep(safe_len)] with [safe_len ≤ N] the device computes what
    the program order computes. *)
Lemma KernelCompute_ivdep_sequential safe_len lag lc input out :
  safe_len ≤ N →
  KernelCompute_ivdep fadd fzero N safe_len lag lc input out
  = KernelCompute fadd fzero N lc input out.
Proof.
  intros. unfold KernelCompute_ivdep, KernelCompute.
  by rewrite pipelined_accumulate_sequential.
Qed.

(** The whole output: cell [i] is [N * N] additions of the input element
    at the transposed position. *)
Lemma KernelCompute_closed lc input out :
  length out = N * N →
  KernelCompute fadd fzero N lc input out
  = (λ i, Nat.iter (N * N)
            (λ a, fadd a (read1 fzero input (i mod N * N + i / N))) fzero)
    <$> seq 0 (N * N).
Proof.
  intros Hlen. unfold KernelCompute.
  rewrite init_buffers_closed. simpl.
  rewrite write_output_spec by done.
  apply list_fmap_ext. intros i x [-> Hi]%lookup_seq. simpl.
  destruct (flat_index_split N i N_pos) as [_ Hc].
  pose proof (flat_index_row N i N_pos Hi) as Hr.
  rewrite accumulate_cell by (done || apply shaped_zero_accumulator).
  by rewrite read2_zero_accumulator, read2_working_of.
Qed.

(** Every output cell is [N * N] additions of one input element. *)
Lemma KernelCompute_cell lc input out r c :
  length out = N * N → r < N → c < N →
  KernelCompute fadd fzero N lc input out !! (r * N + c)
  = Some (Nat.iter (N * N) (λ a, fadd a (read1 fzero input (c * N + r))) fzero).
Proof.
  intros Hlen Hr Hc. unfold KernelCompute.
  rewrite init_buffers_closed. simpl.
  rewrite write_output_spec by done.
  rewrite list_lookup_fmap, lookup_seq_lt by nia. simpl.
  rewrite flat_index_div, flat_index_mod by done.
  rewrite accumulate_cell by (done || apply shaped_zero_accumulator).
  by rewrite read2_zero_accumulator, read2_working_of.
Qed.

Lemma KernelCompute_ivdep_in_order safe_len lag lc input out :
  (∀ j, lag j = 0) →
  KernelCompute_ivdep fadd fzero N safe_len lag lc input out
  = KernelCompute fadd fzero N lc input out.
Proof.
  intros Hlag. unfold KernelCompute_ivdep, KernelCompute.
  rewrite pipelined_accumulate_in_order; [done|].
  intros j. unfold load_distance. rewrite Hlag. lia.
Qed.

Lemma KernelCompute_ivdep_length safe_len lag lc input out :
  length out = N * N →
  length (KernelCompute_ivdep fadd fzero N safe_len lag lc input out) = N * N.
Proof.
  intros Hlen. unfold KernelCompute_ivdep.
  rewrite write_output_spec by done. by rewrite length_fmap, length_seq.
Qed.

Lemma KernelCompute_length lc input out :
  length out = N * N →
  length (KernelCompute fadd fzero N lc input out) = N * N.
Proof.
  intros Hlen. unfold KernelCompute. rewrite init_buffers_closed. simpl.
  rewrite write_output_spec by done. by rewrite length_fmap, length_seq.
Qed.

End KernelFacts.

(** ** The program: kernel calls *)

Lemma kRowLength_pos : 0 < kRowLength.
Proof. unfold kRowLength. lia. Qed.

Lemma TransposeAndFold_in_order safe_len run input out :
  sycl_exception run = false → safe_len ≤ kRowLength →
  TransposeAndFold safe_len run input out
  = Completed (KernelCompute float_add float_zero kRowLength
                 (kernel_locals run) input out).
Proof.
  intros Hexc Hsl. unfold TransposeAndFold. rewrite Hexc.
  rewrite (KernelCompute_ivdep_sequential float_add float_zero kRowLength
             kRowLength_pos) by exact Hsl.
  reflexivity.
Qed.

Lemma TransposeAndFold_spec_kernel safe_len run input out :
  sycl_exception run = false → safe_len ≤ kRowLength →
  length out = kMatrixSize →
  TransposeAndFold safe_len run input out
  = Completed (spec_kernel float_add float_zero kRowLength input).
Proof.
  intros Hexc Hsl Hlen. rewrite TransposeAndFold_in_order by assumption.
  rewrite (KernelCompute_spec_kernel float_add float_zero kRowLength
             kRowLength_pos) by exact Hlen.
  reflexivity.
Qed.

(** C1.  For every input matrix, the output of [TransposeAndFold] is the same
    for every two values of [safe_len] between 1 and [kRowLength], whatever
    the device does with the freedom that [ivdep] gives it; in particular
    for [safe_len = 1] and [safe_len = kRowLength]. *)
Theorem safe_len_equivalence safe_len1 safe_len2 run1 run2 input out1 out2 :
  1 ≤ safe_len1 ≤ kRowLength → 1 ≤ safe_len2 ≤ kRowLength →
  sycl_exception run1 = false → sycl_exception run2 = false →
  length out1 = kMatrixSize → length out2 = kMatrixSize →
  ∃ output,
    TransposeAndFold safe_len1 run1 input out1 = Completed output ∧
    TransposeAndFold safe_len2 run2 input out2 = Completed output ∧
    length output = kMatrixSize.
Proof.
  intros [_ H1] [_ H2] He1 He2 Hl1 Hl2.
  exists (spec_kernel float_add float_zero kRowLength input).
  split_and!; [apply TransposeAndFold_spec_kernel; assumption..|].
  rewrite <- (KernelCompute_spec_kernel float_add float_zero kRowLength
                kRowLength_pos (kernel_locals run1) input out1 Hl1).
  apply (KernelCompute_length float_add float_zero kRowLength kRowLength_pos).
  exact Hl1.
Qed.

Lemma safe_len_equivalence_witness :
  ∃ output,
    TransposeAndFold kMinSafelen in_order_run unit_matrix zero_matrix
      = Completed output ∧
    TransposeAndFold kMaxSafelen eager_run unit_matrix nan_matrix
      = Completed output ∧
    length output = kMatrixSize.
Proof.
  apply safe_len_equivalence.
  - unfold kMinSafelen, kRowLength. lia.
  - unfold kMaxSafelen, kRowLength. lia.
  - reflexivity.
  - reflexivity.
  - vm_compute. reflexivity.
  - vm_compute. reflexivity.
Defined.

(** C8.  Two calls of [TransposeAndFold] with the same input and the same
    [safe_len] return the same output: neither the schedule the device
    picks, nor what the local arrays held, nor what the output array held
    before the call has any influence. *)
Theorem TransposeAndFold_deterministic safe_len run1 run2 input out1 out2 :
  1 ≤ safe_len ≤ kRowLength →
  sycl_exception run1 = false → sycl_exception run2 = false →
  length out1 = kMatrixSize → length out2 = kMatrixSize →
  TransposeAndFold safe_len run1 input out1
  = TransposeAndFold safe_len run2 input out2.
Proof.
  intros [_ Hsl] He1 He2 Hl1 Hl2.
  rewrite !TransposeAndFold_spec_kernel by assumption. reflexivity.
Qed.

Lemma TransposeAndFold_deterministic_witness :
  TransposeAndFold 64 in_order_run unit_matrix zero_matrix
  = TransposeAndFold 64 eager_run unit_matrix nan_matrix.
Proof.
  apply TransposeAndFold_deterministic.
  - unfold kRowLength. lia.
  - reflexivity.
  - reflexivity.
  - vm_compute. reflexivity.
  - vm_compute. reflexivity.
Defined.

(** C4.  The kernel performs the steps of section 4.1: a working buffer
    holding the row-major input and an all-zero accumulator, then for [j]
    from 0 to [N * N * N] and [i] from 0 to [N] the update
    [accumulator[j mod N][i] += working[i][j mod N]], then the accumulator
    copied as it is into the output. *)
Theorem kernel_performs_spec_steps safe_len run input out :
  1 ≤ safe_len ≤ kRowLength →
  sycl_exception run = false →
  length out = kMatrixSize →
  KernelCompute float_add float_zero kRowLength (kernel_locals run) input out
    = spec_kernel float_add float_zero kRowLength input ∧
  TransposeAndFold safe_len run input out
    = Completed (spec_kernel float_add float_zero kRowLength input).
Proof.
  intros [_ Hsl] He Hl. split.
  - apply KernelCompute_spec_kernel; [exact kRowLength_pos|exact Hl].
  - apply TransposeAndFold_spec_kernel; assumption.
Qed.

Lemma kernel_performs_spec_steps_witness :
  KernelCompute float_add float_zero kRowLength (kernel_locals eager_run)
      unit_matrix nan_matrix
    = spec_kernel float_add float_zero kRowLength unit_matrix ∧
  TransposeAndFold kMaxSafelen eager_run unit_matrix nan_matrix
    = Completed (spec_kernel float_add float_zero kRowLength unit_matrix).
Proof.
  apply kernel_performs_spec_steps.
  - unfold kMaxSafelen, kRowLength. lia.
  - reflexivity.
  - vm_compute. reflexivity.
Defined.

Lemma TransposeAndFold_closed safe_len run input out :
  sycl_exception run = false → safe_len ≤ kRowLength →
  length out = kMatrixSize →
  TransposeAndFold safe_len run input out
  = Completed
      ((λ i, Nat.iter (kRowLength * kRowLength)
               (λ a, float_add a
                       (read1 float_zero input
                          (i mod kRowLength * kRowLength + i / kRowLength)))
               float_zero)
       <$> seq 0 (kRowLength * kRowLength)).
Proof.
  intros Hexc Hsl Hlen. rewrite TransposeAndFold_in_order by assumption.
  rewrite (KernelCompute_closed float_add float_zero kRowLength kRowLength_pos)
    by exact Hlen.
  reflexivity.
Qed.

Lemma TransposeAndFold_cell safe_len run input out r c :
  sycl_exception run = false → safe_len ≤ kRowLength →
  length out = kMatrixSize → r < kRowLength → c < kRowLength →
  ∃ output,
    TransposeAndFold safe_len run input out = Completed output ∧
    output !! (r * kRowLength + c)
    = Some (Nat.iter (kRowLength * kRowLength)
              (λ a, float_add a (read1 float_zero input (c * kRowLength + r)))
              float_zero).
Proof.
  intros Hexc Hsl Hlen Hr Hc. eexists. split.
  - apply TransposeAndFold_in_order; assumption.
  - apply (KernelCompute_cell float_add float_zero kRowLength kRowLength_pos);
      assumption.
Qed.

(** Adding the same number again and again, in exact arithmetic. *)
Lemma iter_add_Z n (x : Z) :
  Nat.iter n (λ a, (a + x)%Z) 0%Z = (Z.of_nat n * x)%Z.
Proof.
  induction n as [|n IH]; [done|].
  rewrite Nat.iter_succ, IH. lia.
Qed.

(** ** Sample values *)

Lemma unit_matrix_first :
  read1 float_zero unit_matrix 0 = float_one.
Proof. reflexivity. Qed.

Lemma unit_matrix_rest i :
  0 < i → read1 float_zero unit_matrix i = float_zero.
Proof.
  intros Hi. unfold read1, unit_matrix, zero_matrix.
  rewrite list_lookup_insert_ne by lia.
  destruct (decide (i < kMatrixSize)) as [Hlt|Hge].
  - rewrite lookup_replicate_2 by exact Hlt. reflexivity.
  - rewrite (proj1 (lookup_replicate_None _ _ _)) by lia. reflexivity.
Qed.

Lemma sum_of_ones :
  Nat.iter (kRowLength * kRowLength) (λ a, float_add a float_one) float_zero
  = float_of_int 16384.
Proof. vm_compute. reflexivity. Qed.

Lemma sum_of_zeros (x : float) :
  SFeqb x float_zero = true →
  Nat.iter (kRowLength * kRowLength) (λ a, float_add a x) float_zero
  = float_zero.
Proof.
  intros Hx.
  assert (float_add float_zero x = float_zero) as Hadd.
  { destruct x as [[|]|[|]| |[|] m e]; try discriminate Hx; reflexivity. }
  generalize (kRowLength * kRowLength). intros n.
  induction n as [|n IH]; [reflexivity|].
  rewrite Nat.iter_succ, IH. exact Hadd.
Qed.

(** What the kernel makes of [unit_matrix]: 16384 in the first cell of the
    first row, zero next to it. *)
Lemma unit_matrix_run :
  ∃ output,
    TransposeAndFold kMinSafelen in_order_run unit_matrix zero_matrix
      = Completed output ∧
    output !! (0 * kRowLength + 0) = Some (float_of_int 16384) ∧
    output !! (0 * kRowLength + 1) = Some float_zero.
Proof.
  eexists. split; [|split].
  - apply TransposeAndFold_in_order; [reflexivity|].
    unfold kMinSafelen, kRowLength. lia.
  - rewrite (KernelCompute_cell float_add float_zero kRowLength kRowLength_pos);
      [|vm_compute; reflexivity|unfold kRowLength; lia..].
    change (0 * kRowLength + 0) with 0.
    rewrite unit_matrix_first, sum_of_ones. reflexivity.
  - rewrite (KernelCompute_cell float_add float_zero kRowLength kRowLength_pos);
      [|vm_compute; reflexivity|unfold kRowLength; lia..].
    rewrite unit_matrix_rest by (unfold kRowLength; lia).
    rewrite sum_of_zeros by reflexivity. reflexivity.
Qed.

(** C3.  Every output cell [(r, c)] holds the left fold that starts from
    [0.0f] and adds [Input[c * N + r]] exactly [N * N = 16384] times, one
    addition for each outer iteration [j] with [j mod N = r]; in exact
    arithmetic that is [N * N] times the transposed input element; and the
    value depends on the column [c], not on the row alone. *)
Theorem output_cell_is_repeated_addition :
  (∀ safe_len run input out r c,
     1 ≤ safe_len ≤ kRowLength → sycl_exception run = false →
     length out = kMatrixSize → r < kRowLength → c < kRowLength →
     ∃ output,
       TransposeAndFold safe_len run input out = Completed output ∧
       output !! (r * kRowLength + c)
       = Some (Nat.iter (kRowLength * kRowLength)
                 (λ a, float_add a (read1 float_zero input (c * kRowLength + r)))
                 float_zero)) ∧
  Z.of_nat (kRowLength * kRowLength) = 16384%Z ∧
  (∀ r, r < kRowLength →
     length (filter (λ j, j mod kRowLength = r)
               (seq 0 (kMatrixSize * kRowLength)))
     = kRowLength * kRowLength) ∧
  (∀ lc (input out : list Z) r c,
     length out = kMatrixSize → r < kRowLength → c < kRowLength →
     KernelCompute Z.add 0%Z kRowLength lc input out !! (r * kRowLength + c)
     = Some (Z.of_nat (kRowLength * kRowLength)
             * read1 0%Z input (c * kRowLength + r))%Z) ∧
  (∃ output,
     TransposeAndFold kMinSafelen in_order_run unit_matrix zero_matrix
       = Completed output ∧
     output !! (0 * kRowLength + 0) = Some (float_of_int 16384) ∧
     output !! (0 * kRowLength + 1) = Some float_zero).
Proof.
  split_and!.
  - intros safe_len run input out r c [_ Hsl] Hexc Hlen Hr Hc.
    apply TransposeAndFold_cell; assumption.
  - vm_compute. reflexivity.
  - intros r Hr. rewrite <- visits_count by exact Hr.
    apply visits_full. exact Hr.
  - intros lc input out r c Hlen Hr Hc.
    rewrite (KernelCompute_cell Z.add 0%Z kRowLength kRowLength_pos)
      by assumption.
    rewrite iter_add_Z. reflexivity.
  - exact unit_matrix_run.
Qed.

Lemma output_cell_is_repeated_addition_witness :
  ∃ output,
    TransposeAndFold kMaxSafelen eager_run unit_matrix nan_matrix
      = Completed output ∧
    output !! (3 * kRowLength + 5)
    = Some (Nat.iter (kRowLength * kRowLength)
              (λ a, float_add a (read1 float_zero unit_matrix (5 * kRowLength + 3)))
              float_zero).
Proof.
  apply (proj1 output_cell_is_repeated_addition).
  - unfold kMaxSafelen, kRowLength. lia.
  - reflexivity.
  - vm_compute. reflexivity.
  - unfold kRowLength. lia.
  - unfold kRowLength. lia.
Defined.

(** C7.  For every [safe_len] between 1 and [kRowLength], an input matrix
    all of whose elements are [0.0] gives an output matrix all of whose
    elements are [0.0]. *)
Theorem zero_input_zero_output safe_len run input out :
  1 ≤ safe_len ≤ kRowLength →
  sycl_exception run = false →
  length out = kMatrixSize →
  (∀ i, i < kMatrixSize → SFeqb (read1 float_zero input i) float_zero = true) →
  TransposeAndFold safe_len run input out = Completed zero_matrix.
Proof.
  intros [_ Hsl] Hexc Hlen Hzero.
  rewrite TransposeAndFold_closed by assumption. f_equal.
  unfold zero_matrix, kMatrixSize.
  etrans; [apply (const_fmap _ _ float_zero)|rewrite length_seq; reflexivity].
  intros k i [-> Hi]%lookup_seq.
  apply sum_of_zeros. apply Hzero.
  change (0 + k) with k.
  pose proof (flat_index_split kRowLength k kRowLength_pos) as [_ Hc].
  pose proof (flat_index_row kRowLength k kRowLength_pos Hi) as Hr.
  unfold kMatrixSize. nia.
Qed.

Lemma zero_input_zero_output_witness :
  TransposeAndFold kMaxSafelen eager_run zero_matrix nan_matrix
  = Completed zero_matrix.
Proof.
  apply zero_input_zero_output.
  - unfold kMaxSafelen, kRowLength. lia.
  - reflexivity.
  - vm_compute. reflexivity.
  - intros i Hi. unfold read1, zero_matrix.
    rewrite lookup_replicate_2 by exact Hi. reflexivity.
Defined.

(** ** The transpose-sum reading *)

Lemma column_sum_unit_matrix :
  column_sum float_add float_zero kRowLength unit_matrix 0 = float_one.
Proof. vm_compute. reflexivity. Qed.

Lemma kernel_example_2x2 lc out :
  length out = 4 →
  KernelCompute float_add float_zero 2 lc example_2x2 out
  = [float_of_int 4; float_of_int 12; float_of_int 8; float_of_int 16].
Proof.
  intros Hlen.
  rewrite (KernelCompute_closed float_add float_zero 2) by (lia || exact Hlen).
  vm_compute. reflexivity.
Qed.

Lemma transpose_sum_example_2x2 :
  spec_transpose_sum float_add float_zero 2 example_2x2
  = [float_of_int 4; float_of_int 4; float_of_int 6; float_of_int 6].
Proof. vm_compute. reflexivity. Qed.

(** C2, as stated, fails.  On [unit_matrix] the first output cell is 16384
    while the first column sums to 1, and the first output row is not
    constant; on the 2 x 2 example the kernel returns [[4,12],[8,16]], not
    [[4,4],[6,6]]. *)
Lemma transpose_sum_counterexample :
  (∃ output,
     TransposeAndFold kMinSafelen in_order_run unit_matrix zero_matrix
       = Completed output ∧
     output !! (0 * kRowLength + 0)
       ≠ Some (column_sum float_add float_zero kRowLength unit_matrix 0) ∧
     output !! (0 * kRowLength + 0) ≠ output !! (0 * kRowLength + 1)) ∧
  KernelCompute float_add float_zero 2 (kernel_locals in_order_run)
    example_2x2 (replicate 4 float_zero)
  ≠ [float_of_int 4; float_of_int 4; float_of_int 6; float_of_int 6].
Proof.
  split.
  - destruct unit_matrix_run as (output & Hrun & H00 & H01).
    exists output. split; [exact Hrun|]. split.
    + rewrite H00, column_sum_unit_matrix. vm_compute. discriminate.
    + rewrite H00, H01. vm_compute. discriminate.
  - rewrite kernel_example_2x2 by reflexivity. vm_compute. discriminate.
Qed.

(** C2, amended.  The output is the transposed input with every element
    added to [0.0f] [N * N] times: cell [(r, c)] is the [N * N]-fold sum of
    [Input[c][r]].  On the 2 x 2 example that is [[4,12],[8,16]]. *)
Theorem output_is_transposed_input_scaled safe_len run input out :
  1 ≤ safe_len ≤ kRowLength →
  sycl_exception run = false →
  length out = kMatrixSize →
  TransposeAndFold safe_len run input out
  = Completed
      ((λ i, Nat.iter (kRowLength * kRowLength)
               (λ a, float_add a
                       (read1 float_zero input
                          (i mod kRowLength * kRowLength + i / kRowLength)))
               float_zero)
       <$> seq 0 (kRowLength * kRowLength)) ∧
  KernelCompute float_add float_zero 2 (kernel_locals run) example_2x2
    (replicate 4 float_zero)
  = [float_of_int 4; float_of_int 12; float_of_int 8; float_of_int 16].
Proof.
  intros [_ Hsl] Hexc Hlen. split.
  - apply TransposeAndFold_closed; assumption.
  - apply kernel_example_2x2. reflexivity.
Qed.

Lemma output_is_transposed_input_scaled_witness :
  TransposeAndFold kMinSafelen in_order_run unit_matrix zero_matrix
  = Completed
      ((λ i, Nat.iter (kRowLength * kRowLength)
               (λ a, float_add a
                       (read1 float_zero unit_matrix
                          (i mod kRowLength * kRowLength + i / kRowLength)))
               float_zero)
       <$> seq 0 (kRowLength * kRowLength)) ∧
  KernelCompute float_add float_zero 2 (kernel_locals in_order_run) example_2x2
    (replicate 4 float_zero)
  = [float_of_int 4; float_of_int 12; float_of_int 8; float_of_int 16].
Proof.
  apply output_is_transposed_input_scaled.
  - unfold kMinSafelen, kRowLength. lia.
  - reflexivity.
  - vm_compute. reflexivity.
Defined.

(** ** An out-of-range [safe_len] *)

Lemma TransposeAndFold_length safe_len run input out :
  sycl_exception run = false → length out = kMatrixSize →
  ∃ output,
    TransposeAndFold safe_len run input out = Completed output ∧
    length output = kMatrixSize.
Proof.
  intros Hexc Hlen. unfold TransposeAndFold. rewrite Hexc.
  eexists. split; [reflexivity|].
  apply (KernelCompute_ivdep_length float_add float_zero kRowLength
             kRowLength_pos).
  exact Hlen.
Qed.

Lemma hazard_example_2x2 :
  KernelCompute_ivdep float_add float_zero 2 3 (λ j, j)
    (kernel_locals in_order_run) example_2x2 (replicate 4 float_zero)
  = [float_of_int 2; float_of_int 6; float_of_int 4; float_of_int 8].
Proof. vm_compute. reflexivity. Qed.

(** C6, as stated, fails.  Nothing in the source looks at [safe_len]: the
    instantiation with [safe_len = 129 > kRowLength] runs and fills the
    whole output matrix. *)
Lemma oversized_safe_len_counterexample :
  kRowLength < 129 ∧
  ∃ output,
    TransposeAndFold 129 in_order_run unit_matrix zero_matrix
      = Completed output ∧
    length output = kMatrixSize.
Proof.
  split; [unfold kRowLength; lia|].
  apply TransposeAndFold_length; [reflexivity|].
  vm_compute. reflexivity.
Qed.

(** C6, amended.  The source does not check [safe_len] against the row
    length: a call with [safe_len > kRowLength] that raises nothing runs the
    kernel and fills the whole output matrix, and when the device keeps the
    loads in program order the output is the one of the in-range calls; the
    2 x 2 kernel with [safe_len = 3] shows that the output can then differ
    ([[2,6],[4,8]] instead of [[4,12],[8,16]]).  The two instantiations that
    [main] makes are in range. *)
Theorem safe_len_is_not_checked safe_len run input out :
  kRowLength < safe_len →
  sycl_exception run = false →
  length out = kMatrixSize →
  (∃ output,
     TransposeAndFold safe_len run input out = Completed output ∧
     length output = kMatrixSize ∧
     ((∀ j, lag run j = 0) →
      output = KernelCompute float_add float_zero kRowLength
                 (kernel_locals run) input out)) ∧
  KernelCompute_ivdep float_add float_zero 2 3 (λ j, j)
    (kernel_locals in_order_run) example_2x2 (replicate 4 float_zero)
  = [float_of_int 2; float_of_int 6; float_of_int 4; float_of_int 8] ∧
  (1 ≤ kMinSafelen ≤ kRowLength ∧ 1 ≤ kMaxSafelen ≤ kRowLength).
Proof.
  intros Hsl Hexc Hlen. split_and!.
  - unfold TransposeAndFold. rewrite Hexc. eexists. split_and!.
    + reflexivity.
    + apply (KernelCompute_ivdep_length float_add float_zero kRowLength
             kRowLength_pos).
      exact Hlen.
    + intros Hlag.
      apply (KernelCompute_ivdep_in_order float_add float_zero kRowLength
               kRowLength_pos).
      exact Hlag.
  - exact hazard_example_2x2.
  - unfold kMinSafelen, kRowLength. lia.
  - unfold kMinSafelen, kRowLength. lia.
  - unfold kMaxSafelen, kRowLength. lia.
  - unfold kMaxSafelen. lia.
Qed.

Lemma safe_len_is_not_checked_witness :
  (∃ output,
     TransposeAndFold 129 in_order_run unit_matrix zero_matrix
       = Completed output ∧
     length output = kMatrixSize ∧
     ((∀ j, lag in_order_run j = 0) →
      output = KernelCompute float_add float_zero kRowLength
                 (kernel_locals in_order_run) unit_matrix zero_matrix)) ∧
  KernelCompute_ivdep float_add float_zero 2 3 (λ j, j)
    (kernel_locals in_order_run) example_2x2 (replicate 4 float_zero)
  = [float_of_int 2; float_of_int 6; float_of_int 4; float_of_int 8] ∧
  (1 ≤ kMinSafelen ≤ kRowLength ∧ 1 ≤ kMaxSafelen ≤ kRowLength).
Proof.
  apply safe_len_is_not_checked.
  - unfold kRowLength. lia.
  - reflexivity.
  - vm_compute. reflexivity.
Defined.

(** ** The verification loop *)

Section Verify.
Variables B C : list float.

Local Abbreviation same := (same_at B C).
Local Abbreviation differ := (differ_at B C).

Lemma same_or_differ i : same i ∨ differ i.
Proof.
  unfold same_at, differ_at, float_ne.
  destruct (SFeqb _ _); [by left|by right].
Qed.

Lemma same_not_differ i : same i → differ i → False.
Proof.
  unfold same_at, differ_at, float_ne. intros ->. discriminate.
Qed.

(** After [k] iterations the loop either has met no mismatch, or has
    returned at the first one. *)
Lemma verify_steps k :
  match for_loop k (verify_body B C) None with
  | None => ∀ i, i < k → same i
  | Some i => i < k ∧ differ i ∧ ∀ j, j < i → same j
  end.
Proof.
  induction k as [|k IH]; [simpl; intros; lia|].
  rewrite for_loop_S.
  destruct (for_loop k (verify_body B C) None) as [i|]; simpl.
  - destruct IH as (Hi & Hd & Hs). split_and!; [lia|done..].
  - destruct (float_ne _ _) eqn:Hne.
    + split_and!; [lia|done..].
    + intros i Hi. destruct (decide (i = k)) as [->|]; [|apply IH; lia].
      unfold same_at. unfold float_ne in Hne.
      by destruct (SFeqb _ _).
Qed.

Lemma verify_None :
  verify B C = None ↔ ∀ i, i < kMatrixSize → same i.
Proof.
  unfold verify. pose proof (verify_steps kMatrixSize) as H.
  destruct (for_loop kMatrixSize (verify_body B C) None) as [i|].
  - destruct H as (Hi & Hd & _). split; [discriminate|].
    intros Hall. destruct (same_not_differ i); auto.
  - split; [intros _; exact H|reflexivity].
Qed.

Lemma verify_Some i :
  verify B C = Some i ↔
  i < kMatrixSize ∧ differ i ∧ ∀ j, j < i → same j.
Proof.
  unfold verify. pose proof (verify_steps kMatrixSize) as H.
  destruct (for_loop kMatrixSize (verify_body B C) None) as [i'|].
  - destruct H as (Hi & Hd & Hs). split.
    + intros [= <-]. auto.
    + intros (Hi' & Hd' & Hs'). f_equal.
      destruct (Nat.lt_trichotomy i' i) as [Hlt|[->|Hgt]]; [|reflexivity|].
      * destruct (same_not_differ i'); auto.
      * destruct (same_not_differ i); auto.
  - split; [discriminate|].
    intros (Hi' & Hd' & _). destruct (same_not_differ i); auto.
Qed.

End Verify.

(** The comparison is the one of IEEE 754: a NaN differs from itself, and
    the two zeros are equal. *)
Example float_ne_nan : float_ne S754_nan S754_nan = true.
Proof. reflexivity. Qed.

Example float_ne_signed_zeros :
  float_ne (S754_zero false) (S754_zero true) = false.
Proof. reflexivity. Qed.

Example verify_first_mismatch : verify unit_matrix zero_matrix = Some 0.
Proof. vm_compute. reflexivity. Qed.

Example verify_nan_mismatch : verify nan_matrix nan_matrix = Some 0.
Proof. vm_compute. reflexivity. Qed.

Lemma main_cases env :
  main env =
  if sycl_exception (run_min env) then Abort
  else if sycl_exception (run_max env) then Abort
  else verdict_of (verify (B_of env) (C_of env)).
Proof.
  unfold main, TransposeAndFold, B_of, C_of, kernel_output.
  destruct (sycl_exception (run_min env)); [reflexivity|].
  destruct (sycl_exception (run_max env)); reflexivity.
Qed.

Lemma verdict_cases (exc1 exc2 : bool) (v : option nat) :
  let out := if exc1 then Abort else if exc2 then Abort else verdict_of v in
  (out = Exit 0 PASSED ↔ exc1 = false ∧ exc2 = false ∧ v = None) ∧
  (out = Exit 1 FAILED ↔ exc1 = false ∧ exc2 = false ∧ ∃ i, v = Some i) ∧
  (out = Abort ↔ exc1 = true ∨ exc2 = true) ∧
  (∀ status verdict, out = Exit status verdict →
     (status = 0%Z ∧ verdict = PASSED) ∨ (status = 1%Z ∧ verdict = FAILED)).
Proof.
  destruct exc1, exc2, v as [i|]; simpl; split_and!;
    try (split; [discriminate|intros (? & ? & ?); discriminate]);
    try (split; [auto|reflexivity]);
    try (intros ? ? ?; discriminate);
    try (split; [discriminate|intros [?|?]; discriminate]).
  - intros _. split_and!; [reflexivity..|]. eauto.
  - intros status verdict [= <- <-]. right. split; reflexivity.
  - split; [discriminate|]. intros (_ & _ & i & ?). discriminate.
  - intros status verdict [= <- <-]. left. split; reflexivity.
Qed.

(** ** Facts about binary32 arithmetic *)

Section FloatFacts.
Local Open Scope Z_scope.

Lemma fexp32_eq k : fexp float_prec float_emax k = fexp32 k.
Proof. reflexivity. Qed.

(** *** Digits *)

Lemma digits2_pos_bounds p :
  2 ^ (Zpos (digits2_pos p) - 1) ≤ Zpos p < 2 ^ Zpos (digits2_pos p).
Proof.
  induction p as [p IH|p IH|]; simpl digits2_pos.
  - rewrite Pos2Z.inj_succ.
    replace (Z.succ (Zpos (digits2_pos p)) - 1) with (Z.succ (Zpos (digits2_pos p) - 1)) by lia.
    rewrite !Z.pow_succ_r by lia. lia.
  - rewrite Pos2Z.inj_succ.
    replace (Z.succ (Zpos (digits2_pos p)) - 1) with (Z.succ (Zpos (digits2_pos p) - 1)) by lia.
    rewrite !Z.pow_succ_r by lia. lia.
  - simpl. lia.
Qed.

Lemma Zdigits2_bounds m :
  0 < m → 2 ^ (Zdigits2 m - 1) ≤ m < 2 ^ Zdigits2 m.
Proof. destruct m as [|p|p]; try lia. intros _. apply digits2_pos_bounds. Qed.

Lemma Zdigits2_pos m : 0 < m → 0 < Zdigits2 m.
Proof. destruct m; simpl; lia. Qed.

Lemma Zdigits2_0 : Zdigits2 0 = 0.
Proof. reflexivity. Qed.

Lemma Zdigits2_unique m d :
  2 ^ (d - 1) ≤ m < 2 ^ d → 0 < m → Zdigits2 m = d.
Proof.
  intros [Hlo Hhi] Hm.
  destruct (Zdigits2_bounds m Hm) as [Hlo' Hhi'].
  pose proof (Zdigits2_pos m Hm) as Hd.
  assert (0 < d).
  { destruct (Z.lt_trichotomy 0 d) as [?|[<-|?]]; [done| |].
    - simpl in Hhi. lia.
    - rewrite Z.pow_neg_r in Hhi by lia. lia. }
  destruct (Z.lt_trichotomy (Zdigits2 m) d) as [Hlt|[?|Hgt]]; [|done|].
  - assert (2 ^ Zdigits2 m ≤ 2 ^ (d - 1)) by (apply Z.pow_le_mono_r; lia). lia.
  - assert (2 ^ d ≤ 2 ^ (Zdigits2 m - 1)) by (apply Z.pow_le_mono_r; lia). lia.
Qed.

(** A number below [2 ^ k] has at most [k] digits. *)
Lemma Zdigits2_le m k : 0 ≤ m → 0 ≤ k → m < 2 ^ k → Zdigits2 m ≤ k.
Proof.
  intros Hm Hk Hlt. destruct (decide (m = 0)) as [->|]; [simpl; lia|].
  destruct (Zdigits2_bounds m) as [Hlo _]; [lia|].
  destruct (decide (Zdigits2 m ≤ k)); [done|].
  assert (2 ^ k ≤ 2 ^ (Zdigits2 m - 1)) by (apply Z.pow_le_mono_r; lia). lia.
Qed.

Lemma Zdigits2_ge m k : 0 ≤ k → 2 ^ k ≤ m → k < Zdigits2 m.
Proof.
  intros Hk Hge. assert (0 < m) by (pose proof (Z.pow_pos_nonneg 2 k); lia).
  destruct (Zdigits2_bounds m) as [_ Hhi]; [lia|].
  destruct (decide (k < Zdigits2 m)); [done|].
  assert (2 ^ Zdigits2 m ≤ 2 ^ k) by (apply Z.pow_le_mono_r; lia). lia.
Qed.

(** *** Shifting right *)

Lemma iter_pos_nat {A} (f : A → A) p x :
  SpecFloat.iter_pos f p x = Nat.iter (Pos.to_nat p) f x.
Proof.
  revert x. induction p as [p IH|p IH|]; intros x; simpl SpecFloat.iter_pos.
  - rewrite !IH, Pos2Nat.inj_xI, <- Nat.iter_add, <- Nat.iter_succ_r.
    f_equal. lia.
  - rewrite !IH, Pos2Nat.inj_xO, <- Nat.iter_add. f_equal. lia.
  - reflexivity.
Qed.

Lemma shr_1_nonneg m r s :
  0 ≤ m →
  shr_1 {| shr_m := m; shr_r := r; shr_s := s |}
  = {| shr_m := m / 2; shr_r := Z.odd m; shr_s := r || s |}.
Proof.
  intros Hm. rewrite <- Z.div2_div.
  destruct m as [|[p|p|]|p]; try lia; reflexivity.
Qed.

Lemma mod_pow2_succ m k :
  0 ≤ k →
  m mod 2 ^ (k + 1) = m mod 2 ^ k + 2 ^ k * Z.b2z (Z.testbit m k).
Proof.
  intros Hk. rewrite Z.pow_add_r, Z.pow_1_r by lia.
  rewrite Z.rem_mul_r by (pose proof (Z.pow_pos_nonneg 2 k); lia).
  by rewrite Z.testbit_spec' by lia.
Qed.

Lemma shr_iter m r s (k : nat) :
  0 ≤ m →
  Nat.iter (S k) shr_1 {| shr_m := m; shr_r := r; shr_s := s |}
  = {| shr_m := m / 2 ^ Z.of_nat (S k);
       shr_r := Z.testbit m (Z.of_nat k);
       shr_s := r || s || negb (m mod 2 ^ Z.of_nat k =? 0) |}.
Proof.
  intros Hm. induction k as [|k IH].
  - rewrite Nat.iter_succ. change (Nat.iter 0 shr_1 ?x) with x.
    rewrite shr_1_nonneg by done.
    change (Z.of_nat 0) with 0. change (Z.of_nat 1) with 1.
    rewrite Z.pow_1_r, Z.bit0_odd, Z.pow_0_r, Z.mod_1_r. simpl.
    by rewrite orb_false_r.
  - rewrite Nat.iter_succ, IH.
    rewrite shr_1_nonneg by (apply Z.div_pos; [done|apply Z.pow_pos_nonneg; lia]).
    f_equal.
    + rewrite Z.div_div by (try apply Z.pow_pos_nonneg; lia).
      f_equal. rewrite (Nat2Z.inj_succ (S k)), Z.pow_succ_r by lia. lia.
    + by rewrite Z.testbit_odd, Z.shiftr_div_pow2 by lia.
    + rewrite (Nat2Z.inj_succ k). unfold Z.succ.
      rewrite mod_pow2_succ by lia.
      assert (0 < 2 ^ Z.of_nat k) as Hp by (apply Z.pow_pos_nonneg; lia).
      pose proof (Z.mod_pos_bound m (2 ^ Z.of_nat k) Hp) as Hb.
      destruct (Z.testbit m (Z.of_nat k)); simpl Z.b2z.
      * rewrite (proj2 (Z.eqb_neq (m mod 2 ^ Z.of_nat k + 2 ^ Z.of_nat k * 1) 0))
          by lia.
        simpl. by rewrite !orb_true_r.
      * rewrite Z.mul_0_r, Z.add_0_r. simpl. reflexivity.
Qed.

(** [shr] on a mantissa that is not negative. *)
Lemma shr_nonneg m l e n :
  0 ≤ m →
  shr (shr_record_of_loc m l) e n
  = (if n <=? 0 then shr_record_of_loc m l
     else {| shr_m := m / 2 ^ n;
             shr_r := Z.testbit m (n - 1);
             shr_s := inexact l || negb (m mod 2 ^ (n - 1) =? 0) |},
     e + Z.max 0 n).
Proof.
  intros Hm. destruct n as [|p|p]; unfold shr; cbv beta iota.
  - f_equal. lia.
  - rewrite iter_pos_nat.
    destruct (Pos2Nat.is_succ p) as [k Hk]. rewrite Hk.
    assert (Zpos p = Z.of_nat (S k)) as Hp by lia.
    assert (Zpos p - 1 = Z.of_nat k) as Hp1 by lia.
    replace (Z.pos p <=? 0) with false by (symmetry; apply Z.leb_gt; lia).
    f_equal; try lia.
    assert (shr_record_of_loc m l
            = {| shr_m := m; shr_r := shr_r (shr_record_of_loc m l);
                 shr_s := shr_s (shr_record_of_loc m l) |}) as ->
      by (destruct l as [|[| |]]; reflexivity).
    rewrite shr_iter by done. rewrite Hp1, Hp. f_equal.
    destruct l as [|[| |]]; reflexivity.
  - f_equal. lia.
Qed.

Lemma loc_of_record_of_loc m l :
  loc_of_shr_record (shr_record_of_loc m l) = l.
Proof. destruct l as [|[| |]]; reflexivity. Qed.

Lemma shr_m_record_of_loc m l : shr_m (shr_record_of_loc m l) = m.
Proof. destruct l as [|[| |]]; reflexivity. Qed.

(** [shr_fexp] for binary32 on a mantissa that is not negative. *)
Lemma shr_fexp_nonneg m e l :
  0 ≤ m →
  let n := Z.max 0 (fexp32 (Zdigits2 m + e) - e) in
  let res := shr_fexp float_prec float_emax m e l in
  shr_m res.1 = m / 2 ^ n ∧
  loc_of_shr_record res.1 = shifted_loc m n l ∧
  res.2 = e + n.
Proof.
  intros Hm n res. subst res. unfold shr_fexp.
  rewrite fexp32_eq, shr_nonneg by done.
  fold (fexp32 (Zdigits2 m + e)).
  set (d := fexp32 (Zdigits2 m + e) - e) in *. simpl.
  unfold shifted_loc.
  destruct (Z.leb_spec d 0) as [Hle|Hgt].
  - assert (n = 0) as -> by lia.
    rewrite Z.pow_0_r, Z.div_1_r, shr_m_record_of_loc, loc_of_record_of_loc.
    simpl. split_and!; [done..|lia].
  - assert (n = d) as -> by lia.
    replace (d <=? 0) with false by (symmetry; apply Z.leb_gt; lia).
    simpl. split_and!; [done..|lia].
Qed.

Lemma round_nearest_even_bounds m l :
  m ≤ round_nearest_even m l ≤ m + 1.
Proof.
  destruct l as [|[| |]]; simpl; try destruct (Z.even m); lia.
Qed.

Lemma round_nearest_even_exact m : round_nearest_even m loc_Exact = m.
Proof. reflexivity. Qed.

(** [binary_round_aux] computes [round_model]. *)
Lemma binary_round_aux_model m e l :
  0 ≤ m →
  binary_round_aux float_prec float_emax false m e l = round_model m e l.
Proof.
  intros Hm. unfold binary_round_aux, round_model, renormalize.
  destruct (shr_fexp_nonneg m e l Hm) as (H1 & H2 & H3).
  destruct (shr_fexp float_prec float_emax m e l) as [mrs' e'].
  simpl in H1, H2, H3. rewrite H1, H2, H3.
  set (n1 := Z.max 0 (fexp32 (Zdigits2 m + e) - e)) in *.
  set (m2 := round_nearest_even (m / 2 ^ n1) (shifted_loc m n1 l)).
  assert (0 ≤ m2) as Hm2.
  { pose proof (round_nearest_even_bounds (m / 2 ^ n1) (shifted_loc m n1 l)).
    assert (0 ≤ m / 2 ^ n1) by (apply Z.div_pos; [done|apply Z.pow_pos_nonneg; lia]).
    subst m2. lia. }
  destruct (shr_fexp_nonneg m2 (e + n1) loc_Exact Hm2) as (H4 & _ & H6).
  destruct (shr_fexp float_prec float_emax m2 (e + n1) loc_Exact) as [mrs'' e''].
  simpl in H4, H6. rewrite H4, H6.
  set (n2 := Z.max 0 (fexp32 (Zdigits2 m2 + (e + n1)) - (e + n1))).
  assert (0 ≤ m2 / 2 ^ n2) as Hm3
    by (apply Z.div_pos; [done|apply Z.pow_pos_nonneg; lia]).
  destruct (m2 / 2 ^ n2) as [|p|p]; [reflexivity|reflexivity|lia].
Qed.

(** *** Locations after a shift *)

Lemma mod_pow2_pred_zero m n :
  0 < n → m mod 2 ^ n = 0 →
  Z.testbit m (n - 1) = false ∧ m mod 2 ^ (n - 1) = 0.
Proof.
  intros Hn Hmod.
  replace n with (n - 1 + 1) in Hmod by lia.
  rewrite mod_pow2_succ in Hmod by lia.
  assert (0 < 2 ^ (n - 1)) as Hp by (apply Z.pow_pos_nonneg; lia).
  pose proof (Z.mod_pos_bound m (2 ^ (n - 1)) Hp) as Hb.
  destruct (Z.testbit m (n - 1)); simpl in Hmod; [lia|]. split; [done|lia].
Qed.

Lemma shifted_loc_exact m n :
  m mod 2 ^ Z.max 0 n = 0 → shifted_loc m n loc_Exact = loc_Exact.
Proof.
  intros Hmod. unfold shifted_loc.
  destruct (Z.leb_spec n 0) as [Hle|Hgt]; [done|].
  rewrite Z.max_r in Hmod by lia.
  destruct (mod_pow2_pred_zero m n Hgt Hmod) as [-> ->]. reflexivity.
Qed.

(** After a shift by [n > 0] digits the location compares what was
    shifted out with half a unit. *)
Lemma shifted_loc_compare m n :
  0 < n →
  shifted_loc m n loc_Exact
  = if m mod 2 ^ n =? 0 then loc_Exact
    else loc_Inexact (m mod 2 ^ n ?= 2 ^ (n - 1)).
Proof.
  intros Hn. unfold shifted_loc.
  replace (n <=? 0) with false by (symmetry; apply Z.leb_gt; lia).
  assert (m mod 2 ^ n
          = m mod 2 ^ (n - 1) + 2 ^ (n - 1) * Z.b2z (Z.testbit m (n - 1))) as ->.
  { rewrite <- mod_pow2_succ by lia. do 2 f_equal. lia. }
  assert (0 < 2 ^ (n - 1)) as Hp by (apply Z.pow_pos_nonneg; lia).
  pose proof (Z.mod_pos_bound m (2 ^ (n - 1)) Hp) as Hb.
  set (low := m mod 2 ^ (n - 1)) in *. set (half := 2 ^ (n - 1)) in *.
  destruct (Z.testbit m (n - 1)); simpl Z.b2z; simpl inexact.
  - rewrite (proj2 (Z.eqb_neq (low + half * 1) 0)) by lia.
    destruct (Z.eqb_spec low 0) as [->|Hne]; simpl.
    + replace (0 + half * 1) with half by lia. by rewrite Z.compare_refl.
    + by rewrite (proj2 (Z.compare_gt_iff (low + half * 1) half)) by lia.
  - rewrite Z.mul_0_r, Z.add_0_r.
    destruct (Z.eqb_spec low 0) as [->|Hne]; simpl; [done|].
    by rewrite (proj2 (Z.compare_lt_iff low half)) by lia.
Qed.

Lemma nonneg_round_model m e l : nonneg_number (round_model m e l) = true.
Proof.
  unfold round_model, renormalize. cbv zeta.
  destruct (_ / _); [done| |done]. by destruct (_ <=? _).
Qed.

Lemma float_one_eq : float_one = S754_finite false 8388608 (-23).
Proof. reflexivity. Qed.

(** Dividing a bound by a power of two. *)
Lemma div_pow2_le m a n :
  0 ≤ n ≤ a → m ≤ 2 ^ a →
  m / 2 ^ n ≤ 2 ^ (a - n) ∧ (m / 2 ^ n = 2 ^ (a - n) → m = 2 ^ a).
Proof.
  intros Hn Hm.
  assert (0 < 2 ^ n) as Hp by (apply Z.pow_pos_nonneg; lia).
  assert (2 ^ a = 2 ^ (a - n) * 2 ^ n) as Ha
    by (rewrite <- Z.pow_add_r by lia; f_equal; lia).
  assert (m / 2 ^ n ≤ 2 ^ (a - n)) as Hle.
  { rewrite <- (Z.div_mul (2 ^ (a - n)) (2 ^ n)) by lia.
    apply Z.div_le_mono; lia. }
  split; [done|]. intros Heq.
  pose proof (Z.mul_div_le m (2 ^ n) Hp). nia.
Qed.

(** Rounding does not carry a number that is at most one above one. *)
Lemma round_model_le_one m e l :
  0 ≤ m → e ≤ -23 → m ≤ 2 ^ (- e) → (m = 2 ^ (- e) → l = loc_Exact) →
  float_le (round_model m e l) float_one = true.
Proof.
  intros Hm He Hle Hex. unfold round_model, renormalize.
  set (n1 := Z.max 0 (fexp32 (Zdigits2 m + e) - e)).
  set (e1 := e + n1).
  assert (Zdigits2 m ≤ - e + 1) as Hdm.
  { apply Zdigits2_le; [done|lia|].
    rewrite Z.pow_add_r, Z.pow_1_r by lia.
    pose proof (Z.pow_pos_nonneg 2 (- e)). lia. }
  assert (e1 ≤ -23) as He1 by (unfold e1, n1, fexp32; lia).
  assert (0 ≤ n1 ≤ - e) as Hn1 by (unfold e1, n1 in *; lia).
  destruct (div_pow2_le m (- e) n1 Hn1 Hle) as [Hm1 Hm1eq].
  replace (- e - n1) with (- e1) in Hm1, Hm1eq by (unfold e1; lia).
  set (m1 := m / 2 ^ n1) in *.
  assert (0 ≤ m1) as Hm1pos
    by (apply Z.div_pos; [done|apply Z.pow_pos_nonneg; lia]).
  set (m2 := round_nearest_even m1 (shifted_loc m n1 l)).
  assert (0 ≤ m2 ≤ 2 ^ (- e1)) as Hm2.
  { pose proof (round_nearest_even_bounds m1 (shifted_loc m n1 l)) as Hb.
    fold m2 in Hb. split; [lia|].
    destruct (decide (m1 = 2 ^ (- e1))) as [Heq|Hne]; [|lia].
    specialize (Hm1eq Heq).
    assert (m mod 2 ^ Z.max 0 n1 = 0) as Hmod.
    { rewrite Z.max_r by lia. rewrite Hm1eq.
      replace (- e) with (- e - n1 + n1) by lia.
      rewrite Z.pow_add_r by lia. apply Z.mod_mul.
      pose proof (Z.pow_pos_nonneg 2 n1). lia. }
    unfold m2. rewrite (Hex Hm1eq), shifted_loc_exact by done. simpl. lia. }
  set (n2 := Z.max 0 (fexp32 (Zdigits2 m2 + e1) - e1)).
  set (e3 := e1 + n2).
  assert (Zdigits2 m2 ≤ - e1 + 1) as Hdm2.
  { apply Zdigits2_le; [lia|lia|].
    rewrite Z.pow_add_r, Z.pow_1_r by lia.
    pose proof (Z.pow_pos_nonneg 2 (- e1)). lia. }
  assert (e3 ≤ -23) as He3 by (unfold e3, n2, fexp32; lia).
  assert (0 ≤ n2 ≤ - e1) as Hn2 by (unfold e3, n2 in *; lia).
  destruct (div_pow2_le m2 (- e1) n2 Hn2 (proj2 Hm2)) as [Hm3 _].
  replace (- e1 - n2) with (- e3) in Hm3 by (unfold e3; lia).
  destruct (m2 / 2 ^ n2) as [|p|p] eqn:Hm3eq; [reflexivity| |reflexivity].
  replace (e3 <=? 104) with true by (symmetry; apply Z.leb_le; lia).
  rewrite float_one_eq. unfold float_le, SFleb, SFcompare.
  destruct (Z.compare_spec e3 (-23)) as [Heq|Hlt|Hgt]; [|done|lia].
  rewrite Heq in Hm3. change (2 ^ (- -23)) with 8388608 in Hm3.
  rewrite Pos.compare_cont_spec. simpl.
  destruct (Pos.compare_spec p 8388608) as [?|?|?]; [done|done|lia].
Qed.

(** *** Division *)

Lemma div_eucl_div_mod a b : Z.div_eucl a b = (a / b, a mod b).
Proof. unfold Z.div, Z.modulo. by destruct (Z.div_eucl a b). Qed.

Lemma new_location_zero nb : new_location nb 0 = loc_Exact.
Proof. unfold new_location. by destruct (Z.even nb). Qed.

Lemma SFdiv_core_binary_eq ma ea mb eb :
  let e' := Z.min (fexp32 (Zdigits2 (Zpos ma) + ea - (Zdigits2 (Zpos mb) + eb)))
                  (ea - eb) in
  let s := ea - eb - e' in
  SFdiv_core_binary float_prec float_emax (Zpos ma) ea (Zpos mb) eb
  = (Zpos ma * 2 ^ s / Zpos mb, e',
     new_location (Zpos mb) ((Zpos ma * 2 ^ s) mod Zpos mb)).
Proof.
  intros e' s. unfold SFdiv_core_binary. rewrite fexp32_eq.
  fold e'. fold s.
  assert (0 ≤ s) as Hs by (unfold s, e'; lia).
  assert ((match s with
           | 0 => Zpos ma
           | Zpos _ => Z.shiftl (Zpos ma) s
           | Zneg _ => 0
           end) = Zpos ma * 2 ^ s) as ->.
  { destruct s as [|p|p] eqn:Hseq; [simpl; lia| |lia].
    by rewrite Z.shiftl_mul_pow2 by lia. }
  by rewrite div_eucl_div_mod.
Qed.

Lemma pow2_pos k : 0 ≤ k → 0 < 2 ^ k.
Proof. intros. by apply Z.pow_pos_nonneg. Qed.

(** A quotient of two positive numbers, the first no larger than the
    second, is at most one. *)
Lemma float_div_le_one ma ea mb eb :
  -149 ≤ ea → -149 ≤ eb →
  scaled ma ea ≤ scaled mb eb →
  float_le (float_div (S754_finite false ma ea) (S754_finite false mb eb))
    float_one = true.
Proof.
  intros Hea Heb Hle. unfold float_div, SFdiv.
  rewrite SFdiv_core_binary_eq. cbv zeta.
  set (d1 := Zdigits2 (Zpos ma)). set (d2 := Zdigits2 (Zpos mb)).
  set (e' := Z.min (fexp32 (d1 + ea - (d2 + eb))) (ea - eb)).
  set (s := ea - eb - e').
  destruct (Zdigits2_bounds (Zpos ma)) as [Hd1 _]; [lia|]. fold d1 in Hd1.
  destruct (Zdigits2_bounds (Zpos mb)) as [_ Hd2]; [lia|]. fold d2 in Hd2.
  pose proof (Zdigits2_pos (Zpos ma) eq_refl) as Hd1pos. fold d1 in Hd1pos.
  pose proof (Zdigits2_pos (Zpos mb) eq_refl) as Hd2pos. fold d2 in Hd2pos.
  unfold scaled in Hle.
  (* magnitudes *)
  assert (d1 + ea ≤ d2 + eb) as Hmag.
  { assert (2 ^ (d1 - 1 + (ea + 149)) < 2 ^ (d2 + (eb + 149))) as Hpow.
    { rewrite (Z.pow_add_r 2 (d1 - 1) (ea + 149)),
        (Z.pow_add_r 2 d2 (eb + 149)) by lia.
      assert (0 < 2 ^ (ea + 149)) by (apply pow2_pos; lia).
      assert (0 < 2 ^ (eb + 149)) by (apply pow2_pos; lia).
      apply Z.le_lt_trans with (Zpos ma * 2 ^ (ea + 149)); [nia|].
      apply Z.le_lt_trans with (Zpos mb * 2 ^ (eb + 149)); [lia|nia]. }
    apply Z.pow_lt_mono_r_iff in Hpow; lia. }
  assert (e' ≤ -24) as He' by (unfold e', fexp32; lia).
  assert (0 ≤ s) as Hs by (unfold s, e'; lia).
  assert (-149 ≤ e' ∨ e' = ea - eb) as He'lo by (unfold e', fexp32; lia).
  (* the scaled mantissa is below [mb * 2 ^ (- e')] *)
  assert (Zpos ma * 2 ^ s ≤ Zpos mb * 2 ^ (- e')) as Hq.
  { set (k := eb + e' + 300).
    assert (0 ≤ k) by (unfold k; lia).
    assert (Zpos ma * 2 ^ s * 2 ^ k ≤ Zpos mb * 2 ^ (- e') * 2 ^ k) as Hk.
    { rewrite <- !Z.mul_assoc, <- !Z.pow_add_r by lia.
      replace (s + k) with (ea + 149 + 151) by (unfold s, k; lia).
      replace (- e' + k) with (eb + 149 + 151) by (unfold k; lia).
      rewrite (Z.pow_add_r 2 (ea + 149) 151), (Z.pow_add_r 2 (eb + 149) 151)
        by lia.
      assert (0 < 2 ^ 151) by (apply pow2_pos; lia). nia. }
    assert (0 < 2 ^ k) by (apply pow2_pos; lia). nia. }
  set (q := Zpos ma * 2 ^ s / Zpos mb).
  assert (0 ≤ q) as Hq0.
  { apply Z.div_pos; [|lia]. assert (0 < 2 ^ s) by (apply pow2_pos; lia). nia. }
  rewrite binary_round_aux_model by done.
  apply round_model_le_one; [done|lia| |].
  - apply Z.div_le_upper_bound; lia.
  - intros Heq.
    assert (Zpos ma * 2 ^ s = 2 ^ (- e') * Zpos mb) as Hexact.
    { pose proof (Z.mul_div_le (Zpos ma * 2 ^ s) (Zpos mb) eq_refl) as Hmd.
      fold q in Hmd. rewrite Heq in Hmd. lia. }
    rewrite Hexact, Z.mod_mul by lia. apply new_location_zero.
Qed.

(** *** Conversion from an integer *)

Lemma pos_iter_xO m d : Zpos (Pos.iter xO m d) = Zpos m * 2 ^ Zpos d.
Proof.
  induction d as [|d IH] using Pos.peano_ind.
  - simpl. lia.
  - rewrite Pos.iter_succ, Pos2Z.inj_xO, IH, Pos2Z.inj_succ, Z.pow_succ_r by lia.
    lia.
Qed.

Lemma shl_align_eq mx ex ex' :
  (shl_align mx ex ex').2 = Z.min ex ex' ∧
  Zpos (shl_align mx ex ex').1 = Zpos mx * 2 ^ (ex - Z.min ex ex').
Proof.
  unfold shl_align. destruct (ex' - ex) as [|d|d] eqn:Hd; simpl.
  - rewrite Z.min_l by lia. rewrite Z.sub_diag. simpl. lia.
  - rewrite Z.min_l by lia. rewrite Z.sub_diag. simpl. lia.
  - rewrite Z.min_r by lia. split; [done|].
    rewrite pos_iter_xO. f_equal. f_equal. lia.
Qed.

Lemma binary_round_model m e :
  binary_round float_prec float_emax false m e
  = round_model (Zpos m * 2 ^ (e - Z.min e (fexp32 (Zdigits2 (Zpos m) + e))))
      (Z.min e (fexp32 (Zdigits2 (Zpos m) + e))) loc_Exact.
Proof.
  unfold binary_round. rewrite fexp32_eq.
  destruct (shl_align_eq m e (fexp32 (Zpos (digits2_pos m) + e))) as [H2 H1].
  destruct (shl_align m e (fexp32 (Zpos (digits2_pos m) + e))) as [mz ez].
  simpl in H1, H2. rewrite binary_round_aux_model by lia.
  rewrite H1, H2. reflexivity.
Qed.

Lemma nonneg_binary_round m e :
  nonneg_number (binary_round float_prec float_emax false m e) = true.
Proof. rewrite binary_round_model. apply nonneg_round_model. Qed.

Lemma Zdigits2_shift m k :
  0 < m → 0 ≤ k → Zdigits2 (m * 2 ^ k) = Zdigits2 m + k.
Proof.
  intros Hm Hk. destruct (Zdigits2_bounds m Hm) as [Hlo Hhi].
  pose proof (Zdigits2_pos m Hm).
  assert (0 < 2 ^ k) by (by apply pow2_pos).
  apply Zdigits2_unique; [|nia].
  replace (Zdigits2 m + k - 1) with (Zdigits2 m - 1 + k) by lia.
  rewrite !Z.pow_add_r by lia. nia.
Qed.

Lemma Zdigits2_div m k :
  0 < m → 0 ≤ k < Zdigits2 m → Zdigits2 (m / 2 ^ k) = Zdigits2 m - k.
Proof.
  intros Hm Hk. destruct (Zdigits2_bounds m Hm) as [Hlo Hhi].
  assert (0 < 2 ^ k) as Hp by (apply pow2_pos; lia).
  assert (2 ^ (Zdigits2 m - 1) = 2 ^ (Zdigits2 m - k - 1) * 2 ^ k) as Hlo'
    by (rewrite <- Z.pow_add_r by lia; f_equal; lia).
  assert (2 ^ Zdigits2 m = 2 ^ (Zdigits2 m - k) * 2 ^ k) as Hhi'
    by (rewrite <- Z.pow_add_r by lia; f_equal; lia).
  assert (2 ^ (Zdigits2 m - k - 1) ≤ m / 2 ^ k).
  { apply Z.div_le_lower_bound; lia. }
  assert (m / 2 ^ k < 2 ^ (Zdigits2 m - k)).
  { apply Z.div_lt_upper_bound; lia. }
  assert (0 < 2 ^ (Zdigits2 m - k - 1)) by (apply pow2_pos; lia).
  apply Zdigits2_unique; [split; [done|lia]|lia].
Qed.

(** A mantissa that fits the format is kept as it is. *)
Lemma renormalize_fits m e :
  fexp32 (Zdigits2 (Zpos m) + e) ≤ e → e ≤ 104 →
  renormalize (Zpos m) e = S754_finite false m e.
Proof.
  intros Hfit He. unfold renormalize.
  rewrite Z.max_l by lia. rewrite Z.pow_0_r, Z.div_1_r, Z.add_0_r.
  by rewrite (proj2 (Z.leb_le e 104)) by done.
Qed.

(** A mantissa that rounding carried to [2 ^ 24] loses its last digit. *)
Lemma renormalize_carry e :
  -149 ≤ e → e < 104 →
  renormalize (2 ^ 24) e = S754_finite false 8388608 (e + 1).
Proof.
  intros Hlo He. unfold renormalize.
  change (Zdigits2 (2 ^ 24)) with 25.
  replace (Z.max 0 (fexp32 (25 + e) - e)) with 1 by (unfold fexp32; lia).
  change (2 ^ 24 / 2 ^ 1) with 8388608.
  by rewrite (proj2 (Z.leb_le (e + 1) 104)) by lia.
Qed.

Lemma round_model_fits m e :
  fexp32 (Zdigits2 (Zpos m) + e) ≤ e → e ≤ 104 →
  round_model (Zpos m) e loc_Exact = S754_finite false m e.
Proof.
  intros Hfit He. unfold round_model.
  rewrite Z.max_l by lia. rewrite Z.pow_0_r, Z.div_1_r, Z.add_0_r.
  unfold shifted_loc. simpl Z.leb. cbv iota.
  rewrite round_nearest_even_exact. by apply renormalize_fits.
Qed.

(** The conversion of a positive integer below [2 ^ 127] is a finite
    positive number whose value is the integer rounded to 24 digits. *)
Lemma float_of_int_finite z :
  0 < z < 2 ^ 127 →
  ∃ m e, float_of_int z = S754_finite false m e ∧
         -23 ≤ e ∧ scaled m e = rnd24 z * 2 ^ 149.
Proof.
  intros [Hz Hz127]. destruct z as [|p|p]; try lia.
  unfold float_of_int, binary_normalize. rewrite binary_round_model.
  rewrite Z.add_0_r.
  set (d := Zdigits2 (Zpos p)).
  pose proof (Zdigits2_pos (Zpos p) Hz) as Hd. fold d in Hd.
  assert (d ≤ 127) as Hd127 by (apply Zdigits2_le; lia).
  destruct (Zdigits2_bounds (Zpos p) Hz) as [Hlo Hhi]. fold d in Hlo, Hhi.
  unfold rnd24. fold d.
  destruct (Z.leb_spec (d - 24) 0) as [Hsmall|Hbig].
  - (* at most 24 digits: exact *)
    replace (Z.min 0 (fexp32 d)) with (d - 24) by (unfold fexp32; lia).
    remember (Zpos p * 2 ^ (0 - (d - 24))) as mz eqn:Hmz.
    assert (Zdigits2 mz = 24) as Hdz.
    { rewrite Hmz, Zdigits2_shift by lia. fold d. lia. }
    assert (0 < mz) as Hmzpos.
    { assert (0 < 2 ^ (0 - (d - 24))) by (apply pow2_pos; lia). nia. }
    destruct mz as [|q|q]; try lia.
    rewrite round_model_fits by (try rewrite Hdz; unfold fexp32; lia).
    exists q, (d - 24). split_and!; [done|lia|].
    unfold scaled. rewrite Hmz.
    rewrite <- Z.mul_assoc, <- Z.pow_add_r by lia. do 2 f_equal. lia.
  - (* more than 24 digits: one rounding *)
    replace (Z.min 0 (fexp32 d)) with 0 by (unfold fexp32; lia).
    rewrite Z.sub_0_r, Z.pow_0_r, Z.mul_1_r.
    unfold round_model. fold d. rewrite Z.add_0_r, Z.add_0_l.
    replace (Z.max 0 (fexp32 d - 0)) with (d - 24) by (unfold fexp32; lia).
    set (n := d - 24) in *.
    set (m1 := Zpos p / 2 ^ n).
    assert (Zdigits2 m1 = 24) as Hdm1.
    { unfold m1. rewrite Zdigits2_div by (fold d; lia). fold d. lia. }
    assert (0 ≤ m1) as Hm1nn by (apply Z.div_pos; [lia|apply pow2_pos; lia]).
    assert (0 < m1) as Hm1 by (destruct m1; simpl in Hdm1; lia).
    destruct (Zdigits2_bounds m1 Hm1) as [Hm1lo Hm1hi].
    rewrite Hdm1 in Hm1lo, Hm1hi.
    remember (round_nearest_even m1 (shifted_loc (Zpos p) n loc_Exact)) as m2
      eqn:Hm2def.
    pose proof (round_nearest_even_bounds m1 (shifted_loc (Zpos p) n loc_Exact))
      as Hm2. rewrite <- Hm2def in Hm2.
    assert (0 < 2 ^ n) as Hpn by (apply pow2_pos; lia).
    destruct (decide (m2 = 2 ^ 24)) as [Hcarry|Hnocarry].
    + (* the mantissa was carried into a 25th digit *)
      rewrite Hcarry, renormalize_carry by lia.
      exists 8388608%positive, (n + 1). split_and!; [done|lia|].
      unfold scaled. change (Z.pos 8388608) with (2 ^ 23).
      rewrite <- !Z.pow_add_r by lia. f_equal. lia.
    + assert (Zdigits2 m2 = 24) as Hdm2.
      { apply Zdigits2_unique; [|lia]. change (24 - 1) with 23. lia. }
      destruct m2 as [|q|q]; try lia.
      rewrite renormalize_fits by (try rewrite Hdm2; unfold fexp32; lia).
      exists q, n. split_and!; [done|lia|].
      unfold scaled. rewrite Z.pow_add_r by lia. lia.
Qed.

(** *** Rounding is monotone *)

Lemma Zdigits2_mono z z' : 0 < z ≤ z' → Zdigits2 z ≤ Zdigits2 z'.
Proof.
  intros [Hz Hle].
  destruct (Zdigits2_bounds z Hz) as [Hlo _].
  pose proof (Zdigits2_pos z Hz).
  assert (Zdigits2 z - 1 < Zdigits2 z') by (apply Zdigits2_ge; lia). lia.
Qed.

Lemma rnd24_bounds z :
  0 < z → 2 ^ (Zdigits2 z - 1) ≤ rnd24 z ≤ 2 ^ Zdigits2 z.
Proof.
  intros Hz. destruct (Zdigits2_bounds z Hz) as [Hlo Hhi].
  unfold rnd24. set (d := Zdigits2 z) in *.
  destruct (Z.leb_spec (d - 24) 0) as [Hsmall|Hbig]; [lia|].
  set (n := d - 24) in *.
  assert (0 < 2 ^ n) as Hpn by (apply pow2_pos; lia).
  assert (Zdigits2 (z / 2 ^ n) = 24) as Hd1.
  { rewrite Zdigits2_div by (fold d; lia). fold d. lia. }
  assert (0 ≤ z / 2 ^ n) as Hnn by (apply Z.div_pos; lia).
  assert (0 < z / 2 ^ n) as Hpos by (destruct (z / 2 ^ n); simpl in Hd1; lia).
  destruct (Zdigits2_bounds _ Hpos) as [H1lo H1hi]. rewrite Hd1 in H1lo, H1hi.
  pose proof (round_nearest_even_bounds (z / 2 ^ n) (shifted_loc z n loc_Exact))
    as Hb.
  assert (2 ^ (d - 1) = 2 ^ (24 - 1) * 2 ^ n) as ->
    by (rewrite <- Z.pow_add_r by lia; f_equal; lia).
  assert (2 ^ d = 2 ^ 24 * 2 ^ n) as ->
    by (rewrite <- Z.pow_add_r by lia; f_equal; lia).
  split; apply Z.mul_le_mono_nonneg_r; lia.
Qed.

(** With the same quotient, a larger remainder does not round lower. *)
Lemma round_up_monotone q rem rem' half :
  0 < half → 0 ≤ rem ≤ rem' →
  round_nearest_even q
    (if rem =? 0 then loc_Exact else loc_Inexact (rem ?= half))
  ≤ round_nearest_even q
      (if rem' =? 0 then loc_Exact else loc_Inexact (rem' ?= half)).
Proof.
  intros Hhalf Hrem.
  destruct (Z.eqb_spec rem 0), (Z.eqb_spec rem' 0),
    (Z.compare_spec rem half), (Z.compare_spec rem' half);
    simpl; try destruct (Z.even q); lia.
Qed.

Lemma rnd24_mono z z' : 0 < z ≤ z' → rnd24 z ≤ rnd24 z'.
Proof.
  intros [Hz Hle].
  pose proof (Zdigits2_mono z z' (conj Hz Hle)) as Hd.
  pose proof (Zdigits2_pos z Hz) as Hdpos.
  destruct (decide (Zdigits2 z = Zdigits2 z')) as [Heq|Hne].
  - unfold rnd24. rewrite <- Heq.
    set (n := Zdigits2 z - 24).
    destruct (Z.leb_spec n 0) as [Hsmall|Hbig]; [done|].
    rewrite !shifted_loc_compare by done.
    assert (0 < 2 ^ n) as Hpn by (apply pow2_pos; lia).
    assert (0 < 2 ^ (n - 1)) as Hph by (apply pow2_pos; lia).
    apply Z.mul_le_mono_nonneg_r; [lia|].
    pose proof (Z.div_le_mono z z' (2 ^ n) Hpn Hle) as Hq.
    pose proof (Z.mod_pos_bound z (2 ^ n) Hpn) as Hr.
    pose proof (Z.mod_pos_bound z' (2 ^ n) Hpn) as Hr'.
    pose proof (Z.div_mod z (2 ^ n)) as Hdm.
    pose proof (Z.div_mod z' (2 ^ n)) as Hdm'.
    destruct (decide (z / 2 ^ n = z' / 2 ^ n)) as [Hqeq|Hqne].
    + rewrite <- Hqeq. apply round_up_monotone; [done|]. nia.
    + pose proof (round_nearest_even_bounds (z / 2 ^ n)
        (if z mod 2 ^ n =? 0 then loc_Exact
         else loc_Inexact (z mod 2 ^ n ?= 2 ^ (n - 1)))).
      pose proof (round_nearest_even_bounds (z' / 2 ^ n)
        (if z' mod 2 ^ n =? 0 then loc_Exact
         else loc_Inexact (z' mod 2 ^ n ?= 2 ^ (n - 1)))).
      lia.
  - destruct (rnd24_bounds z Hz) as [_ Hhi].
    destruct (rnd24_bounds z') as [Hlo' _]; [lia|].
    assert (2 ^ Zdigits2 z ≤ 2 ^ (Zdigits2 z' - 1))
      by (apply Z.pow_le_mono_r; lia).
    lia.
Qed.

(** *** Numbers that are not negative *)

Lemma nonneg_float_of_int z : 0 ≤ z → nonneg_number (float_of_int z) = true.
Proof.
  intros Hz. destruct z as [|p|p]; [done| |lia].
  apply nonneg_binary_round.
Qed.

Lemma nonneg_float_add x y :
  nonneg_number x = true → nonneg_number y = true →
  nonneg_number (float_add x y) = true.
Proof.
  destruct x as [[|]|[|]| |[|] mx ex]; try discriminate;
    destruct y as [[|]|[|]| |[|] my ey]; try discriminate; intros _ _;
    try reflexivity.
  unfold float_add, SFadd, cond_Zopp, binary_normalize.
  destruct (shl_align mx ex (Z.min ex ey)) as [mx' ex'].
  destruct (shl_align my ey (Z.min ex ey)) as [my' ey']. simpl fst.
  simpl Z.add. apply nonneg_binary_round.
Qed.

Lemma nonneg_float_div x my ey :
  nonneg_number x = true →
  nonneg_number (float_div x (S754_finite false my ey)) = true.
Proof.
  destruct x as [[|]|[|]| |[|] mx ex]; try discriminate; intros _;
    try reflexivity.
  unfold float_div, SFdiv. rewrite SFdiv_core_binary_eq. cbv zeta.
  rewrite binary_round_aux_model; [apply nonneg_round_model|].
  apply Z.div_pos; [|lia].
  apply Z.mul_nonneg_nonneg; [lia|]. apply Z.pow_nonneg. lia.
Qed.

(** A number that is not negative compares equal to itself and is at
    least zero. *)
Lemma nonneg_eqb_refl x : nonneg_number x = true → SFeqb x x = true.
Proof.
  destruct x as [[|]|[|]| |[|] m e]; try discriminate; intros _;
    try reflexivity.
  unfold SFeqb, SFcompare. rewrite Z.compare_refl.
  by rewrite Pos.compare_cont_refl.
Qed.

Lemma nonneg_zero_le x :
  nonneg_number x = true → float_le float_zero x = true.
Proof. by destruct x as [[|]|[|]| |[|] m e]. Qed.

(** *** One random element *)

Example random_element_zero : random_element 2147483647 0 = float_zero.
Proof. reflexivity. Qed.

Example random_element_first :
  random_element 2147483647 1804289383 = S754_finite false 14096011 (-24).
Proof. reflexivity. Qed.

Example random_element_near_max :
  random_element 2147483647 2147483584 = float_one.
Proof. reflexivity. Qed.

Lemma random_element_range rand_max r :
  0 < rand_max < 2 ^ 127 → 0 ≤ r ≤ rand_max →
  nonneg_number (random_element rand_max r) = true ∧
  float_le float_zero (random_element rand_max r) = true ∧
  float_le (random_element rand_max r) float_one = true.
Proof.
  intros HM Hr. unfold random_element.
  destruct (float_of_int_finite rand_max HM) as (mb & eb & -> & Heb & Hvb).
  assert (nonneg_number (float_div (float_of_int r) (S754_finite false mb eb))
          = true) as Hnn.
  { apply nonneg_float_div, nonneg_float_of_int. lia. }
  split_and!; [done|by apply nonneg_zero_le|].
  destruct (decide (r = 0)) as [->|Hr0]; [reflexivity|].
  destruct (float_of_int_finite r) as (ma & ea & -> & Hea & Hva); [lia|].
  apply float_div_le_one; [lia..|].
  rewrite Hva, Hvb. apply Z.mul_le_mono_nonneg_r; [lia|].
  apply rnd24_mono. lia.
Qed.

(** [rand()] returning [RAND_MAX] gives exactly one. *)
Lemma random_element_one :
  random_element 2147483647 2147483647 = float_one ∧
  float_lt (random_element 2147483647 2147483647) float_one = false.
Proof. split; reflexivity. Qed.

End FloatFacts.

(** ** The harness *)

(** A loop that stores [f i] at every index of an array. *)
Lemma for_loop_fill {A : Type} (f : nat → A) (l : list A) :
  for_loop (length l) (λ i a, <[i := f i]> a) l = f <$> seq 0 (length l).
Proof.
  set (n := length l).
  assert (length (for_loop n (λ i a, <[i := f i]> a) l) = n ∧
          ∀ i, i < n → for_loop n (λ i a, <[i := f i]> a) l !! i = Some (f i))
    as [Hlen Hcells].
  { apply (for_loop_inv (λ k a, length a = n ∧
                                 ∀ i, i < k → a !! i = Some (f i))).
    - split; [reflexivity|]. intros; lia.
    - intros k a Hk [Hla Ha]. split; [by rewrite length_insert|].
      intros i Hi. destruct (decide (i = k)) as [->|Hne].
      + by rewrite list_lookup_insert_eq by lia.
      + rewrite list_lookup_insert_ne by done. apply Ha. lia. }
  apply (list_eq_same_length _ _ n);
    [by rewrite length_fmap, length_seq|exact Hlen|].
  intros i x y Hi Hx Hy.
  rewrite Hcells in Hx by exact Hi.
  rewrite list_lookup_fmap, lookup_seq_lt in Hy by exact Hi.
  simpl in Hy. congruence.
Qed.

Lemma length_uninit1 n g : length (uninit1 n g) = n.
Proof. unfold uninit1. by rewrite length_fmap, length_seq. Qed.

Lemma fill_input_closed env :
  fill_input env
  = (λ i, random_element (RAND_MAX env) (rand env i)) <$> seq 0 kMatrixSize.
Proof.
  unfold fill_input.
  rewrite <- (length_uninit1 kMatrixSize (A_garbage env)) at 1 3.
  apply (for_loop_fill (λ i, random_element (RAND_MAX env) (rand env i))).
Qed.

Lemma fill_input_element env i :
  i < kMatrixSize →
  read1 float_zero (fill_input env) i
  = random_element (RAND_MAX env) (rand env i).
Proof.
  intros Hi. unfold read1.
  rewrite fill_input_closed, list_lookup_fmap, lookup_seq_lt by exact Hi.
  reflexivity.
Qed.

Lemma rand_conforms_range env i :
  rand_conforms env →
  (0 < RAND_MAX env < 2 ^ 127)%Z ∧ (0 ≤ rand env i ≤ RAND_MAX env)%Z.
Proof.
  intros [HM Hr]. split; [|apply Hr].
  unfold INT_MAX in HM. split; [lia|].
  apply Z.le_lt_trans with 2147483647%Z; [lia|reflexivity].
Qed.

(** Every element that [main] hands to the kernel is a number that is not
    negative. *)
Lemma fill_input_nonneg env i :
  rand_conforms env →
  nonneg_number (read1 float_zero (fill_input env) i) = true.
Proof.
  intros Hconf.
  destruct (decide (i < kMatrixSize)) as [Hi|Hi].
  - rewrite fill_input_element by exact Hi.
    destruct (rand_conforms_range env i Hconf) as [HM Hr].
    apply (random_element_range _ _ HM Hr).
  - unfold read1. rewrite fill_input_closed, list_lookup_fmap.
    rewrite lookup_seq_ge by lia. reflexivity.
Qed.

Lemma nonneg_iter_add n x :
  nonneg_number x = true →
  nonneg_number (Nat.iter n (λ a, float_add a x) float_zero) = true.
Proof.
  intros Hx. induction n as [|n IH]; [reflexivity|].
  rewrite Nat.iter_succ. by apply nonneg_float_add.
Qed.

Lemma kernel_output_closed safe_len run input out :
  safe_len ≤ kRowLength → length out = kMatrixSize →
  kernel_output safe_len run input out
  = (λ i, Nat.iter (kRowLength * kRowLength)
            (λ a, float_add a
                    (read1 float_zero input
                       (i mod kRowLength * kRowLength + i / kRowLength)))
            float_zero)
    <$> seq 0 (kRowLength * kRowLength).
Proof.
  intros Hsl Hlen. unfold kernel_output.
  rewrite (KernelCompute_ivdep_sequential float_add float_zero kRowLength
             kRowLength_pos) by exact Hsl.
  apply (KernelCompute_closed float_add float_zero kRowLength kRowLength_pos).
  exact Hlen.
Qed.

(** The two arrays that [main] compares are the same array of numbers. *)
Lemma B_of_C_of env :
  B_of env = C_of env ∧
  (rand_conforms env →
   ∀ i, nonneg_number (read1 float_zero (B_of env) i) = true).
Proof.
  assert (kMinSafelen ≤ kRowLength) as Hmin
    by (unfold kMinSafelen, kRowLength; lia).
  assert (kMaxSafelen ≤ kRowLength) as Hmax by (unfold kMaxSafelen; lia).
  unfold B_of, C_of.
  rewrite !kernel_output_closed
    by (exact Hmin || exact Hmax || apply length_uninit1).
  split; [reflexivity|].
  intros Hconf i. unfold read1 at 1. rewrite list_lookup_fmap.
  destruct (seq 0 (kRowLength * kRowLength) !! i) as [k|]; [|reflexivity].
  change (nonneg_number
            (Nat.iter (kRowLength * kRowLength)
               (λ a, float_add a
                       (read1 float_zero (fill_input env)
                          (k mod kRowLength * kRowLength + k / kRowLength)))
               float_zero) = true).
  apply nonneg_iter_add, fill_input_nonneg, Hconf.
Qed.

(** C9, as stated, fails.  When [rand()] returns [RAND_MAX] the element is
    exactly [1.0], which is not below one. *)
Lemma random_input_counterexample :
  rand_conforms (sample_env 2147483647 in_order_run in_order_run) ∧
  read1 float_zero
    (fill_input (sample_env 2147483647 in_order_run in_order_run)) 0
  = float_one ∧
  float_lt
    (read1 float_zero
       (fill_input (sample_env 2147483647 in_order_run in_order_run)) 0)
    float_one = false.
Proof.
  assert (0 < kMatrixSize) as Hpos by (vm_compute; lia).
  split; [|split].
  - split; [unfold INT_MAX; simpl; lia|]. intros i. simpl. lia.
  - rewrite fill_input_element by exact Hpos. reflexivity.
  - rewrite fill_input_element by exact Hpos. reflexivity.
Qed.

(** C9, amended.  Every element of the input matrix that the harness builds
    lies in the closed interval from 0 to 1: it is at least 0 and at most
    1 (and 1 is reached). *)
Theorem random_input_in_unit_interval env i :
  rand_conforms env → i < kMatrixSize →
  float_le float_zero (read1 float_zero (fill_input env) i) = true ∧
  float_le (read1 float_zero (fill_input env) i) float_one = true.
Proof.
  intros Hconf Hi. rewrite fill_input_element by exact Hi.
  destruct (rand_conforms_range env i Hconf) as [HM Hr].
  destruct (random_element_range _ _ HM Hr) as (_ & Hlo & Hhi).
  split; [exact Hlo|exact Hhi].
Qed.

Lemma random_input_in_unit_interval_witness :
  float_le float_zero
    (read1 float_zero
       (fill_input (sample_env 1804289383 in_order_run eager_run)) 7) = true ∧
  float_le
    (read1 float_zero
       (fill_input (sample_env 1804289383 in_order_run eager_run)) 7)
    float_one = true.
Proof.
  apply random_input_in_unit_interval.
  - split; [unfold INT_MAX; simpl; lia|]. intros i. simpl. lia.
  - vm_compute. lia.
Defined.

(** With a conforming [rand()] and no exception, [main] passes. *)
Lemma main_passes env :
  rand_conforms env →
  sycl_exception (run_min env) = false →
  sycl_exception (run_max env) = false →
  verify (B_of env) (C_of env) = None ∧ main env = Exit 0 PASSED.
Proof.
  intros Hconf He1 He2.
  destruct (B_of_C_of env) as [HBC Hnn]. specialize (Hnn Hconf).
  assert (verify (B_of env) (C_of env) = None) as Hv.
  { apply verify_None. intros i _. unfold same_at. rewrite <- HBC.
    apply nonneg_eqb_refl, Hnn. }
  split; [exact Hv|].
  rewrite main_cases, He1, He2, Hv. reflexivity.
Qed.

(** C10.  With a [rand()] that conforms to the C standard and no exception
    from the runtime, the comparison loop of [main] finds no mismatch:
    the two calls leave the same numbers in [B] and [C], none of them a NaN,
    so [main] prints the PASSED line and returns 0, never the FAILED
    line. *)
Theorem mismatch_branch_unreachable env :
  rand_conforms env →
  sycl_exception (run_min env) = false →
  sycl_exception (run_max env) = false →
  B_of env = C_of env ∧
  verify (B_of env) (C_of env) = None ∧
  main env = Exit 0 PASSED ∧
  main env ≠ Exit 1 FAILED.
Proof.
  intros Hconf He1 He2.
  destruct (main_passes env Hconf He1 He2) as [Hv Hmain].
  split_and!; [exact (proj1 (B_of_C_of env))|exact Hv|exact Hmain|].
  rewrite Hmain. discriminate.
Qed.

Lemma mismatch_branch_unreachable_witness :
  B_of (sample_env 1804289383 in_order_run eager_run)
    = C_of (sample_env 1804289383 in_order_run eager_run) ∧
  verify (B_of (sample_env 1804289383 in_order_run eager_run))
    (C_of (sample_env 1804289383 in_order_run eager_run)) = None ∧
  main (sample_env 1804289383 in_order_run eager_run) = Exit 0 PASSED ∧
  main (sample_env 1804289383 in_order_run eager_run) ≠ Exit 1 FAILED.
Proof.
  apply mismatch_branch_unreachable.
  - split; [unfold INT_MAX; simpl; lia|]. intros i. simpl. lia.
  - reflexivity.
  - reflexivity.
Defined.

(** C5.  [main] returns 0 exactly when neither call raised anything and all
    [kMatrixSize] pairs of elements of [B] and [C] compare equal; it returns
    1 exactly when neither call raised anything and some pair compares
    unequal, the loop stopping at the first such pair; and a
    [sycl::exception] in either call ends the process in
    [std::terminate()].  On the arrays that [main] can produce, comparing
    equal with [==] and being the same array coincide. *)
Theorem exit_status_contract env :
  (main env = Exit 0 PASSED ↔
     sycl_exception (run_min env) = false ∧
     sycl_exception (run_max env) = false ∧
     ∀ i, i < kMatrixSize →
       SFeqb (read1 float_zero (B_of env) i) (read1 float_zero (C_of env) i)
       = true) ∧
  (main env = Exit 1 FAILED ↔
     sycl_exception (run_min env) = false ∧
     sycl_exception (run_max env) = false ∧
     ∃ i, verify (B_of env) (C_of env) = Some i) ∧
  (∀ B C, verify B C = None ↔
     ∀ i, i < kMatrixSize →
       SFeqb (read1 float_zero B i) (read1 float_zero C i) = true) ∧
  (∀ B C i, verify B C = Some i ↔
     i < kMatrixSize ∧
     float_ne (read1 float_zero B i) (read1 float_zero C i) = true ∧
     ∀ j, j < i →
       SFeqb (read1 float_zero B j) (read1 float_zero C j) = true) ∧
  (main env = Abort ↔
     sycl_exception (run_min env) = true ∨
     sycl_exception (run_max env) = true) ∧
  (∀ status verdict, main env = Exit status verdict →
     (status = 0%Z ∧ verdict = PASSED) ∨ (status = 1%Z ∧ verdict = FAILED)) ∧
  (rand_conforms env →
     (main env = Exit 0 PASSED ↔
        sycl_exception (run_min env) = false ∧
        sycl_exception (run_max env) = false ∧
        B_of env = C_of env)).
Proof.
  pose proof (main_cases env) as Hmain.
  destruct (verdict_cases (sycl_exception (run_min env))
              (sycl_exception (run_max env))
              (verify (B_of env) (C_of env))) as (H0 & H1 & HA & HE).
  cbv zeta in H0, H1, HA, HE. rewrite <- Hmain in H0, H1, HA, HE.
  split_and!.
  - rewrite H0, verify_None. reflexivity.
  - exact H1.
  - exact verify_None.
  - exact verify_Some.
  - exact HA.
  - exact HE.
  - intros Hconf. rewrite H0. split.
    + intros (He1 & He2 & _). split_and!; [exact He1|exact He2|].
      exact (proj1 (B_of_C_of env)).
    + intros (He1 & He2 & _). split_and!; [exact He1|exact He2|].
      exact (proj1 (main_passes env Hconf He1 He2)).
Qed.

Lemma exit_status_contract_witness :
  main (sample_env 0 in_order_run failing_run) = Abort.
Proof.
  apply (proj1 (proj2 (proj2 (proj2 (proj2
           (exit_status_contract (sample_env 0 in_order_run failing_run))))))).
  right. reflexivity.
Defined.

(** ** More facts about the kernel loops *)

Section LoopFacts.
Context {F : Type}.
Variable fadd : F → F → F.
Variable fzero : F.
Variable N : nat.
Hypothesis N_pos : 0 < N.

Implicit Types m inb tmp view : matrix F.

(** What an outer iteration leaves in a row depends on that row alone. *)
Lemma inner_loop_row_local inb j tmp tmp' r :
  tmp !! r = tmp' !! r →
  inner_loop fadd fzero N inb j tmp !! r
  = inner_loop fadd fzero N inb j tmp' !! r.
Proof.
  intros Hrow. unfold inner_loop.
  assert (∀ k, for_loop k (fold_body fadd fzero N inb j) tmp !! r
               = for_loop k (fold_body fadd fzero N inb j) tmp' !! r) as Hk;
    [|apply Hk].
  induction k as [|k IH]; [done|].
  rewrite !for_loop_S. unfold fold_body at 1 3. unfold write2.
  destruct (decide (j mod N = r)) as [<-|Hne].
  - rewrite !list_lookup_alter_eq, IH.
    rewrite (read2_row fzero _ _ (j mod N) k IH). done.
  - by rewrite !list_lookup_alter_ne.
Qed.

(** Outer iterations fewer than [N] apart work on different rows, so they
    can be exchanged. *)
Lemma inner_loop_commute inb j k tmp :
  j < k → k - j < N →
  inner_loop fadd fzero N inb k (inner_loop fadd fzero N inb j tmp)
  = inner_loop fadd fzero N inb j (inner_loop fadd fzero N inb k tmp).
Proof.
  intros Hjk Hd. pose proof (rows_apart N j k Hjk Hd) as Hrows.
  apply list_eq. intros r.
  destruct (decide (r = k mod N)) as [->|Hk].
  - rewrite (inner_loop_row_ne fadd fzero N inb j) by done.
    apply inner_loop_row_local. by apply inner_loop_row_ne.
  - rewrite (inner_loop_row_ne fadd fzero N inb k) by done.
    destruct (decide (r = j mod N)) as [->|Hj].
    + apply inner_loop_row_local. symmetry. by apply inner_loop_row_ne.
    + by rewrite !inner_loop_row_ne.
Qed.

(** *** Loads that run a whole period behind *)

Lemma stale_inner_loop_row_ne inb view j tmp r :
  r ≠ j mod N → stale_inner_loop fadd fzero N inb view j tmp !! r = tmp !! r.
Proof.
  intros Hr. unfold stale_inner_loop.
  apply (for_loop_inv (λ _ t, t !! r = tmp !! r)); [done|].
  intros i t _ <-. unfold stale_body. by apply write2_row_ne.
Qed.

Lemma stale_inner_loop_shaped inb view j tmp :
  shaped N tmp → shaped N (stale_inner_loop fadd fzero N inb view j tmp).
Proof.
  intros Ht. unfold stale_inner_loop.
  apply (for_loop_inv (λ _ t, shaped N t)); [done|].
  intros i t _ Hs. by apply shaped_write2.
Qed.

(** An outer iteration whose loads come from [view] adds the input to what
    [view] holds, not to what the buffer holds now. *)
Lemma stale_inner_loop_cell inb view j tmp r c :
  shaped N tmp → r < N → c < N →
  read2 fzero (stale_inner_loop fadd fzero N inb view j tmp) r c
  = if decide (r = j mod N)
    then fadd (read2 fzero view r c) (read2 fzero inb c r)
    else read2 fzero tmp r c.
Proof.
  intros Ht Hr Hc. case_decide as Hrj.
  - subst r. unfold stale_inner_loop.
    set (body := stale_body fadd fzero N inb view j).
    assert (∀ k, k ≤ N →
      shaped N (for_loop k body tmp) ∧
      read2 fzero (for_loop k body tmp) (j mod N) c
      = if decide (c < k)
        then fadd (read2 fzero view (j mod N) c) (read2 fzero inb c (j mod N))
        else read2 fzero tmp (j mod N) c) as Hinv.
    { induction k as [|k IH]; intros Hk.
      - split; [done|]. by rewrite decide_False by lia.
      - destruct IH as [IHs IHc]; [lia|].
        rewrite for_loop_S. split; [by apply shaped_write2|].
        subst body. unfold stale_body at 1.
        destruct (decide (c = k)) as [->|Hck].
        + rewrite (read2_write2_eq _ N) by done.
          by rewrite decide_True by lia.
        + rewrite read2_write2_ne by (right; lia).
          rewrite IHc. repeat case_decide; (done || lia). }
    destruct (Hinv N) as [_ ->]; [done|]. by rewrite decide_True.
  - apply read2_row. by apply stale_inner_loop_row_ne.
Qed.

Lemma visits_period k r :
  N ≤ k → r < N → visits N (k - N) r + 1 = visits N k r.
Proof.
  intros Hk Hr. unfold visits.
  assert (k / N = (k - N) / N + 1) as ->.
  { rewrite <- Nat.div_add by lia. f_equal. lia. }
  assert (k mod N = (k - N) mod N) as ->.
  { rewrite <- (Nat.Div0.mod_add (k - N) 1 N). f_equal. lia. }
  repeat case_decide; lia.
Qed.

Lemma visits_first_round k : k < N → visits N k (k mod N) = 0.
Proof.
  intros Hk. unfold visits.
  rewrite Nat.div_small, Nat.mod_small by done. case_decide; lia.
Qed.

(** With every load running exactly [N] iterations behind, which a
    [safe_len] above [N] allows, each cell receives only every second
    addition. *)
Lemma pipelined_history_stale inb safe_len lag tmp k :
  N < safe_len → (∀ j, lag j = N) → shaped N tmp →
  let hist := for_loop k (pipelined_step fadd fzero N inb safe_len lag) [tmp] in
  length hist = S k ∧
  ∀ d st, hist !! d = Some st →
    shaped N st ∧
    ∀ r c, r < N → c < N →
      read2 fzero st r c
      = Nat.iter ((visits N (k - d) r + 1) / 2)
          (λ a, fadd a (read2 fzero inb c r)) (read2 fzero tmp r c).
Proof.
  intros Hsl Hlag Ht. cbv zeta. induction k as [|k IH].
  - split; [done|]. intros [|d] st; [|done]. intros [= <-].
    split; [done|]. intros r c Hr Hc. by rewrite visits_0.
  - rewrite for_loop_S. destruct IH as [Hlen IH].
    set (hist := for_loop k (pipelined_step fadd fzero N inb safe_len lag) [tmp])
      in *.
    destruct hist as [|cur older] eqn:Hhist; [done|].
    unfold pipelined_step.
    set (dd := load_distance safe_len lag k).
    assert (dd = Nat.min N k) as Hdd
      by (unfold dd, load_distance; rewrite Hlag; lia).
    destruct (lookup_lt_is_Some_2 (cur :: older) dd) as [view Hview];
      [simpl in *; lia|].
    rewrite Hview. simpl default.
    destruct (IH 0 cur eq_refl) as [Hcur Hcells].
    destruct (IH dd view Hview) as [_ Hvcells].
    split; [simpl in *; lia|].
    intros [|d] st.
    + intros [= <-]. split; [by apply stale_inner_loop_shaped|].
      intros r c Hr Hc. rewrite stale_inner_loop_cell by done.
      rewrite Nat.sub_0_r, visits_S by done.
      case_decide as Hrk.
      * rewrite Hvcells by done. subst r.
        assert ((visits N k (k mod N) + 1 + 1) / 2
                = S ((visits N (k - dd) (k mod N) + 1) / 2)) as ->;
          [|by rewrite Nat.iter_succ].
        destruct (decide (k < N)) as [Hlt|Hge].
        -- rewrite Hdd, Nat.min_r, Nat.sub_diag, visits_0 by lia.
           rewrite visits_first_round by done. done.
        -- rewrite Hdd, Nat.min_l by lia.
           rewrite <- (visits_period k (k mod N)) by lia.
           replace (visits N (k - N) (k mod N) + 1 + 1 + 1)
             with (visits N (k - N) (k mod N) + 1 + 1 * 2) by lia.
           rewrite Nat.div_add by lia. lia.
      * rewrite Hcells by done. by rewrite Nat.sub_0_r, Nat.add_0_r.
    + intros Hst. apply (IH d st Hst).
Qed.

Lemma pipelined_accumulate_stale inb safe_len lag tmp r c :
  N < safe_len → (∀ j, lag j = N) → shaped N tmp → r < N → c < N →
  read2 fzero (pipelined_accumulate fadd fzero N inb safe_len lag tmp) r c
  = Nat.iter ((N * N + 1) / 2)
      (λ a, fadd a (read2 fzero inb c r)) (read2 fzero tmp r c).
Proof.
  intros Hsl Hlag Ht Hr Hc. unfold pipelined_accumulate.
  pose proof (pipelined_history_stale inb safe_len lag tmp (N * N * N)
                Hsl Hlag Ht) as Hhist.
  cbv zeta in Hhist. destruct Hhist as [Hlen Hcells].
  destruct (for_loop (N * N * N) _ [tmp]) as [|st older];
    [simpl in Hlen; lia|].
  destruct (Hcells 0 st eq_refl) as [_ Hst]. simpl default.
  rewrite Hst by done. by rewrite Nat.sub_0_r, visits_full.
Qed.

Lemma KernelCompute_ivdep_stale_cell safe_len lag lc input out r c :
  N < safe_len → (∀ j, lag j = N) →
  length out = N * N → r < N → c < N →
  KernelCompute_ivdep fadd fzero N safe_len lag lc input out !! (r * N + c)
  = Some (Nat.iter ((N * N + 1) / 2)
            (λ a, fadd a (read1 fzero input (c * N + r))) fzero).
Proof.
  intros Hsl Hlag Hlen Hr Hc. unfold KernelCompute_ivdep.
  rewrite (init_buffers_closed fzero N N_pos). simpl.
  rewrite (write_output_spec fzero N N_pos) by done.
  rewrite list_lookup_fmap, lookup_seq_lt by nia. simpl.
  rewrite flat_index_div, flat_index_mod by done.
  rewrite pipelined_accumulate_stale
    by (done || apply shaped_zero_accumulator).
  by rewrite (read2_zero_accumulator fzero N),
    (read2_working_of fzero N) by done.
Qed.

End LoopFacts.

(** ** More facts about the program *)

(** X1.  An outer iteration stores into row [j mod kRowLength] only, so two
    outer iterations fewer than [kRowLength] apart can be exchanged: the
    dependence distance that the comment on lines 53-54 states. *)
Theorem outer_iterations_commute (in_buffer temp : matrix float) j k :
  j < k → k - j < kRowLength →
  (∀ r, r ≠ j mod kRowLength →
     inner_loop float_add float_zero kRowLength in_buffer j temp !! r
     = temp !! r) ∧
  inner_loop float_add float_zero kRowLength in_buffer k
    (inner_loop float_add float_zero kRowLength in_buffer j temp)
  = inner_loop float_add float_zero kRowLength in_buffer j
      (inner_loop float_add float_zero kRowLength in_buffer k temp).
Proof.
  intros Hjk Hd. split.
  - intros r Hr. apply inner_loop_row_ne. exact Hr.
  - apply inner_loop_commute; assumption.
Qed.

Lemma outer_iterations_commute_witness :
  (∀ r, r ≠ 5 mod kRowLength →
     inner_loop float_add float_zero kRowLength
       (working_of float_zero kRowLength unit_matrix) 5
       (zero_accumulator float_zero kRowLength) !! r
     = zero_accumulator float_zero kRowLength !! r) ∧
  inner_loop float_add float_zero kRowLength
    (working_of float_zero kRowLength unit_matrix) 132
    (inner_loop float_add float_zero kRowLength
       (working_of float_zero kRowLength unit_matrix) 5
       (zero_accumulator float_zero kRowLength))
  = inner_loop float_add float_zero kRowLength
      (working_of float_zero kRowLength unit_matrix) 5
      (inner_loop float_add float_zero kRowLength
         (working_of float_zero kRowLength unit_matrix) 132
         (zero_accumulator float_zero kRowLength)).
Proof.
  apply outer_iterations_commute.
  - lia.
  - unfold kRowLength. lia.
Defined.

(** X2.  A [safe_len] above [kRowLength] lets the loads run a whole period
    behind; when they do, every output cell receives only half of the
    additions, 8192 instead of 16384. *)
Theorem overstated_safe_len_halves safe_len run input out r c :
  kRowLength < safe_len →
  (∀ j, lag run j = kRowLength) →
  sycl_exception run = false →
  length out = kMatrixSize → r < kRowLength → c < kRowLength →
  (∃ output,
     TransposeAndFold safe_len run input out = Completed output ∧
     output !! (r * kRowLength + c)
     = Some (Nat.iter ((kRowLength * kRowLength + 1) / 2)
               (λ a, float_add a (read1 float_zero input (c * kRowLength + r)))
               float_zero)) ∧
  Z.of_nat ((kRowLength * kRowLength + 1) / 2) = 8192%Z.
Proof.
  intros Hsl Hlag Hexc Hlen Hr Hc. split; [|vm_compute; reflexivity].
  unfold TransposeAndFold. rewrite Hexc. eexists. split; [reflexivity|].
  apply (KernelCompute_ivdep_stale_cell float_add float_zero kRowLength
           kRowLength_pos); assumption.
Qed.

Lemma overstated_safe_len_halves_witness :
  (∃ output,
     TransposeAndFold 129 lagging_run unit_matrix zero_matrix
       = Completed output ∧
     output !! (0 * kRowLength + 0)
     = Some (Nat.iter ((kRowLength * kRowLength + 1) / 2)
               (λ a, float_add a (read1 float_zero unit_matrix (0 * kRowLength + 0)))
               float_zero)) ∧
  Z.of_nat ((kRowLength * kRowLength + 1) / 2) = 8192%Z.
Proof.
  apply overstated_safe_len_halves.
  - unfold kRowLength. lia.
  - intros j. reflexivity.
  - reflexivity.
  - vm_compute. reflexivity.
  - unfold kRowLength. lia.
  - unfold kRowLength. lia.
Defined.

(** *** The comparison loop *)

Lemma SFeqb_refl_iff (x : float) : SFeqb x x = true ↔ x ≠ S754_nan.
Proof.
  destruct x as [[|]|[|]| |[|] m e];
    try (split; [intros _; discriminate|reflexivity]).
  - split; [discriminate|]. intros Hx. exfalso. by apply Hx.
  - unfold SFeqb, SFcompare. rewrite Z.compare_refl, Pos.compare_cont_refl.
    split; [intros _; discriminate|reflexivity].
  - unfold SFeqb, SFcompare. rewrite Z.compare_refl, Pos.compare_cont_refl.
    split; [intros _; discriminate|reflexivity].
Qed.

(** X3.  Comparing an array with itself finds no mismatch exactly when none
    of its [kMatrixSize] elements is a NaN: two runs that agree on a NaN are
    still reported as a mismatch. *)
Theorem verify_same_array (B : list float) :
  verify B B = None ↔
  ∀ i, i < kMatrixSize → read1 float_zero B i ≠ S754_nan.
Proof.
  rewrite verify_None. unfold same_at.
  split; intros H i Hi; apply SFeqb_refl_iff, H, Hi.
Qed.

(** X4.  Overwriting one element of an array with a value that compares
    unequal to it is found at exactly that index, provided no earlier
    element is a NaN; [main] then prints the FAILED line and returns 1. *)
Theorem verify_detects_corruption (B : list float) (i : nat) (y : float) :
  i < kMatrixSize → i < length B →
  (∀ j, j < i → read1 float_zero B j ≠ S754_nan) →
  float_ne (read1 float_zero B i) y = true →
  verify B (<[i := y]> B) = Some i ∧
  verdict_of (verify B (<[i := y]> B)) = Exit 1 FAILED.
Proof.
  intros Hi Hlen Hnan Hne.
  assert (verify B (<[i := y]> B) = Some i) as Hv.
  { apply verify_Some. unfold same_at, differ_at. split; [exact Hi|]. split.
    - unfold read1 at 2. rewrite list_lookup_insert_eq by exact Hlen.
      exact Hne.
    - intros j Hj. unfold read1 at 2.
      rewrite list_lookup_insert_ne by lia.
      apply SFeqb_refl_iff, Hnan, Hj. }
  split; [exact Hv|]. rewrite Hv. reflexivity.
Qed.

Lemma verify_detects_corruption_witness :
  verify zero_matrix (<[3 := float_one]> zero_matrix) = Some 3 ∧
  verdict_of (verify zero_matrix (<[3 := float_one]> zero_matrix))
  = Exit 1 FAILED.
Proof.
  apply verify_detects_corruption.
  - vm_compute. lia.
  - vm_compute. lia.
  - intros j Hj. unfold read1, zero_matrix.
    rewrite lookup_replicate_2 by (unfold kMatrixSize, kRowLength; lia).
    discriminate.
  - reflexivity.
Defined.

(** *** What [main] depends on *)

Lemma fill_input_ext env env' :
  RAND_MAX env = RAND_MAX env' →
  (∀ i, i < kMatrixSize → rand env i = rand env' i) →
  fill_input env = fill_input env'.
Proof.
  intros HM Hr. rewrite !fill_input_closed.
  apply list_fmap_ext. intros i k [-> Hk]%lookup_seq.
  rewrite HM, (Hr (0 + i) Hk). reflexivity.
Qed.

(** X5.  The outcome of [main] is determined by [RAND_MAX], by the first
    [kMatrixSize] values of [rand()] and by whether either call raised: the
    uninitialised contents of [A], [B], [C] and of the kernel's local
    arrays, the schedules of the device and later values of [rand()] have
    no influence. *)
Theorem main_depends_only_on_rand env env' :
  RAND_MAX env = RAND_MAX env' →
  (∀ i, i < kMatrixSize → rand env i = rand env' i) →
  sycl_exception (run_min env) = sycl_exception (run_min env') →
  sycl_exception (run_max env) = sycl_exception (run_max env') →
  main env = main env'.
Proof.
  intros HM Hr He1 He2.
  assert (kMinSafelen ≤ kRowLength) as Hmin
    by (unfold kMinSafelen, kRowLength; lia).
  assert (kMaxSafelen ≤ kRowLength) as Hmax by (unfold kMaxSafelen; lia).
  rewrite !main_cases, He1, He2.
  assert (B_of env = B_of env') as ->.
  { unfold B_of.
    rewrite !kernel_output_closed by (exact Hmin || apply length_uninit1).
    rewrite (fill_input_ext env env' HM Hr). reflexivity. }
  assert (C_of env = C_of env') as ->.
  { unfold C_of.
    rewrite !kernel_output_closed by (exact Hmax || apply length_uninit1).
    rewrite (fill_input_ext env env' HM Hr). reflexivity. }
  reflexivity.
Qed.

Lemma main_depends_only_on_rand_witness :
  main (sample_env 1804289383 in_order_run eager_run)
  = main (other_env 1804289383).
Proof.
  apply main_depends_only_on_rand.
  - reflexivity.
  - intros i Hi. unfold other_env, sample_env. simpl.
    destruct (Nat.ltb_spec i kMatrixSize) as [_|Hge]; [reflexivity|lia].
  - reflexivity.
  - reflexivity.
Defined.

(** ** Numbers in a format with [prec] digits *)

Section Format.
Local Open Scope Z_scope.
Variables prec emax : Z.
Hypothesis prec_pos : 0 < prec.
Hypothesis prec_lt_emax : prec < emax.

Lemma fexp_fmt k : fexp prec emax k = Z.max (k - prec) (3 - emax - prec).
Proof. reflexivity. Qed.

Lemma emin_fmt : emin prec emax = 3 - emax - prec.
Proof. reflexivity. Qed.

Lemma shr_fexp_fmt m e l :
  0 ≤ m →
  let n := Z.max 0 (fexp prec emax (Zdigits2 m + e) - e) in
  let res := shr_fexp prec emax m e l in
  shr_m res.1 = m / 2 ^ n ∧
  loc_of_shr_record res.1 = shifted_loc m n l ∧
  res.2 = e + n.
Proof.
  intros Hm n res. subst res. unfold shr_fexp.
  rewrite shr_nonneg by done.
  set (d := fexp prec emax (Zdigits2 m + e) - e) in *. simpl.
  unfold shifted_loc.
  destruct (Z.leb_spec d 0) as [Hle|Hgt].
  - assert (n = 0) as -> by lia.
    rewrite Z.pow_0_r, Z.div_1_r, shr_m_record_of_loc, loc_of_record_of_loc.
    simpl. split_and!; [done..|lia].
  - assert (n = d) as -> by lia.
    replace (d <=? 0) with false by (symmetry; apply Z.leb_gt; lia).
    simpl. split_and!; [done..|lia].
Qed.

Lemma binary_round_aux_fmt m e l :
  0 ≤ m →
  binary_round_aux prec emax false m e l = round_model_fmt prec emax m e l.
Proof.
  intros Hm. unfold binary_round_aux, round_model_fmt, renormalize_fmt.
  destruct (shr_fexp_fmt m e l Hm) as (H1 & H2 & H3).
  destruct (shr_fexp prec emax m e l) as [mrs' e'].
  simpl in H1, H2, H3. rewrite H1, H2, H3.
  set (n1 := Z.max 0 (fexp prec emax (Zdigits2 m + e) - e)) in *.
  set (m2 := round_nearest_even (m / 2 ^ n1) (shifted_loc m n1 l)).
  assert (0 ≤ m2) as Hm2.
  { pose proof (round_nearest_even_bounds (m / 2 ^ n1) (shifted_loc m n1 l)).
    assert (0 ≤ m / 2 ^ n1) by (apply Z.div_pos; [done|apply Z.pow_pos_nonneg; lia]).
    subst m2. lia. }
  destruct (shr_fexp_fmt m2 (e + n1) loc_Exact Hm2) as (H4 & _ & H6).
  destruct (shr_fexp prec emax m2 (e + n1) loc_Exact) as [mrs'' e''].
  simpl in H4, H6. rewrite H4, H6.
  set (n2 := Z.max 0 (fexp prec emax (Zdigits2 m2 + (e + n1)) - (e + n1))).
  assert (0 ≤ m2 / 2 ^ n2) as Hm3
    by (apply Z.div_pos; [done|apply Z.pow_pos_nonneg; lia]).
  destruct (m2 / 2 ^ n2) as [|p|p]; [reflexivity|reflexivity|lia].
Qed.

Lemma nonneg_round_model_fmt m e l :
  nonneg_number (round_model_fmt prec emax m e l) = true.
Proof.
  unfold round_model_fmt, renormalize_fmt. cbv zeta.
  destruct (_ / _); [done| |done]. by destruct (_ <=? _).
Qed.

Lemma renormalize_fits_fmt m e :
  fexp prec emax (Zdigits2 (Zpos m) + e) ≤ e → e ≤ emax - prec →
  renormalize_fmt prec emax (Zpos m) e = S754_finite false m e.
Proof.
  intros Hfit He. unfold renormalize_fmt.
  rewrite Z.max_l by lia. rewrite Z.pow_0_r, Z.div_1_r, Z.add_0_r.
  by rewrite (proj2 (Z.leb_le e (emax - prec))) by done.
Qed.

Lemma Zdigits2_pow2 k : 0 ≤ k → Zdigits2 (2 ^ k) = k + 1.
Proof.
  intros Hk. assert (0 < 2 ^ k) by (by apply pow2_pos).
  apply Zdigits2_unique; [|done].
  replace (k + 1 - 1) with k by lia.
  rewrite Z.pow_add_r, Z.pow_1_r by lia. lia.
Qed.

Lemma renormalize_carry_fmt e :
  3 - emax - prec ≤ e → e < emax - prec →
  ∃ p, Zpos p = 2 ^ (prec - 1) ∧
       renormalize_fmt prec emax (2 ^ prec) e = S754_finite false p (e + 1).
Proof.
  intros Hlo He. unfold renormalize_fmt.
  rewrite Zdigits2_pow2 by lia.
  replace (Z.max 0 (fexp prec emax (prec + 1 + e) - e)) with 1
    by (rewrite fexp_fmt; lia).
  assert (2 ^ prec / 2 ^ 1 = 2 ^ (prec - 1)) as ->.
  { replace prec with (prec - 1 + 1) at 1 by lia.
    rewrite Z.pow_add_r by lia. apply Z.div_mul. lia. }
  assert (0 < 2 ^ (prec - 1)) as Hp by (apply pow2_pos; lia).
  destruct (2 ^ (prec - 1)) as [|p|p] eqn:Hpp; try lia.
  exists p. split; [done|].
  by rewrite (proj2 (Z.leb_le (e + 1) (emax - prec))) by lia.
Qed.

Lemma round_model_fits_fmt m e :
  fexp prec emax (Zdigits2 (Zpos m) + e) ≤ e → e ≤ emax - prec →
  round_model_fmt prec emax (Zpos m) e loc_Exact = S754_finite false m e.
Proof.
  intros Hfit He. unfold round_model_fmt.
  rewrite Z.max_l by lia. rewrite Z.pow_0_r, Z.div_1_r, Z.add_0_r.
  unfold shifted_loc. simpl Z.leb. cbv iota.
  rewrite round_nearest_even_exact. by apply renormalize_fits_fmt.
Qed.

Lemma binary_round_fmt m e :
  binary_round prec emax false m e
  = round_model_fmt prec emax
      (Zpos m * 2 ^ (e - Z.min e (fexp prec emax (Zdigits2 (Zpos m) + e))))
      (Z.min e (fexp prec emax (Zdigits2 (Zpos m) + e))) loc_Exact.
Proof.
  unfold binary_round.
  destruct (shl_align_eq m e (fexp prec emax (Zpos (digits2_pos m) + e)))
    as [H2 H1].
  destruct (shl_align m e (fexp prec emax (Zpos (digits2_pos m) + e)))
    as [mz ez].
  simpl in H1, H2. rewrite binary_round_aux_fmt by lia.
  rewrite H1, H2. reflexivity.
Qed.

Lemma nonneg_binary_round_fmt m e :
  nonneg_number (binary_round prec emax false m e) = true.
Proof. rewrite binary_round_fmt. apply nonneg_round_model_fmt. Qed.

(** In the normal range [binary_round] returns a number with [prec] digits
    whose value is the rounded mantissa. *)
Lemma binary_round_normal m e :
  3 - emax - prec ≤ e →
  3 - emax ≤ Zdigits2 (Zpos m) + e ≤ emax - 1 →
  ∃ m' e',
    binary_round prec emax false m e = S754_finite false m' e' ∧
    Zdigits2 (Zpos m') = prec ∧
    Zdigits2 (Zpos m) + e - prec ≤ e' ≤ Zdigits2 (Zpos m) + e - prec + 1 ∧
    Zpos m' * 2 ^ (e' - emin prec emax)
    = rnd prec (Zpos m) * 2 ^ (e - emin prec emax).
Proof.
  intros He Hrange. rewrite binary_round_fmt, emin_fmt.
  set (d := Zdigits2 (Zpos m)) in *.
  pose proof (Zdigits2_pos (Zpos m) eq_refl) as Hd. fold d in Hd.
  destruct (Zdigits2_bounds (Zpos m) eq_refl) as [Hlo Hhi]. fold d in Hlo, Hhi.
  unfold rnd. fold d.
  replace (fexp prec emax (d + e)) with (d + e - prec) by (rewrite fexp_fmt; lia).
  destruct (Z.leb_spec (d - prec) 0) as [Hsmall|Hbig].
  - (* at most [prec] digits: exact *)
    rewrite Z.min_r by lia.
    replace (e - (d + e - prec)) with (prec - d) by lia.
    remember (Zpos m * 2 ^ (prec - d)) as mz eqn:Hmz.
    assert (Zdigits2 mz = prec) as Hdz.
    { rewrite Hmz, Zdigits2_shift by lia. fold d. lia. }
    assert (0 < mz) as Hmzpos.
    { assert (0 < 2 ^ (prec - d)) by (apply pow2_pos; lia). nia. }
    destruct mz as [|q|q]; try lia.
    rewrite round_model_fits_fmt
      by (try rewrite Hdz; try rewrite fexp_fmt; lia).
    exists q, (d + e - prec). split_and!; [done|done|lia|lia|].
    rewrite Hmz, <- Z.mul_assoc, <- Z.pow_add_r by lia. do 2 f_equal. lia.
  - (* more than [prec] digits: one rounding *)
    rewrite Z.min_l by lia. rewrite Z.sub_diag, Z.pow_0_r, Z.mul_1_r.
    unfold round_model_fmt. fold d.
    replace (Z.max 0 (fexp prec emax (d + e) - e)) with (d - prec)
      by (rewrite fexp_fmt; lia).
    set (n := d - prec) in *.
    set (m1 := Zpos m / 2 ^ n).
    assert (Zdigits2 m1 = prec) as Hdm1.
    { unfold m1. rewrite Zdigits2_div by (fold d; lia). fold d. lia. }
    assert (0 ≤ m1) as Hm1nn by (apply Z.div_pos; [lia|apply pow2_pos; lia]).
    assert (0 < m1) as Hm1 by (destruct m1; simpl in Hdm1; lia).
    destruct (Zdigits2_bounds m1 Hm1) as [Hm1lo Hm1hi].
    rewrite Hdm1 in Hm1lo, Hm1hi.
    remember (round_nearest_even m1 (shifted_loc (Zpos m) n loc_Exact)) as m2
      eqn:Hm2def.
    pose proof (round_nearest_even_bounds m1 (shifted_loc (Zpos m) n loc_Exact))
      as Hm2. rewrite <- Hm2def in Hm2.
    assert (0 < 2 ^ n) as Hpn by (apply pow2_pos; lia).
    destruct (decide (m2 = 2 ^ prec)) as [Hcarry|Hnocarry].
    + rewrite Hcarry.
      destruct (renormalize_carry_fmt (e + n)) as (p & Hp & ->); [lia..|].
      exists p, (e + n + 1). split_and!; [done| |lia|lia|].
      * rewrite Hp. rewrite Zdigits2_pow2 by lia. lia.
      * rewrite Hp, <- !Z.pow_add_r by lia. f_equal. lia.
    + assert (Zdigits2 m2 = prec) as Hdm2.
      { apply Zdigits2_unique; lia. }
      destruct m2 as [|q|q]; try lia.
      rewrite renormalize_fits_fmt
        by (try rewrite Hdm2; try rewrite fexp_fmt; lia).
      exists q, (e + n). split_and!; [done|done|lia|lia|].
      rewrite <- Z.mul_assoc, <- Z.pow_add_r by lia. do 2 f_equal. lia.
Qed.

(** *** Rounding of integers *)

Lemma rnd_small z : Zdigits2 z ≤ prec → rnd prec z = z.
Proof.
  intros Hd. unfold rnd.
  by rewrite (proj2 (Z.leb_le (Zdigits2 z - prec) 0)) by lia.
Qed.

Lemma rnd_0 : rnd prec 0 = 0.
Proof. apply rnd_small. simpl. lia. Qed.

Lemma rnd_bounds z :
  0 < z → 2 ^ (Zdigits2 z - 1) ≤ rnd prec z ≤ 2 ^ Zdigits2 z.
Proof.
  intros Hz. destruct (Zdigits2_bounds z Hz) as [Hlo Hhi].
  unfold rnd. set (d := Zdigits2 z) in *.
  destruct (Z.leb_spec (d - prec) 0) as [Hsmall|Hbig]; [lia|].
  set (n := d - prec) in *.
  assert (0 < 2 ^ n) as Hpn by (apply pow2_pos; lia).
  assert (Zdigits2 (z / 2 ^ n) = prec) as Hd1.
  { rewrite Zdigits2_div by (fold d; lia). fold d. lia. }
  assert (0 ≤ z / 2 ^ n) as Hnn by (apply Z.div_pos; lia).
  assert (0 < z / 2 ^ n) as Hpos by (destruct (z / 2 ^ n); simpl in Hd1; lia).
  destruct (Zdigits2_bounds _ Hpos) as [H1lo H1hi]. rewrite Hd1 in H1lo, H1hi.
  pose proof (round_nearest_even_bounds (z / 2 ^ n) (shifted_loc z n loc_Exact))
    as Hb.
  assert (2 ^ (d - 1) = 2 ^ (prec - 1) * 2 ^ n) as ->
    by (rewrite <- Z.pow_add_r by lia; f_equal; lia).
  assert (2 ^ d = 2 ^ prec * 2 ^ n) as ->
    by (rewrite <- Z.pow_add_r by lia; f_equal; lia).
  split; apply Z.mul_le_mono_nonneg_r; lia.
Qed.

Lemma rnd_mono z z' : 0 ≤ z ≤ z' → rnd prec z ≤ rnd prec z'.
Proof.
  intros [Hz Hle].
  destruct (decide (z = 0)) as [->|Hz0].
  { rewrite rnd_0. destruct (decide (z' = 0)) as [->|]; [by rewrite rnd_0|].
    destruct (rnd_bounds z') as [Hlo _]; [lia|].
    assert (0 < 2 ^ (Zdigits2 z' - 1)); [|lia].
    apply pow2_pos. pose proof (Zdigits2_pos z'). lia. }
  assert (0 < z) as Hzpos by lia.
  pose proof (Zdigits2_mono z z' (conj Hzpos Hle)) as Hd.
  pose proof (Zdigits2_pos z Hzpos) as Hdpos.
  destruct (decide (Zdigits2 z = Zdigits2 z')) as [Heq|Hne].
  - unfold rnd. rewrite <- Heq.
    set (n := Zdigits2 z - prec).
    destruct (Z.leb_spec n 0) as [Hsmall|Hbig]; [done|].
    rewrite !shifted_loc_compare by done.
    assert (0 < 2 ^ n) as Hpn by (apply pow2_pos; lia).
    assert (0 < 2 ^ (n - 1)) as Hph by (apply pow2_pos; lia).
    apply Z.mul_le_mono_nonneg_r; [lia|].
    pose proof (Z.div_le_mono z z' (2 ^ n) Hpn Hle) as Hq.
    pose proof (Z.mod_pos_bound z (2 ^ n) Hpn) as Hr.
    pose proof (Z.mod_pos_bound z' (2 ^ n) Hpn) as Hr'.
    pose proof (Z.div_mod z (2 ^ n)) as Hdm.
    pose proof (Z.div_mod z' (2 ^ n)) as Hdm'.
    destruct (decide (z / 2 ^ n = z' / 2 ^ n)) as [Hqeq|Hqne].
    + rewrite <- Hqeq. apply round_up_monotone; [done|]. nia.
    + pose proof (round_nearest_even_bounds (z / 2 ^ n)
        (if z mod 2 ^ n =? 0 then loc_Exact
         else loc_Inexact (z mod 2 ^ n ?= 2 ^ (n - 1)))).
      pose proof (round_nearest_even_bounds (z' / 2 ^ n)
        (if z' mod 2 ^ n =? 0 then loc_Exact
         else loc_Inexact (z' mod 2 ^ n ?= 2 ^ (n - 1)))).
      lia.
  - destruct (rnd_bounds z Hzpos) as [_ Hhi].
    destruct (rnd_bounds z') as [Hlo' _]; [lia|].
    assert (2 ^ Zdigits2 z ≤ 2 ^ (Zdigits2 z' - 1))
      by (apply Z.pow_le_mono_r; lia).
    lia.
Qed.

(** Rounding does not see trailing zeros. *)
Lemma rnd_shift z k : 0 ≤ z → 0 ≤ k → rnd prec (z * 2 ^ k) = rnd prec z * 2 ^ k.
Proof.
  intros Hz Hk. destruct (decide (z = 0)) as [->|Hz0].
  { by rewrite Z.mul_0_l, rnd_0. }
  assert (0 < z) as Hzpos by lia.
  assert (0 < 2 ^ k) as Hpk by (by apply pow2_pos).
  pose proof (Zdigits2_pos z Hzpos) as Hd.
  unfold rnd. rewrite Zdigits2_shift by done.
  set (d := Zdigits2 z) in *.
  destruct (Z.leb_spec (d - prec) 0) as [Hsmall|Hbig].
  - destruct (Z.leb_spec (d + k - prec) 0) as [Hs2|Hb2]; [done|].
    set (n := d + k - prec) in *.
    assert (z * 2 ^ k = z * 2 ^ (k - n) * 2 ^ n) as Hsplit.
    { rewrite <- Z.mul_assoc, <- Z.pow_add_r by lia. do 2 f_equal. lia. }
    assert (0 < 2 ^ n) as Hpn by (apply pow2_pos; lia).
    rewrite shifted_loc_exact.
    + rewrite round_nearest_even_exact. rewrite Hsplit at 1.
      rewrite Z.div_mul by lia. lia.
    + rewrite Z.max_r by lia. rewrite Hsplit. apply Z.mod_mul. lia.
  - replace (d + k - prec <=? 0) with false
      by (symmetry; apply Z.leb_gt; lia).
    set (n := d - prec) in *.
    replace (d + k - prec) with (n + k) by lia.
    assert (0 < 2 ^ n) as Hpn by (apply pow2_pos; lia).
    assert (0 < 2 ^ (n - 1)) as Hph by (apply pow2_pos; lia).
    assert (z * 2 ^ k / 2 ^ (n + k) = z / 2 ^ n) as Hq.
    { rewrite Z.pow_add_r by lia. rewrite Z.div_mul_cancel_r by lia. done. }
    assert ((z * 2 ^ k) mod 2 ^ (n + k) = z mod 2 ^ n * 2 ^ k) as Hr.
    { rewrite Z.pow_add_r by lia. rewrite Z.mul_mod_distr_r by lia. done. }
    rewrite !shifted_loc_compare by lia.
    rewrite Hq, Hr.
    replace (n + k - 1) with (n - 1 + k) by lia.
    rewrite (Z.pow_add_r 2 (n - 1) k) by lia.
    pose proof (Z.mod_pos_bound z (2 ^ n) Hpn) as Hb.
    assert ((z mod 2 ^ n * 2 ^ k =? 0) = (z mod 2 ^ n =? 0)) as ->.
    { destruct (Z.eqb_spec (z mod 2 ^ n) 0) as [->|Hne]; [done|].
      apply Z.eqb_neq. nia. }
    assert ((z mod 2 ^ n * 2 ^ k ?= 2 ^ (n - 1) * 2 ^ k)
            = (z mod 2 ^ n ?= 2 ^ (n - 1))) as ->.
    { destruct (Z.compare_spec (z mod 2 ^ n) (2 ^ (n - 1))) as [->|Hlt|Hgt].
      - apply Z.compare_refl.
      - apply Z.compare_lt_iff. nia.
      - apply Z.compare_gt_iff. nia. }
    rewrite Z.pow_add_r by lia. lia.
Qed.

(** Integers with at most [prec] significant digits are kept. *)
Lemma rnd_exact z k :
  0 ≤ z ≤ 2 ^ prec → 0 ≤ k → rnd prec (z * 2 ^ k) = z * 2 ^ k.
Proof.
  intros [Hz Hle] Hk. rewrite rnd_shift by done. f_equal.
  destruct (decide (z = 2 ^ prec)) as [->|Hne].
  - replace (2 ^ prec) with (1 * 2 ^ prec) by lia.
    rewrite rnd_shift by lia. rewrite rnd_small; [done|].
    simpl. lia.
  - apply rnd_small. apply Zdigits2_le; lia.
Qed.

(** *** Values of regular numbers *)

Lemma regular_cases x :
  regular prec emax x = true →
  x = S754_zero false ∨
  ∃ m e, x = S754_finite false m e ∧ Zdigits2 (Zpos m) = prec ∧
         emin prec emax ≤ e ≤ emax - prec.
Proof.
  destruct x as [[|]|[|]| |[|] m e]; try discriminate; intros H;
    [by left|right].
  simpl in H. apply andb_prop in H as [H H3]. apply andb_prop in H as [H1 H2].
  exists m, e. split_and!; [done|by apply Z.eqb_eq|by apply Z.leb_le..].
Qed.

Lemma regular_finite m e :
  Zdigits2 (Zpos m) = prec → emin prec emax ≤ e ≤ emax - prec →
  regular prec emax (S754_finite false m e) = true.
Proof.
  intros Hd [Hlo Hhi]. unfold regular.
  rewrite (proj2 (Z.eqb_eq _ _) Hd), (proj2 (Z.leb_le _ _) Hlo),
    (proj2 (Z.leb_le _ _) Hhi). reflexivity.
Qed.

Lemma regular_nonneg x : regular prec emax x = true → nonneg_number x = true.
Proof. by destruct x as [[|]|[|]| |[|] m e]. Qed.

Lemma value_nonneg x : 0 ≤ value prec emax x.
Proof.
  destruct x as [[|]|[|]| |[|] m e]; simpl; try lia.
  all: apply Z.mul_nonneg_nonneg; [lia|]; apply Z.pow_nonneg; lia.
Qed.

Lemma value_finite_bounds m e :
  Zdigits2 (Zpos m) = prec → emin prec emax ≤ e →
  2 ^ (prec - 1 + (e - emin prec emax))
  ≤ value prec emax (S754_finite false m e)
  < 2 ^ (prec + (e - emin prec emax)).
Proof.
  intros Hd He. simpl.
  destruct (Zdigits2_bounds (Zpos m) eq_refl) as [Hlo Hhi].
  rewrite Hd in Hlo, Hhi.
  assert (0 < 2 ^ (e - emin prec emax)) by (apply pow2_pos; lia).
  rewrite !Z.pow_add_r by lia. nia.
Qed.

Lemma value_regular_rnd x :
  regular prec emax x = true →
  rnd prec (value prec emax x) = value prec emax x.
Proof.
  intros [->|(m & e & -> & Hd & He)]%regular_cases; [apply rnd_0|].
  simpl. apply rnd_exact; [|lia].
  destruct (Zdigits2_bounds (Zpos m) eq_refl) as [_ Hhi].
  rewrite Hd in Hhi. lia.
Qed.

(** Regular numbers are determined by their values. *)
Lemma regular_unique x y :
  regular prec emax x = true → regular prec emax y = true →
  value prec emax x = value prec emax y → x = y.
Proof.
  intros [->|(m & e & -> & Hd & He)]%regular_cases
         [->|(m' & e' & -> & Hd' & He')]%regular_cases Hv; [done| | |].
  - pose proof (value_finite_bounds m' e' Hd' (proj1 He')) as [Hlo _].
    assert (0 < 2 ^ (prec - 1 + (e' - emin prec emax)))
      by (apply pow2_pos; lia).
    simpl in Hv, Hlo. lia.
  - pose proof (value_finite_bounds m e Hd (proj1 He)) as [Hlo _].
    assert (0 < 2 ^ (prec - 1 + (e - emin prec emax)))
      by (apply pow2_pos; lia).
    simpl in Hv, Hlo. lia.
  - pose proof (value_finite_bounds m e Hd (proj1 He)) as [Hlo Hhi].
    pose proof (value_finite_bounds m' e' Hd' (proj1 He')) as [Hlo' Hhi'].
    rewrite Hv in Hlo, Hhi.
    assert (e = e') as <-.
    { destruct (Z.lt_trichotomy e e') as [Hlt|[?|Hgt]]; [|done|].
      - assert (2 ^ (prec + (e - emin prec emax))
                ≤ 2 ^ (prec - 1 + (e' - emin prec emax)))
          by (apply Z.pow_le_mono_r; lia). lia.
      - assert (2 ^ (prec + (e' - emin prec emax))
                ≤ 2 ^ (prec - 1 + (e - emin prec emax)))
          by (apply Z.pow_le_mono_r; lia). lia. }
    simpl in Hv.
    assert (0 < 2 ^ (e - emin prec emax)) by (apply pow2_pos; lia).
    assert (Zpos m = Zpos m') as [= ->] by nia. done.
Qed.

(** The order on regular numbers is the order of their values. *)
Lemma regular_le x y :
  regular prec emax x = true → regular prec emax y = true →
  SFleb x y = true ↔ value prec emax x ≤ value prec emax y.
Proof.
  intros [->|(m & e & -> & Hd & He)]%regular_cases
         [->|(m' & e' & -> & Hd' & He')]%regular_cases.
  - done.
  - split; [intros _|done]. apply value_nonneg.
  - pose proof (value_finite_bounds m e Hd (proj1 He)) as [Hlo _].
    assert (0 < 2 ^ (prec - 1 + (e - emin prec emax)))
      by (apply pow2_pos; lia).
    split; [discriminate|]. simpl in *. lia.
  - pose proof (value_finite_bounds m e Hd (proj1 He)) as [Hlo Hhi].
    pose proof (value_finite_bounds m' e' Hd' (proj1 He')) as [Hlo' Hhi'].
    unfold SFleb, SFcompare.
    destruct (Z.compare_spec e e') as [->|Hlt|Hgt].
    + rewrite Pos.compare_cont_spec. simpl Pos.switch_Eq. simpl value.
      assert (0 < 2 ^ (e' - emin prec emax)) by (apply pow2_pos; lia).
      destruct (Pos.compare_spec m m') as [->|Hm|Hm].
      * split; [lia|done].
      * split; [intros _; nia|done].
      * split; [discriminate|]. intros Hle. nia.
    + assert (2 ^ (prec + (e - emin prec emax))
              ≤ 2 ^ (prec - 1 + (e' - emin prec emax)))
        by (apply Z.pow_le_mono_r; lia).
      split; [lia|done].
    + assert (2 ^ (prec + (e' - emin prec emax))
              ≤ 2 ^ (prec - 1 + (e - emin prec emax)))
        by (apply Z.pow_le_mono_r; lia).
      split; [discriminate|lia].
Qed.

(** *** Conversion, addition, subtraction *)

Lemma of_int_regular z :
  0 ≤ z < 2 ^ (emax - 1) →
  regular prec emax (binary_normalize prec emax z 0 false) = true ∧
  value prec emax (binary_normalize prec emax z 0 false)
  = rnd prec z * 2 ^ (- emin prec emax).
Proof.
  intros [Hz Hlt]. destruct z as [|p|p]; [|clear Hz|lia].
  { split; [done|]. by rewrite rnd_0. }
  unfold binary_normalize.
  assert (0 < Zdigits2 (Zpos p)) as Hd by (by apply Zdigits2_pos).
  assert (Zdigits2 (Zpos p) ≤ emax - 1) as Hd' by (apply Zdigits2_le; lia).
  destruct (binary_round_normal p 0) as (m' & e' & -> & Hdm & He' & Hv);
    [lia..|].
  rewrite emin_fmt in *. split.
  - apply regular_finite; [done|]. rewrite emin_fmt. lia.
  - simpl value. rewrite emin_fmt, Hv. f_equal.
Qed.

(** Adding two regular numbers rounds the sum of their values. *)
Lemma add_regular x y :
  regular prec emax x = true → regular prec emax y = true →
  value prec emax x + value prec emax y < 2 ^ (emax - 1 - emin prec emax) →
  regular prec emax (SFadd prec emax x y) = true ∧
  value prec emax (SFadd prec emax x y)
  = rnd prec (value prec emax x + value prec emax y).
Proof.
  intros Hx Hy Hsum.
  destruct (regular_cases x Hx) as [->|(mx & ex & -> & Hdx & Hex)];
    destruct (regular_cases y Hy) as [->|(my & ey & -> & Hdy & Hey)].
  - split; [done|]. symmetry. exact rnd_0.
  - split; [done|]. rewrite Z.add_0_l. symmetry. by apply value_regular_rnd.
  - split; [done|]. change (value prec emax (S754_zero false)) with 0.
    rewrite Z.add_0_r. symmetry. by apply value_regular_rnd.
  - unfold SFadd, cond_Zopp.
    set (ez := Z.min ex ey).
    destruct (shl_align_eq mx ex ez) as [_ Hmx].
    destruct (shl_align_eq my ey ez) as [_ Hmy].
    rewrite (Z.min_r ex ez) in Hmx by (unfold ez; lia).
    rewrite (Z.min_r ey ez) in Hmy by (unfold ez; lia).
    destruct (shl_align mx ex ez) as [mx' ex'].
    destruct (shl_align my ey ez) as [my' ey']. simpl fst in *.
    change (Zpos mx' + Zpos my') with (Zpos (mx' + my')).
    unfold binary_normalize.
    rewrite emin_fmt in *.
    assert (0 < 2 ^ (ez - (3 - emax - prec))) as HP
      by (apply pow2_pos; unfold ez; lia).
    assert (Zpos (mx' + my') * 2 ^ (ez - (3 - emax - prec))
            = value prec emax (S754_finite false mx ex)
              + value prec emax (S754_finite false my ey)) as HS.
    { simpl value. rewrite emin_fmt, Pos2Z.inj_add, Hmx, Hmy.
      rewrite Z.mul_add_distr_r, <- !Z.mul_assoc, <- !Z.pow_add_r
        by (unfold ez; lia).
      f_equal; do 2 f_equal; lia. }
    assert (Zdigits2 (Zpos (mx' + my')) ≤ emax - 1 - ez) as Hup.
    { apply Zdigits2_le; [lia|unfold ez; lia|].
      rewrite <- HS in Hsum.
      replace (emax - 1 - (3 - emax - prec))
        with (emax - 1 - ez + (ez - (3 - emax - prec))) in Hsum by lia.
      rewrite Z.pow_add_r in Hsum by (unfold ez; lia). nia. }
    assert (prec + (ex - ez) ≤ Zdigits2 (Zpos (mx' + my'))) as Hlo.
    { rewrite <- Hdx, <- Zdigits2_shift, <- Hmx by (unfold ez; lia).
      apply Zdigits2_mono. lia. }
    destruct (binary_round_normal (mx' + my') ez) as (m' & e' & -> & Hdm & He' & Hv);
      [unfold ez; lia..|].
    rewrite emin_fmt in Hv. split.
    + apply regular_finite; [done|]. rewrite emin_fmt. unfold ez in *. lia.
    + simpl value at 1. rewrite emin_fmt, Hv, <- HS.
      symmetry. apply rnd_shift; [lia|unfold ez; lia].
Qed.

(** Subtracting a regular number from one that is no smaller gives a
    number that is not negative; subtracting it from itself gives [+0]. *)
Lemma sub_regular x y :
  regular prec emax x = true → regular prec emax y = true →
  value prec emax y ≤ value prec emax x →
  nonneg_number (SFsub prec emax x y) = true ∧
  (value prec emax x = value prec emax y →
   SFsub prec emax x y = S754_zero false).
Proof.
  intros Hx Hy Hle.
  destruct (regular_cases x Hx) as [->|(mx & ex & -> & Hdx & Hex)];
    destruct (regular_cases y Hy) as [->|(my & ey & -> & Hdy & Hey)].
  - done.
  - pose proof (value_finite_bounds my ey Hdy (proj1 Hey)) as [Hlo _].
    assert (0 < 2 ^ (prec - 1 + (ey - emin prec emax)))
      by (apply pow2_pos; lia).
    simpl in Hle, Hlo. lia.
  - split; [done|]. intros Hv.
    pose proof (value_finite_bounds mx ex Hdx (proj1 Hex)) as [Hlo _].
    assert (0 < 2 ^ (prec - 1 + (ex - emin prec emax)))
      by (apply pow2_pos; lia).
    simpl in Hv, Hlo. lia.
  - unfold SFsub, cond_Zopp.
    set (ez := Z.min ex ey).
    destruct (shl_align_eq mx ex ez) as [_ Hmx].
    destruct (shl_align_eq my ey ez) as [_ Hmy].
    rewrite (Z.min_r ex ez) in Hmx by (unfold ez; lia).
    rewrite (Z.min_r ey ez) in Hmy by (unfold ez; lia).
    destruct (shl_align mx ex ez) as [mx' ex'].
    destruct (shl_align my ey ez) as [my' ey']. simpl fst in *.
    rewrite emin_fmt in *.
    assert (0 < 2 ^ (ez - (3 - emax - prec))) as HP
      by (apply pow2_pos; unfold ez; lia).
    assert (value prec emax (S754_finite false mx ex)
            = Zpos mx' * 2 ^ (ez - (3 - emax - prec))) as Hvx.
    { simpl value. rewrite emin_fmt, Hmx, <- Z.mul_assoc, <- Z.pow_add_r
        by (unfold ez; lia). do 2 f_equal. lia. }
    assert (value prec emax (S754_finite false my ey)
            = Zpos my' * 2 ^ (ez - (3 - emax - prec))) as Hvy.
    { simpl value. rewrite emin_fmt, Hmy, <- Z.mul_assoc, <- Z.pow_add_r
        by (unfold ez; lia). do 2 f_equal. lia. }
    rewrite Hvx, Hvy in *.
    assert (Zpos my' ≤ Zpos mx') as Hm by nia.
    destruct (Zpos mx' - Zpos my') as [|d|d] eqn:Hd; [| |lia].
    + split; reflexivity.
    + split; [apply nonneg_binary_round_fmt|]. intros Hv. nia.
Qed.

(** *** Products and quotients are not negative *)

Lemma mul_nonneg x my ey :
  nonneg_number x = true →
  nonneg_number (SFmul prec emax x (S754_finite false my ey)) = true.
Proof.
  destruct x as [[|]|[|]| |[|] mx ex]; try discriminate; intros _;
    try reflexivity.
  unfold SFmul. simpl xorb. rewrite binary_round_aux_fmt by lia.
  apply nonneg_round_model_fmt.
Qed.

Lemma div_nonneg mx ex y :
  nonneg_number y = true →
  nonneg_number (SFdiv prec emax (S754_finite false mx ex) y) = true.
Proof.
  destruct y as [[|]|[|]| |[|] my ey]; try discriminate; intros _;
    try reflexivity.
  unfold SFdiv, SFdiv_core_binary. rewrite div_eucl_div_mod. simpl xorb.
  rewrite binary_round_aux_fmt; [apply nonneg_round_model_fmt|].
  apply Z.div_pos; [|lia].
  destruct (_ - _ - _) as [|q|q]; [lia| |lia].
  rewrite Z.shiftl_mul_pow2 by lia.
  apply Z.mul_nonneg_nonneg; [lia|]. apply Z.pow_nonneg. lia.
Qed.

(** *** Sums, products and quotients in the normal range *)

Lemma round_model_normal m e l :
  0 < m → prec ≤ Zdigits2 m →
  3 - emax ≤ Zdigits2 m + e ≤ emax - 1 →
  ∃ m' e',
    round_model_fmt prec emax m e l = S754_finite false m' e' ∧
    Zdigits2 (Zpos m') = prec ∧
    Zdigits2 m + e - prec ≤ e' ≤ Zdigits2 m + e - prec + 1.
Proof.
  intros Hm Hprec Hrange. unfold round_model_fmt.
  set (d := Zdigits2 m) in *.
  replace (Z.max 0 (fexp prec emax (d + e) - e)) with (d - prec)
    by (rewrite fexp_fmt; lia).
  set (n := d - prec) in *.
  set (m1 := m / 2 ^ n).
  assert (0 < 2 ^ n) as Hpn by (apply pow2_pos; lia).
  assert (Zdigits2 m1 = prec) as Hdm1.
  { unfold m1. rewrite Zdigits2_div by (fold d; lia). fold d. lia. }
  assert (0 ≤ m1) as Hm1nn by (apply Z.div_pos; lia).
  assert (0 < m1) as Hm1 by (destruct m1; simpl in Hdm1; lia).
  destruct (Zdigits2_bounds m1 Hm1) as [Hm1lo Hm1hi].
  rewrite Hdm1 in Hm1lo, Hm1hi.
  remember (round_nearest_even m1 (shifted_loc m n l)) as m2 eqn:Hm2def.
  pose proof (round_nearest_even_bounds m1 (shifted_loc m n l)) as Hm2.
  rewrite <- Hm2def in Hm2.
  destruct (decide (m2 = 2 ^ prec)) as [Hcarry|Hnocarry].
  - rewrite Hcarry.
    destruct (renormalize_carry_fmt (e + n)) as (p & Hp & ->); [lia..|].
    exists p, (e + n + 1). split_and!; [done| |lia..].
    rewrite Hp, Zdigits2_pow2 by lia. lia.
  - assert (Zdigits2 m2 = prec) as Hdm2 by (apply Zdigits2_unique; lia).
    destruct m2 as [|q|q]; try lia.
    rewrite renormalize_fits_fmt
      by (try rewrite Hdm2; try rewrite fexp_fmt; lia).
    exists q, (e + n). split_and!; [done|done|lia..].
Qed.

Lemma of_int_normal z :
  0 < z < 2 ^ (emax - 1) →
  ∃ m e,
    binary_normalize prec emax z 0 false = S754_finite false m e ∧
    Zdigits2 (Zpos m) = prec ∧
    Zdigits2 z - prec ≤ e ≤ Zdigits2 z - prec + 1 ∧
    Zpos m * 2 ^ (e - emin prec emax) = rnd prec z * 2 ^ (- emin prec emax).
Proof.
  intros [Hz Hlt]. destruct z as [|p|p]; try lia.
  unfold binary_normalize.
  assert (0 < Zdigits2 (Zpos p)) as Hd by (by apply Zdigits2_pos).
  assert (Zdigits2 (Zpos p) ≤ emax - 1) as Hd' by (apply Zdigits2_le; lia).
  destruct (binary_round_normal p 0) as (m' & e' & -> & Hdm & He' & Hv);
    [lia..|].
  exists m', e'. split_and!; [done|done|lia|lia|].
  rewrite Hv. f_equal.
Qed.

Lemma sub_normal mx ex my ey :
  Zdigits2 (Zpos mx) = prec → Zdigits2 (Zpos my) = prec →
  2 - emax ≤ ex ≤ emax - prec - 1 → 2 - emax ≤ ey →
  value prec emax (S754_finite false my ey)
  < value prec emax (S754_finite false mx ex) →
  ∃ m' e',
    SFsub prec emax (S754_finite false mx ex) (S754_finite false my ey)
    = S754_finite false m' e' ∧
    Zdigits2 (Zpos m') = prec ∧
    Z.min ex ey + 1 - prec ≤ e' ≤ ex + 1.
Proof.
  intros Hdx Hdy Hex Hey Hlt.
  unfold SFsub, cond_Zopp.
  set (ez := Z.min ex ey).
  destruct (shl_align_eq mx ex ez) as [_ Hmx].
  destruct (shl_align_eq my ey ez) as [_ Hmy].
  rewrite (Z.min_r ex ez) in Hmx by (unfold ez; lia).
  rewrite (Z.min_r ey ez) in Hmy by (unfold ez; lia).
  destruct (shl_align mx ex ez) as [mx' ex'].
  destruct (shl_align my ey ez) as [my' ey']. simpl fst in *.
  simpl value in Hlt. rewrite emin_fmt in Hlt.
  assert (0 < 2 ^ (ez - (3 - emax - prec))) as HP
    by (apply pow2_pos; unfold ez; lia).
  assert (Zpos mx * 2 ^ (ex - (3 - emax - prec))
          = Zpos mx' * 2 ^ (ez - (3 - emax - prec))) as Hvx.
  { rewrite Hmx, <- Z.mul_assoc, <- Z.pow_add_r by (unfold ez; lia).
    do 2 f_equal. lia. }
  assert (Zpos my * 2 ^ (ey - (3 - emax - prec))
          = Zpos my' * 2 ^ (ez - (3 - emax - prec))) as Hvy.
  { rewrite Hmy, <- Z.mul_assoc, <- Z.pow_add_r by (unfold ez; lia).
    do 2 f_equal. lia. }
  rewrite Hvx, Hvy in Hlt.
  assert (Zpos my' < Zpos mx') as Hm by nia.
  destruct (Zpos mx' - Zpos my') as [|d|d] eqn:Hd; [lia| |lia].
  unfold binary_normalize.
  assert (Zdigits2 (Zpos d) ≤ prec + (ex - ez)) as Hup.
  { rewrite <- Hdx, <- Zdigits2_shift, <- Hmx by (unfold ez; lia).
    apply Zdigits2_mono. lia. }
  pose proof (Zdigits2_pos (Zpos d) eq_refl) as Hlo.
  destruct (binary_round_normal d ez) as (m' & e' & -> & Hdm & He' & _);
    [unfold ez; lia..|].
  exists m', e'. split_and!; [done|done|unfold ez in *; lia..].
Qed.

Lemma mul_normal mx ex my ey :
  Zdigits2 (Zpos mx) = prec → Zdigits2 (Zpos my) = prec →
  4 - emax - 2 * prec ≤ ex + ey ≤ emax - 1 - 2 * prec →
  ∃ m' e',
    SFmul prec emax (S754_finite false mx ex) (S754_finite false my ey)
    = S754_finite false m' e' ∧
    Zdigits2 (Zpos m') = prec ∧
    prec - 1 + ex + ey ≤ e' ≤ prec + ex + ey + 1.
Proof.
  intros Hdx Hdy Hrange. unfold SFmul. simpl xorb.
  rewrite binary_round_aux_fmt by lia.
  destruct (Zdigits2_bounds (Zpos mx) eq_refl) as [Hxlo Hxhi].
  destruct (Zdigits2_bounds (Zpos my) eq_refl) as [Hylo Hyhi].
  rewrite Hdx in Hxlo, Hxhi. rewrite Hdy in Hylo, Hyhi.
  assert (0 < 2 ^ (prec - 1)) as Hp1 by (apply pow2_pos; lia).
  assert (0 < 2 ^ prec) as Hp by (apply pow2_pos; lia).
  assert (2 * prec - 1 ≤ Zdigits2 (Zpos (mx * my))) as Hdlo.
  { assert (2 * prec - 2 < Zdigits2 (Zpos (mx * my))); [|lia].
    apply Zdigits2_ge; [lia|].
    replace (2 * prec - 2) with (prec - 1 + (prec - 1)) by lia.
    rewrite Z.pow_add_r, Pos2Z.inj_mul by lia. nia. }
  assert (Zdigits2 (Zpos (mx * my)) ≤ 2 * prec) as Hdhi.
  { apply Zdigits2_le; [lia..|].
    replace (2 * prec) with (prec + prec) by lia.
    rewrite Z.pow_add_r, Pos2Z.inj_mul by lia. nia. }
  destruct (round_model_normal (Zpos (mx * my)) (ex + ey) loc_Exact)
    as (m' & e' & -> & Hdm & He'); [lia..|].
  exists m', e'. split_and!; [done|done|lia..].
Qed.

Lemma SFdiv_core_binary_fmt ma ea mb eb :
  let e' := Z.min (fexp prec emax (Zdigits2 (Zpos ma) + ea
                                   - (Zdigits2 (Zpos mb) + eb)))
                  (ea - eb) in
  let s := ea - eb - e' in
  SFdiv_core_binary prec emax (Zpos ma) ea (Zpos mb) eb
  = (Zpos ma * 2 ^ s / Zpos mb, e',
     new_location (Zpos mb) ((Zpos ma * 2 ^ s) mod Zpos mb)).
Proof.
  intros e' s. unfold SFdiv_core_binary.
  fold e'. fold s.
  assert (0 ≤ s) as Hs by (unfold s, e'; lia).
  assert ((match s with
           | 0 => Zpos ma
           | Zpos _ => Z.shiftl (Zpos ma) s
           | Zneg _ => 0
           end) = Zpos ma * 2 ^ s) as ->.
  { destruct s as [|p|p] eqn:Hseq; [simpl; lia| |lia].
    by rewrite Z.shiftl_mul_pow2 by lia. }
  by rewrite div_eucl_div_mod.
Qed.

Lemma div_normal mx ex my ey :
  Zdigits2 (Zpos mx) = prec → Zdigits2 (Zpos my) = prec →
  3 - emax ≤ ex - ey ≤ emax - 2 →
  ∃ m' e',
    SFdiv prec emax (S754_finite false mx ex) (S754_finite false my ey)
    = S754_finite false m' e' ∧
    Zdigits2 (Zpos m') = prec ∧
    ex - ey - prec ≤ e' ≤ ex - ey - prec + 2.
Proof.
  intros Hdx Hdy Hrange. unfold SFdiv.
  rewrite SFdiv_core_binary_fmt. cbv zeta. rewrite Hdx, Hdy.
  replace (Z.min (fexp prec emax (prec + ex - (prec + ey))) (ex - ey))
    with (ex - ey - prec) by (rewrite fexp_fmt; lia).
  replace (ex - ey - (ex - ey - prec)) with prec by lia.
  destruct (Zdigits2_bounds (Zpos mx) eq_refl) as [Hxlo Hxhi].
  destruct (Zdigits2_bounds (Zpos my) eq_refl) as [Hylo Hyhi].
  rewrite Hdx in Hxlo, Hxhi. rewrite Hdy in Hylo, Hyhi.
  assert (0 < 2 ^ (prec - 1)) as Hp1 by (apply pow2_pos; lia).
  assert (2 ^ prec = 2 * 2 ^ (prec - 1)) as Hp.
  { rewrite <- Z.pow_succ_r by lia. f_equal. lia. }
  set (q := Zpos mx * 2 ^ prec / Zpos my).
  assert (2 ^ (prec - 1) ≤ q) as Hqlo.
  { apply Z.div_le_lower_bound; [lia|nia]. }
  assert (q < 2 ^ (prec + 1)) as Hqhi.
  { apply Z.div_lt_upper_bound; [lia|].
    rewrite Z.pow_add_r by lia. change (2 ^ 1) with 2. nia. }
  assert (prec ≤ Zdigits2 q) as Hdlo.
  { assert (prec - 1 < Zdigits2 q) by (apply Zdigits2_ge; lia). lia. }
  assert (Zdigits2 q ≤ prec + 1) as Hdhi by (apply Zdigits2_le; lia).
  simpl xorb. rewrite binary_round_aux_fmt by lia.
  destruct (round_model_normal q (ex - ey - prec)
              (new_location (Zpos my) ((Zpos mx * 2 ^ prec) mod Zpos my)))
    as (m' & e' & -> & Hdm & He'); [lia..|].
  exists m', e'. split_and!; [done|done|lia..].
Qed.

(** *** Repeated addition *)

(** As long as every partial sum has at most [prec] digits, adding a
    number to itself is exact. *)
Lemma iter_add_exact x k j n :
  regular prec emax x = true → 0 ≤ k → 0 ≤ j →
  value prec emax x = k * 2 ^ j →
  Z.of_nat n * k ≤ 2 ^ prec →
  Z.of_nat n * value prec emax x < 2 ^ (emax - 1 - emin prec emax) →
  regular prec emax (Nat.iter n (λ a, SFadd prec emax a x) (S754_zero false))
  = true ∧
  value prec emax (Nat.iter n (λ a, SFadd prec emax a x) (S754_zero false))
  = Z.of_nat n * value prec emax x.
Proof.
  intros Hx Hk Hj Hv. pose proof (value_nonneg x) as Hnn.
  induction n as [|n IH]; intros Hdig Hov; [by split|].
  destruct IH as [IHr IHv]; [nia..|].
  rewrite Nat.iter_succ.
  destruct (add_regular _ x IHr Hx) as [Hr Hval]; [rewrite IHv; nia|].
  split; [exact Hr|]. rewrite Hval, IHv, Hv.
  replace (Z.of_nat n * (k * 2 ^ j) + k * 2 ^ j)
    with (Z.of_nat (S n) * k * 2 ^ j) by lia.
  rewrite rnd_exact by nia. lia.
Qed.

(** Adding a number of value at most [2 ^ j] to itself [n] times gives at
    most [n * 2 ^ j]. *)
Lemma iter_add_bound x j n :
  regular prec emax x = true → 0 ≤ j →
  value prec emax x ≤ 2 ^ j →
  Z.of_nat n ≤ 2 ^ prec →
  Z.of_nat n * 2 ^ j < 2 ^ (emax - 1 - emin prec emax) →
  regular prec emax (Nat.iter n (λ a, SFadd prec emax a x) (S754_zero false))
  = true ∧
  value prec emax (Nat.iter n (λ a, SFadd prec emax a x) (S754_zero false))
  ≤ Z.of_nat n * 2 ^ j.
Proof.
  intros Hx Hj Hv. pose proof (value_nonneg x) as Hnn.
  assert (0 < 2 ^ j) as Hpj by (by apply pow2_pos).
  induction n as [|n IH]; intros Hdig Hov; [by split|].
  destruct IH as [IHr IHv]; [nia..|].
  rewrite Nat.iter_succ.
  pose proof (value_nonneg
                (Nat.iter n (λ a, SFadd prec emax a x) (S754_zero false)))
    as Hacc.
  destruct (add_regular _ x IHr Hx) as [Hr Hval]; [nia|].
  split; [exact Hr|]. rewrite Hval.
  etrans; [apply (rnd_mono _ (Z.of_nat (S n) * 2 ^ j)); nia|].
  rewrite rnd_exact by lia. lia.
Qed.

End Format.

(** *** The kernel on inputs that are whole numbers *)

Lemma float_emin : emin float_prec float_emax = (-149)%Z.
Proof. reflexivity. Qed.

Lemma matrix_size_Z : Z.of_nat (kRowLength * kRowLength) = 16384%Z.
Proof. vm_compute. reflexivity. Qed.

Lemma kernel_output_cell safe_len run input out r c :
  safe_len ≤ kRowLength → length out = kMatrixSize →
  r < kRowLength → c < kRowLength →
  read1 float_zero (kernel_output safe_len run input out)
    (r * kRowLength + c)
  = Nat.iter (kRowLength * kRowLength)
      (λ a, float_add a (read1 float_zero input (c * kRowLength + r)))
      float_zero.
Proof.
  intros Hsl Hlen Hr Hc. unfold kernel_output, read1 at 1.
  rewrite (KernelCompute_ivdep_sequential float_add float_zero kRowLength
             kRowLength_pos) by exact Hsl.
  rewrite (KernelCompute_cell float_add float_zero kRowLength kRowLength_pos
             (kernel_locals run) input out r c Hlen Hr Hc).
  reflexivity.
Qed.

Lemma float_of_int_value z :
  (0 ≤ z ≤ 2 ^ 24)%Z →
  regular float_prec float_emax (float_of_int z) = true ∧
  value float_prec float_emax (float_of_int z) = (z * 2 ^ 149)%Z.
Proof.
  intros Hz.
  destruct (of_int_regular float_prec float_emax eq_refl eq_refl z)
    as [Hreg Hval].
  { split; [lia|]. apply Z.le_lt_trans with (2 ^ 24)%Z; [lia|reflexivity]. }
  split; [exact Hreg|]. unfold float_of_int. rewrite Hval, float_emin.
  f_equal.
  pose proof (rnd_exact float_prec eq_refl z 0) as Hex.
  rewrite Z.pow_0_r, Z.mul_1_r in Hex. apply Hex; [exact Hz|lia].
Qed.

Lemma iter_float_add_exact k :
  (0 ≤ k ≤ 1024)%Z →
  Nat.iter (kRowLength * kRowLength) (λ a, float_add a (float_of_int k))
    float_zero
  = float_of_int (16384 * k).
Proof.
  intros Hk.
  destruct (float_of_int_value k) as [Hreg Hval]; [lia|].
  destruct (float_of_int_value (16384 * k)) as [Hreg' Hval']; [lia|].
  destruct (iter_add_exact float_prec float_emax eq_refl eq_refl
              (float_of_int k) k 149 (kRowLength * kRowLength))
    as [Hr Hv].
  - exact Hreg.
  - lia.
  - lia.
  - exact Hval.
  - rewrite matrix_size_Z. change (2 ^ float_prec)%Z with 16777216%Z. lia.
  - rewrite matrix_size_Z, Hval, float_emin.
    apply Z.le_lt_trans with (2 ^ 24 * 2 ^ 149)%Z; [|reflexivity].
    rewrite Z.mul_assoc. apply Z.mul_le_mono_nonneg_r; [|lia].
    apply Z.pow_nonneg. lia.
  - apply (regular_unique float_prec float_emax eq_refl).
    + exact Hr.
    + exact Hreg'.
    + rewrite Hval'. etrans; [exact Hv|]. rewrite matrix_size_Z, Hval. lia.
Qed.

(** X6.  Whole numbers are summed exactly.  When the element of the input
    matrix at row [c] and column [r] is the integer [k], with [k] from 0 to
    1024, the element of the output at row [r] and column [c] is exactly
    [16384 * k]: none of the 16384 additions rounds. *)
Theorem integer_input_summed_exactly safe_len run input out r c k :
  safe_len ≤ kRowLength → length out = kMatrixSize →
  r < kRowLength → c < kRowLength → (0 ≤ k ≤ 1024)%Z →
  read1 float_zero input (c * kRowLength + r) = float_of_int k →
  read1 float_zero (kernel_output safe_len run input out)
    (r * kRowLength + c)
  = float_of_int (16384 * k).
Proof.
  intros Hsl Hlen Hr Hc Hk Hin.
  rewrite kernel_output_cell by assumption.
  rewrite Hin. apply iter_float_add_exact, Hk.
Qed.

Lemma integer_input_summed_exactly_witness :
  read1 float_zero (kernel_output kMaxSafelen eager_run unit_matrix nan_matrix)
    (0 * kRowLength + 0)
  = float_of_int (16384 * 1).
Proof.
  apply integer_input_summed_exactly.
  - unfold kMaxSafelen. lia.
  - vm_compute. reflexivity.
  - unfold kRowLength. lia.
  - unfold kRowLength. lia.
  - lia.
  - reflexivity.
Defined.

(** Beyond 1024 the sum is no longer exact. *)
Example integer_input_bound_sharp :
  Nat.iter (kRowLength * kRowLength) (λ a, float_add a (float_of_int 1025))
    float_zero
  ≠ float_of_int (16384 * 1025).
Proof. vm_compute. discriminate. Qed.

(** *** The range of the output of a run of [main] *)

Lemma float_of_int_normal z :
  (0 < z ≤ INT_MAX)%Z →
  ∃ m e, float_of_int z = S754_finite false m e ∧
         Zdigits2 (Zpos m) = 24%Z ∧ (-23 ≤ e ≤ 8)%Z.
Proof.
  intros Hz. unfold INT_MAX in Hz.
  assert (0 < Zdigits2 z)%Z as Hd by (apply Zdigits2_pos; lia).
  assert (Zdigits2 z ≤ 31)%Z as Hd'.
  { apply Zdigits2_le; [lia..|].
    apply Z.le_lt_trans with 2147483647%Z; [lia|reflexivity]. }
  destruct (of_int_normal float_prec float_emax eq_refl eq_refl z)
    as (m & e & Heq & Hdm & He & _).
  { split; [lia|].
    apply Z.le_lt_trans with 2147483647%Z; [lia|reflexivity]. }
  exists m, e. unfold float_prec in He. split_and!; [exact Heq|exact Hdm|lia..].
Qed.

Lemma random_element_regular rand_max r :
  (0 < rand_max ≤ INT_MAX)%Z → (0 ≤ r ≤ rand_max)%Z →
  regular float_prec float_emax (random_element rand_max r) = true.
Proof.
  intros HM Hr. unfold random_element.
  destruct (float_of_int_normal rand_max HM) as (mb & eb & -> & Hdb & Heb).
  destruct (decide (r = 0%Z)) as [->|Hr0]; [reflexivity|].
  destruct (float_of_int_normal r) as (ma & ea & -> & Hda & Hea); [lia|].
  destruct (div_normal float_prec float_emax eq_refl ma ea mb eb)
    as (m & e & Heq & Hdm & He); [exact Hda|exact Hdb| |].
  { unfold float_emax. lia. }
  unfold float_div. rewrite Heq.
  apply regular_finite; [exact Hdm|].
  rewrite float_emin. unfold float_prec, float_emax in *. lia.
Qed.

Lemma float_one_value : value float_prec float_emax float_one = (2 ^ 149)%Z.
Proof. reflexivity. Qed.

(** Every element that [main] hands to the kernel is regular and has a
    value of at most one. *)
Lemma fill_input_regular env i :
  rand_conforms env →
  regular float_prec float_emax (read1 float_zero (fill_input env) i) = true ∧
  (value float_prec float_emax (read1 float_zero (fill_input env) i)
   ≤ 2 ^ 149)%Z.
Proof.
  intros Hconf.
  destruct (decide (i < kMatrixSize)) as [Hi|Hi].
  - rewrite fill_input_element by exact Hi.
    destruct (rand_conforms_range env i Hconf) as [HM Hr].
    destruct (random_element_range _ _ HM Hr) as (_ & _ & Hle).
    assert (regular float_prec float_emax
              (random_element (RAND_MAX env) (rand env i)) = true) as Hreg.
    { apply random_element_regular; [|exact Hr].
      destruct Hconf as [HM' _]. lia. }
    split; [exact Hreg|]. rewrite <- float_one_value.
    apply (regular_le float_prec float_emax eq_refl);
      [exact Hreg|reflexivity|exact Hle].
  - unfold read1. rewrite fill_input_closed, list_lookup_fmap.
    rewrite lookup_seq_ge by lia. split; [reflexivity|].
    apply Z.pow_nonneg. lia.
Qed.

Lemma iter_float_add_bound x :
  regular float_prec float_emax x = true →
  (value float_prec float_emax x ≤ 2 ^ 149)%Z →
  float_le float_zero
    (Nat.iter (kRowLength * kRowLength) (λ a, float_add a x) float_zero)
  = true ∧
  float_le
    (Nat.iter (kRowLength * kRowLength) (λ a, float_add a x) float_zero)
    (float_of_int 16384)
  = true.
Proof.
  intros Hreg Hval.
  destruct (float_of_int_value 16384) as [Hreg' Hval']; [lia|].
  destruct (iter_add_bound float_prec float_emax eq_refl eq_refl
              x 149 (kRowLength * kRowLength))
    as [Hr Hv].
  - exact Hreg.
  - lia.
  - exact Hval.
  - rewrite matrix_size_Z. change (2 ^ float_prec)%Z with 16777216%Z. lia.
  - rewrite matrix_size_Z, float_emin. reflexivity.
  - split.
    + apply nonneg_zero_le, (regular_nonneg float_prec float_emax), Hr.
    + apply (regular_le float_prec float_emax eq_refl); [exact Hr|exact Hreg'|].
      rewrite Hval'. etrans; [exact Hv|]. rewrite matrix_size_Z. lia.
Qed.

(** X7.  The range of the output.  In a run of [main] with a conforming
    [rand()], every element of the output of the kernel is a finite number
    from 0 to 16384: the sum of 16384 numbers, none larger than 1, never
    passes 16384, whatever the roundings on the way. *)
Theorem output_elements_bounded env i :
  rand_conforms env → i < kMatrixSize →
  float_le float_zero (read1 float_zero (B_of env) i) = true ∧
  float_le (read1 float_zero (B_of env) i) (float_of_int 16384) = true.
Proof.
  intros Hconf Hi.
  assert (kMinSafelen ≤ kRowLength) as Hmin
    by (unfold kMinSafelen, kRowLength; lia).
  unfold B_of.
  rewrite kernel_output_closed by (exact Hmin || apply length_uninit1).
  unfold read1 at 1 3. rewrite list_lookup_fmap.
  destruct (seq 0 (kRowLength * kRowLength) !! i) as [k|] eqn:Hk.
  - change (float_le float_zero
              (Nat.iter (kRowLength * kRowLength)
                 (λ a, float_add a
                         (read1 float_zero (fill_input env)
                            (k mod kRowLength * kRowLength + k / kRowLength)))
                 float_zero) = true ∧
            float_le
              (Nat.iter (kRowLength * kRowLength)
                 (λ a, float_add a
                         (read1 float_zero (fill_input env)
                            (k mod kRowLength * kRowLength + k / kRowLength)))
                 float_zero)
              (float_of_int 16384) = true).
    destruct (fill_input_regular env
                (k mod kRowLength * kRowLength + k / kRowLength) Hconf)
      as [Hreg Hval].
    apply iter_float_add_bound; [exact Hreg|exact Hval].
  - apply lookup_ge_None in Hk. rewrite length_seq in Hk.
    unfold kMatrixSize in Hi. lia.
Qed.

Lemma output_elements_bounded_witness :
  float_le float_zero
    (read1 float_zero (B_of (sample_env 1804289383 in_order_run eager_run)) 5)
  = true ∧
  float_le
    (read1 float_zero (B_of (sample_env 1804289383 in_order_run eager_run)) 5)
    (float_of_int 16384)
  = true.
Proof.
  apply output_elements_bounded.
  - split; [unfold INT_MAX; simpl; lia|]. intros i. simpl. lia.
  - vm_compute. lia.
Defined.

(** *** The time measurement *)

Lemma double_emin : emin double_prec double_emax = (-1074)%Z.
Proof. reflexivity. Qed.

Lemma literal_1em6_eq :
  literal_1em6 = S754_finite false 4722366482869645 (-72).
Proof. vm_compute. reflexivity. Qed.

Lemma literal_1em3f_eq :
  double_of_float literal_1em3f = S754_finite false 4611686237470720 (-62).
Proof. vm_compute. reflexivity. Qed.

Lemma throughput_eq kt :
  throughput kt
  = double_div (S754_finite false 4611686237470720 (-46))
      (double_mul kt (S754_finite false 4611686237470720 (-62))).
Proof.
  unfold throughput. rewrite literal_1em3f_eq.
  assert (double_mul
            (double_mul (double_of_int (Z.of_nat kMatrixSize))
               (double_of_int sizeof_float))
            (S754_finite false 4611686237470720 (-62))
          = S754_finite false 4611686237470720 (-46)) as ->
    by (vm_compute; reflexivity).
  reflexivity.
Qed.

Lemma double_of_int_regular z :
  (0 ≤ z < 2 ^ 64)%Z →
  regular double_prec double_emax (double_of_int z) = true ∧
  value double_prec double_emax (double_of_int z)
  = (rnd double_prec z * 2 ^ 1074)%Z.
Proof.
  intros Hz.
  destruct (of_int_regular double_prec double_emax eq_refl eq_refl z)
    as [Hreg Hval].
  { split; [lia|]. apply Z.lt_trans with (2 ^ 64)%Z; [lia|reflexivity]. }
  split; [exact Hreg|]. unfold double_of_int. rewrite Hval, double_emin.
  reflexivity.
Qed.

Lemma double_of_int_normal z :
  (0 < z < 2 ^ 64)%Z →
  ∃ m e, double_of_int z = S754_finite false m e ∧
         Zdigits2 (Zpos m) = 53%Z ∧ (-52 ≤ e ≤ 12)%Z.
Proof.
  intros Hz.
  assert (0 < Zdigits2 z)%Z as Hd by (apply Zdigits2_pos; lia).
  assert (Zdigits2 z ≤ 64)%Z as Hd' by (apply Zdigits2_le; lia).
  destruct (of_int_normal double_prec double_emax eq_refl eq_refl z)
    as (m & e & Heq & Hdm & He & _).
  { split; [lia|]. apply Z.lt_trans with (2 ^ 64)%Z; [lia|reflexivity]. }
  exists m, e. unfold double_prec in He.
  split_and!; [exact Heq|exact Hdm|lia..].
Qed.

Lemma double_of_int_mono z z' :
  (0 ≤ z ≤ z')%Z → (z' < 2 ^ 64)%Z →
  (value double_prec double_emax (double_of_int z)
   ≤ value double_prec double_emax (double_of_int z'))%Z.
Proof.
  intros Hz Hz'.
  destruct (double_of_int_regular z) as [_ ->]; [lia|].
  destruct (double_of_int_regular z') as [_ ->]; [lia|].
  apply Z.mul_le_mono_nonneg_r; [apply Z.pow_nonneg; lia|].
  apply (rnd_mono double_prec eq_refl). exact Hz.
Qed.

(** When the two time stamps convert to the same [double], the kernel time
    is [+0] and the throughput is [+infinity]. *)
Lemma timing_zero p :
  (0 ≤ command_start p < 2 ^ 64)%Z → (0 ≤ command_end p < 2 ^ 64)%Z →
  double_of_int (command_end p) = double_of_int (command_start p) →
  kernel_time p = S754_zero false ∧
  throughput (kernel_time p) = S754_infinity false.
Proof.
  intros Hs He Heq.
  destruct (double_of_int_regular (command_start p) Hs) as [Hreg _].
  assert (kernel_time p = S754_zero false) as ->.
  { unfold kernel_time. cbv zeta. rewrite Heq.
    destruct (sub_regular double_prec double_emax eq_refl eq_refl
                (double_of_int (command_start p))
                (double_of_int (command_start p)) Hreg Hreg)
      as [_ Hzero]; [lia|].
    unfold double_sub. rewrite Hzero by reflexivity.
    rewrite literal_1em6_eq. reflexivity. }
  split; [reflexivity|]. rewrite throughput_eq. reflexivity.
Qed.

(** When they convert to different ones, the second being the later, both
    the kernel time and the throughput are positive finite numbers. *)
Lemma timing_positive p :
  (0 ≤ command_start p ≤ command_end p)%Z → (command_end p < 2 ^ 64)%Z →
  double_of_int (command_end p) ≠ double_of_int (command_start p) →
  ∃ m e m' e',
    kernel_time p = S754_finite false m e ∧
    throughput (kernel_time p) = S754_finite false m' e'.
Proof.
  intros Hs He Hne.
  destruct (double_of_int_regular (command_start p)) as [Hrs Hvs]; [lia|].
  destruct (double_of_int_regular (command_end p)) as [Hre Hve]; [lia|].
  pose proof (double_of_int_mono _ _ Hs He) as Hmono.
  assert (value double_prec double_emax (double_of_int (command_start p))
          < value double_prec double_emax (double_of_int (command_end p)))%Z
    as Hlt.
  { destruct (decide
                (value double_prec double_emax
                   (double_of_int (command_start p))
                 = value double_prec double_emax
                     (double_of_int (command_end p)))) as [Heq|Hneq]; [|lia].
    exfalso. apply Hne. symmetry.
    apply (regular_unique double_prec double_emax eq_refl); assumption. }
  assert (0 < command_end p)%Z as Hepos.
  { destruct (decide (command_end p = 0%Z)) as [H0|]; [|lia].
    assert (command_start p = 0%Z) as H0' by lia.
    rewrite H0, H0' in Hlt. lia. }
  destruct (double_of_int_normal (command_end p))
    as (me & ee & Hee & Hde & Hee'); [lia|].
  (* the difference *)
  assert (∃ md ed,
            double_sub (double_of_int (command_end p))
              (double_of_int (command_start p))
            = S754_finite false md ed ∧
            Zdigits2 (Zpos md) = 53%Z ∧ (-104 ≤ ed ≤ 13)%Z)
    as (md & ed & Hsub & Hdd & Hed).
  { destruct (decide (command_start p = 0%Z)) as [H0|Hs0].
    - rewrite H0, Hee. exists me, ee. split_and!; [reflexivity|exact Hde|lia..].
    - destruct (double_of_int_normal (command_start p))
        as (ms & es & Hes & Hds & Hes'); [lia|].
      rewrite Hee, Hes in Hlt |- *.
      destruct (sub_normal double_prec double_emax eq_refl eq_refl
                  me ee ms es Hde Hds)
        as (md & ed & Hsub & Hdd & Hed);
        [unfold double_prec, double_emax; lia..|exact Hlt|].
      exists md, ed. unfold double_prec in Hed.
      split_and!; [exact Hsub|exact Hdd|lia..]. }
  (* the kernel time *)
  destruct (mul_normal double_prec double_emax eq_refl
              md ed 4722366482869645 (-72) Hdd eq_refl)
    as (mk & ek & Hmul & Hdk & Hek);
    [unfold double_prec, double_emax; lia|].
  assert (kernel_time p = S754_finite false mk ek) as Hkt.
  { unfold kernel_time. cbv zeta. rewrite Hsub, literal_1em6_eq. exact Hmul. }
  (* the throughput *)
  destruct (mul_normal double_prec double_emax eq_refl
              mk ek 4611686237470720 (-62) Hdk eq_refl)
    as (mt & et & Hmul' & Hdt & Het);
    [unfold double_prec, double_emax in *; lia|].
  destruct (div_normal double_prec double_emax eq_refl
              4611686237470720 (-46) mt et eq_refl Hdt)
    as (mq & eq & Hdiv & _ & _);
    [unfold double_prec, double_emax in *; lia|].
  exists mk, ek, mq, eq. split; [exact Hkt|].
  rewrite throughput_eq, Hkt. unfold double_mul, double_div.
  rewrite Hmul'. exact Hdiv.
Qed.

(** X8.  A kernel that starts and ends at the same time stamp.  The kernel
    time is then [+0], and the throughput that is printed is the quotient
    of a positive number by zero: [+infinity], not an error. *)
Theorem equal_time_stamps_infinite_throughput p :
  (0 ≤ command_start p < 2 ^ 64)%Z →
  command_end p = command_start p →
  kernel_time p = S754_zero false ∧
  throughput (kernel_time p) = S754_infinity false.
Proof.
  intros Hs Heq. apply timing_zero; [exact Hs|lia|by rewrite Heq].
Qed.

Lemma equal_time_stamps_infinite_throughput_witness :
  kernel_time {| command_start := 5; command_end := 5 |} = S754_zero false ∧
  throughput (kernel_time {| command_start := 5; command_end := 5 |})
  = S754_infinity false.
Proof.
  apply (equal_time_stamps_infinite_throughput
           {| command_start := 5; command_end := 5 |});
    [simpl; lia|reflexivity].
Defined.

(** X9.  The kernel time and the throughput are never NaN and never
    negative.  For time stamps in the range of an unsigned 64-bit integer
    with the end not before the start, either the kernel time is [+0] and
    the throughput [+infinity], or both are positive finite numbers. *)
Theorem timing_zero_or_positive p :
  (0 ≤ command_start p ≤ command_end p)%Z → (command_end p < 2 ^ 64)%Z →
  (kernel_time p = S754_zero false ∧
   throughput (kernel_time p) = S754_infinity false) ∨
  (∃ m e m' e',
     kernel_time p = S754_finite false m e ∧
     throughput (kernel_time p) = S754_finite false m' e').
Proof.
  intros Hs He.
  destruct (double_of_int_regular (command_start p)) as [Hrs _]; [lia|].
  destruct (double_of_int_regular (command_end p)) as [Hre _]; [lia|].
  destruct (decide
              (value double_prec double_emax (double_of_int (command_end p))
               = value double_prec double_emax
                   (double_of_int (command_start p)))) as [Heq|Hne].
  - left. apply timing_zero; [lia|lia|].
    apply (regular_unique double_prec double_emax eq_refl); assumption.
  - right. apply timing_positive; [exact Hs|exact He|].
    intros Heq. apply Hne. by rewrite Heq.
Qed.

Lemma timing_zero_or_positive_witness :
  (kernel_time {| command_start := 1000; command_end := 2500000 |}
   = S754_zero false ∧
   throughput (kernel_time {| command_start := 1000; command_end := 2500000 |})
   = S754_infinity false) ∨
  (∃ m e m' e',
     kernel_time {| command_start := 1000; command_end := 2500000 |}
     = S754_finite false m e ∧
     throughput (kernel_time {| command_start := 1000; command_end := 2500000 |})
     = S754_finite false m' e').
Proof.
  apply (timing_zero_or_positive
           {| command_start := 1000; command_end := 2500000 |});
    simpl; lia.
Defined.

(** X10.  A kernel that takes at least one nanosecond.  With time stamps
    below [2 ^ 53], which convert to [double] without rounding, a later end
    gives a positive finite kernel time and a positive finite throughput:
    the division by zero of X8 happens for equal time stamps only. *)
Theorem positive_duration_finite_throughput p :
  (0 ≤ command_start p < command_end p)%Z → (command_end p < 2 ^ 53)%Z →
  ∃ m e m' e',
    kernel_time p = S754_finite false m e ∧
    throughput (kernel_time p) = S754_finite false m' e'.
Proof.
  intros Hs He.
  assert (2 ^ 53 < 2 ^ 64)%Z as Hpow by reflexivity.
  apply timing_positive; [lia|lia|].
  intros Heq.
  destruct (double_of_int_regular (command_start p)) as [_ Hvs]; [lia|].
  destruct (double_of_int_regular (command_end p)) as [_ Hve]; [lia|].
  rewrite Heq, Hvs in Hve.
  rewrite !(rnd_small double_prec) in Hve
    by (apply Zdigits2_le; unfold double_prec; lia).
  assert (0 < 2 ^ 1074)%Z by (apply pow2_pos; lia). nia.
Qed.

Lemma positive_duration_finite_throughput_witness :
  ∃ m e m' e',
    kernel_time {| command_start := 1000; command_end := 2500000 |}
    = S754_finite false m e ∧
    throughput (kernel_time {| command_start := 1000; command_end := 2500000 |})
    = S754_finite false m' e'.
Proof.
  apply (positive_duration_finite_throughput
           {| command_start := 1000; command_end := 2500000 |});
    simpl; lia.
Defined.
